(** * Reasoning360 model filtering: resumable sharded batch execution

    A shallow embedding of [model_filtering/pipeline.py] (the generation
    pass: shard partitioning, checkpoint resolution from batch artifact
    files, the batch loop) and of [model_filtering/run_reward.py] (the
    reward pass: one scoring task per response, aggregation per sample,
    the per-rank summary).

    Python integers are [Z]; [//] on integers is [Z.div] (both round
    towards minus infinity).  Strings are [string] (file names are taken to
    be ASCII).  Python floats that are scores and pass rates are modelled by
    exact rationals [Q], normalised with [Qred].  A [dict] whose iteration
    order matters is an association list; the accumulated results map of the
    checkpoint, which is only ever indexed, is a [gmap string _]. *)

From Stdlib Require Import Ascii String ZArith QArith Qreduction.
From Stdlib Require Import DecimalString DecimalN DecimalPos.
From stdpp Require Import base option list strings gmap sorting.

#[local] Open Scope Z_scope.

(** ** Python primitives used by the two scripts *)

Module Py.

(** Characters that [str.strip] and [int] treat as white space, within
    ASCII: tab, line feed, vertical tab, form feed, carriage return, the
    four separators 0x1c-0x1f and the space. *)
Definition is_space (c : ascii) : bool :=
  let n := nat_of_ascii c in
  ((9 <=? n) && (n <=? 13) || (28 <=? n) && (n <=? 32))%nat.

Fixpoint lstrip (s : string) : string :=
  match s with
  | String c r => if is_space c then lstrip r else s
  | EmptyString => EmptyString
  end.

Fixpoint rstrip (s : string) : string :=
  match s with
  | String c r =>
      match rstrip r with
      | EmptyString => if is_space c then EmptyString else String c EmptyString
      | r' => String c r'
      end
  | EmptyString => EmptyString
  end.

Definition strip (s : string) : string := rstrip (lstrip s).

(** [s.split(sep)] for a one-character separator: every occurrence
    separates, so the result is never empty and [''.split(sep) == ['']]. *)
Fixpoint split (sep : ascii) (s : string) : list string :=
  match s with
  | EmptyString => [EmptyString]
  | String c r =>
      if decide (c = sep) then EmptyString :: split sep r
      else match split sep r with
           | p :: ps => String c p :: ps
           | [] => [String c EmptyString]
           end
  end.

Definition is_digit (c : ascii) : bool :=
  let n := nat_of_ascii c in ((48 <=? n) && (n <=? 57))%nat.

(** A non-empty run of ASCII decimal digits, leading zeros allowed. *)
Definition digits_value (s : string) : option Z :=
  match s with
  | EmptyString => None
  | _ => (λ d, Z.of_N (N.of_uint d)) <$> NilEmpty.uint_of_string s
  end.

(** [int(s)] in base 10; [None] stands for [ValueError].  White space
    around the literal is dropped, one sign is accepted.  The digit-group
    separator [_] that [int] also accepts is left out: every argument in
    this development is a piece of a split on [_]. *)
Definition int_of_str (s : string) : option Z :=
  match strip s with
  | String c r =>
      if decide (c = "-"%char) then Z.opp <$> digits_value r
      else if decide (c = "+"%char) then digits_value r
      else digits_value (String c r)
  | EmptyString => None
  end.

(** The decimal digits of a natural number, ["0"] for zero. *)
Definition digits (n : N) : string := NilEmpty.string_of_uint (N.to_uint n).

(** [str(z)], also what an f-string prints for [{z}]. *)
Definition str_of_int (z : Z) : string :=
  if z <? 0 then String "-" (digits (Z.abs_N z)) else digits (Z.abs_N z).

Fixpoint zeros (n : nat) : string :=
  match n with
  | O => EmptyString
  | S n' => String "0" (zeros n')
  end.

(** [f"{z:05d}"]: zero fill to width 5; the sign counts for the width and
    stays in front of the fill. *)
Definition format_05d (z : Z) : string :=
  let ds := digits (Z.abs_N z) in
  if z <? 0 then String "-" (zeros (4 - String.length ds) +:+ ds)
  else zeros (5 - String.length ds) +:+ ds.

(** A sign, a zero fill and the digits of [|z|]: the shape shared by
    [str_of_int] and [format_05d]. *)
Definition signed (k : nat) (z : Z) : string :=
  if z <? 0 then String "-" (zeros k +:+ digits (Z.abs_N z))
  else zeros k +:+ digits (Z.abs_N z).

(** The characters of such a string. *)
Definition plain_char (c : ascii) : bool := is_digit c || bool_decide (c = "-"%char).

Fixpoint strip_prefix (p s : string) : option string :=
  match p, s with
  | EmptyString, _ => Some s
  | String a p', String b s' => if decide (a = b) then strip_prefix p' s' else None
  | String _ _, EmptyString => None
  end.

Fixpoint endswith (s suf : string) : bool :=
  if decide (s = suf) then true
  else match s with
       | String _ r => endswith r suf
       | EmptyString => false
       end.

Fixpoint all_chars (P : ascii → bool) (s : string) : bool :=
  match s with
  | EmptyString => true
  | String c r => P c && all_chars P r
  end.

End Py.

(** ** Data model *)

(** Values that come from the dataset or from a JSON file and are passed
    on untouched (ground truths, auxiliary fields). *)
#[warnings="-register-all"]
Inductive json :=
| JNull
| JBool (b : bool)
| JNum (q : Q)
| JStr (s : string)
| JArr (l : list json)
| JObj (l : list (string * json)).

(** The detail of one scored response: a dict with at least ["score"]. *)
Abbreviation detail := (list (string * json)).

Record Message := { role : string; content : string }.

(** One entry of a batch artifact.  The first six fields are written by
    the generation pass; the last three are absent ([None]) until the
    reward pass writes them back. *)
Record Sample := {
  messages : list Message;
  question : string;
  ground_truth : json;
  source : string;
  responses : list string;
  extra_info : list (string * json);
  detailed_scores : option (list detail);
  scores : option (list json);
  pass_rate : option Q;
}.

(** What [json.load] followed by [.items()] yields for a batch file:
    [None] when either raises (truncated or invalid JSON, a top-level value
    that is not an object), otherwise the entries in file order.  The
    entries are taken to have the shape of a [Sample]; the checkpoint
    resolver passes them on without looking inside. *)
Abbreviation batch_file := (option (list (string * Sample))).

(** A rank's output directory: the names in it, in the order the file
    system lists them, with each file's content. *)
Abbreviation directory := (list (string * batch_file)).

(** [open(name, "w")] followed by a complete [json.dump]. *)
Fixpoint write_file (name : string) (data : batch_file) (dir : directory) : directory :=
  match dir with
  | [] => [(name, data)]
  | (n, d) :: rest =>
      if decide (n = name) then (name, data) :: rest
      else (n, d) :: write_file name data rest
  end.

(** ** Shard partitioner *)

Module Shard.

(** Lines 108-120 of [prepare_dataset]: the index range handed to
    [dataset.select(range(start, end))]; with [dp_size <= 1] the dataset is
    left as it is, that is the range [0, total). *)
Definition shard_range (total dp_size dp_rank : Z) : Z * Z :=
  if 1 <? dp_size then
    let per_rank := total / dp_size in
    let start := dp_rank * per_rank in
    let end_ := if negb (dp_rank =? dp_size - 1) then start + per_rank else total in
    (start, end_)
  else (0, total).

Definition in_range (rg : Z * Z) (i : Z) : Prop := rg.1 <= i < rg.2.

End Shard.

(** ** Checkpoint resolver *)

Module Checkpoint.

(** What the resolver prints on the console. *)
Inductive console_msg :=
| ForceRegeneration
| CouldNotParse (file : string)
| FoundBatchFiles (n : nat)
| LoadedBatch (batch_idx : Z) (n : nat)
| FailedToLoad (file : string)
| Resuming (start_batch_idx : Z) (n : nat).

Definition is_warning (m : console_msg) : bool :=
  match m with
  | ForceRegeneration | CouldNotParse _ | FailedToLoad _ => true
  | _ => false
  end.

Record CheckpointState := {
  current_batch_idx : Z;
  global_results : gmap string Sample;
  global_errors : gmap string Sample;
}.

(** [glob.glob(os.path.join(rank_output_dir, "batch_*.json"))], as base
    names: [*] matches any run of characters, the empty one too.  This is
    the test on the files of the directory that glob lists, which is the
    rank directory when its path holds none of the characters that glob
    reads as a pattern; [Located.listing] has the other case. *)
Definition glob_batch (name : string) : bool :=
  match Py.strip_prefix "batch_" name with
  | Some rest => Py.endswith rest ".json"
  | None => false
  end.

(** Line 162: [int(os.path.basename(f).split("_")[1].split(".")[0])];
    [None] stands for the [ValueError] or [IndexError] caught at line 164. *)
Definition batch_num (name : string) : option Z :=
  piece ← Py.split "_" name !! 1%nat;
  stem ← Py.split "." piece !! 0%nat;
  Py.int_of_str stem.

Abbreviation indexed_file := (Z * (string * batch_file))%type.

(** Lines 160-165, one iteration. *)
Definition parse_step (st : list indexed_file * list console_msg)
    (bf : string * batch_file) : list indexed_file * list console_msg :=
  match batch_num bf.1 with
  | Some n => (st.1 ++ [(n, bf)], st.2)
  | None => (st.1, st.2 ++ [CouldNotParse bf.1])
  end.

(** Line 168: [list.sort(key=lambda x: x[0])] is stable; a stable sort is
    determined by its input, here computed by insertion. *)
Fixpoint insert_by_idx (x : indexed_file) (l : list indexed_file) : list indexed_file :=
  match l with
  | [] => [x]
  | y :: l' => if x.1 <=? y.1 then x :: l else y :: insert_by_idx x l'
  end.

Definition sort_by_idx (l : list indexed_file) : list indexed_file :=
  foldr insert_by_idx [] l.

(** Line 183: the key [f"{batch_idx}_{i}"]. *)
Definition result_key (batch_idx : Z) (i : string) : string :=
  Py.str_of_int batch_idx +:+ "_" +:+ i.

(** Lines 182-183. *)
Definition merge_batch (batch_idx : Z) (items : list (string * Sample))
    (results : gmap string Sample) : gmap string Sample :=
  foldl (λ m ir, <[result_key batch_idx ir.1 := ir.2]> m) results items.

(** Lines 177-186, one iteration. *)
Definition load_step (st : gmap string Sample * list console_msg)
    (f : indexed_file) : gmap string Sample * list console_msg :=
  match f.2.2 with
  | Some items => (merge_batch f.1 items st.1, st.2 ++ [LoadedBatch f.1 (length items)])
  | None => (st.1, st.2 ++ [FailedToLoad f.2.1])
  end.

(** Line 189. *)
Definition start_batch_idx (sorted : list indexed_file) : Z :=
  match last sorted with
  | Some f => f.1 + 1
  | None => 0
  end.

(** [load_checkpoint], lines 145-194, on the content of the rank's
    output directory; returns the state and what was printed. *)
Definition load_checkpoint (force_regenerate : bool) (dir : directory)
    : CheckpointState * list console_msg :=
  if force_regenerate then
    ({| current_batch_idx := 0; global_results := ∅; global_errors := ∅ |},
     [ForceRegeneration])
  else
    let batch_files := filter (λ f, glob_batch f.1 = true) dir in
    let '(unsorted, out1) := foldl parse_step ([], []) batch_files in
    let batch_files_with_idx := sort_by_idx unsorted in
    let out2 :=
      match batch_files_with_idx with
      | [] => out1
      | _ => out1 ++ [FoundBatchFiles (length batch_files_with_idx)]
      end in
    let '(results, out3) := foldl load_step (∅, out2) batch_files_with_idx in
    let start := start_batch_idx batch_files_with_idx in
    let out4 :=
      match batch_files_with_idx with
      | [] => out3
      | _ => out3 ++ [Resuming start (size results)]
      end in
    ({| current_batch_idx := start; global_results := results; global_errors := ∅ |},
     out4).

(** *** Vocabulary for stating the resolver's properties *)

(** The listed files whose name yields a batch number, with that number,
    in listing order: [batch_files_with_idx] before the sort. *)
Definition indexed (files : directory) : list indexed_file :=
  omap (λ bf, (λ n, (n, bf)) <$> batch_num bf.1) files.

Definition parse_warnings (files : directory) : list console_msg :=
  omap (λ bf, match batch_num bf.1 with
              | Some _ => None
              | None => Some (CouldNotParse bf.1)
              end) files.

(** The results map after loading the files of [l], in that order. *)
Definition load_results (l : list indexed_file) (m : gmap string Sample)
    : gmap string Sample :=
  foldl (λ m f, match f.2.2 with
                | Some items => merge_batch f.1 items m
                | None => m
                end) m l.

Definition load_messages (l : list indexed_file) : list console_msg :=
  (λ f, match f.2.2 with
        | Some items => LoadedBatch f.1 (length items)
        | None => FailedToLoad f.2.1
        end) <$> l.

(** A file the glob lists and whose name yields a batch number. *)
Definition named (bf : string * batch_file) : Prop :=
  glob_batch bf.1 = true ∧ is_Some (batch_num bf.1).

(** A named file whose content loads. *)
Definition valid (bf : string * batch_file) : Prop :=
  named bf ∧ is_Some bf.2.

#[global] Instance named_dec bf : Decision (named bf).
Proof. unfold named. apply _. Defined.

#[global] Instance valid_dec bf : Decision (valid bf).
Proof. unfold valid. apply _. Defined.

(** [batch_files_with_idx] after the sort of line 168. *)
Definition resolved (dir : directory) : list indexed_file :=
  sort_by_idx (indexed (filter (λ f, glob_batch f.1 = true) dir)).

(** [len(batch_data)] of a file, 0 for one that does not load. *)
Definition entries (f : indexed_file) : nat := from_option length 0%nat f.2.2.

Definition idx_le (a b : indexed_file) : Prop := a.1 <= b.1.

(** The artifact name of line 308: [f"batch_{idx:05d}.json"]. *)
Definition batch_file_name (idx : Z) : string :=
  "batch_" +:+ Py.format_05d idx +:+ ".json".

(** The artifacts of the consecutive batches [start], [start+1], ... with
    the given contents, as the batch loop names them. *)
Fixpoint batches_from (start : Z) (contents : list (list (string * Sample))) : directory :=
  match contents with
  | [] => []
  | items :: rest => (batch_file_name start, Some items) :: batches_from (start + 1) rest
  end.

(** A directory of completed batches 0..k, k+1 being [length contents]. *)
Definition completed_batches (contents : list (list (string * Sample))) : directory :=
  batches_from 0 contents.

(** The resume point in the words of the data model's invariant: one past
    the highest batch index for which an artifact file exists and parses
    successfully, 0 without such a file. *)
Definition spec_next_batch_index (dir : directory) : Z :=
  match (λ f : indexed_file, f.1) <$> indexed (filter valid dir) with
  | [] => 0
  | i :: rest => foldr Z.max i rest + 1
  end.

(** *** Sample directories *)

Definition sample_of (resp : list string) : Sample :=
  {| messages := [{| role := "user"; content := "q" |}];
     question := "q"; ground_truth := JStr "42"; source := "math";
     responses := resp; extra_info := [];
     detailed_scores := None; scores := None; pass_rate := None |}.

Definition two_batches : list (list (string * Sample)) :=
  [ [("0", sample_of ["a"; "b"]); ("1", sample_of ["c"; "d"])];
    [("0", sample_of ["e"; "f"])] ].

(** Batches 0 and 1 listed in reverse order, next to unrelated files. *)
Definition dir_complete : directory :=
  [ ("final_results.json", None);
    ("batch_00001.json", Some [("0", sample_of ["e"; "f"])]);
    ("checkpoint.pkl", None);
    ("batch_00000.json", Some [("0", sample_of ["a"; "b"]); ("1", sample_of ["c"; "d"])]) ].

(** Batch 0 complete, batch 1 cut short while it was written. *)
Definition dir_truncated : directory :=
  [ ("batch_00000.json", Some [("0", sample_of ["a"; "b"])]);
    ("batch_00001.json", None) ].

(** A valid batch 0, a truncated batch 0 under another spelling and a
    name with no number. *)
Definition dir_mixed : directory :=
  [ ("batch_tmp.json", Some []);
    ("batch_0.json", None);
    ("batch_00001.json", Some [("0", sample_of ["e"])]);
    ("batch_00000.json", Some [("0", sample_of ["a"; "b"])]) ].

End Checkpoint.

(** ** Batch runner *)

Module Runner.
Import Checkpoint.

(** Exceptions that leave [run_inference]; it has no handler of its own
    apart from the [StopIteration] of the skip loop. *)
Inductive py_exn :=
| RuntimeError (msg : string)
| IndexError
| CollaboratorError (msg : string).

(** A collated batch: one column per kept dataset field.  The template
    flag column is optional, [batch_dict.get] supplies the default. *)
Record BatchDict := {
  prompt : list (list Message);
  data_source : list string;
  reward_model_ground_truth : list json;
  extra_info_columns : list (string * list json);
  apply_chat_template : option (list bool);
}.

Inductive event :=
| Print (m : console_msg)
| CheckpointExceedsDataset (start : Z)
| Generating (idx : Z) (batch_size : nat)
| Chat (idx : Z) (prompts : list (list Message))
| SavedBatch (file : string)
| InferenceCompleted.

Record run := {
  outcome : option py_exn;
  store : directory;
  results : gmap string Sample;
  trace : list event;
}.

Definition log (e : event) (st : run) : run :=
  {| outcome := outcome st; store := store st; results := results st;
     trace := trace st ++ [e] |}.

Definition raise (e : py_exn) (st : run) : run :=
  {| outcome := Some e; store := store st; results := results st;
     trace := trace st |}.

Definition template_error : string :=
  "Encountered apply_chat_template=False but raw_prompt column is removed. "
  +:+ "Please ensure all samples set apply_chat_template=True.".

(** Line 207: the first user message, or the sentinel. *)
Definition first_user_content (msgs : list Message) : string :=
  match filter (λ m, role m = "user") msgs with
  | m :: _ => content m
  | [] => "No question found"
  end.

(** Lines 200-217 for one index; [None] stands for the [IndexError] of a
    column shorter than the outputs. *)
Definition process_output (bd : BatchDict) (i : nat) (texts : list string)
    : option Sample :=
  ds ← data_source bd !! i;
  gt ← reward_model_ground_truth bd !! i;
  msgs ← prompt bd !! i;
  extra ← mapM (λ kc : string * list json, (λ v, (kc.1, v)) <$> kc.2 !! i)
                (extra_info_columns bd);
  Some {| messages := msgs; question := first_user_content msgs;
          ground_truth := gt; source := ds; responses := texts;
          extra_info := extra;
          detailed_scores := None; scores := None; pass_rate := None |}.

(** [process_batch_outputs]: the samples of the batch in index order. *)
Definition process_batch_outputs (outputs : list (list string)) (bd : BatchDict)
    : option (list Sample) :=
  mapM (λ it : nat * list string, process_output bd it.1 it.2)
       (zip (seq 0 (length outputs)) outputs).

(** What [json.dump(batch_results)] leaves on disk: the integer keys become
    their decimal strings. *)
Definition artifact (batch_results : list Sample) : list (string * Sample) :=
  imap (λ i r, (Py.str_of_int (Z.of_nat i), r)) batch_results.

(** Lines 276-282: step the iterator past the completed batches; the flag
    says that [StopIteration] was met, which prints a warning and breaks. *)
Fixpoint skip_batches (n : nat) (it : list BatchDict) : list BatchDict * bool :=
  match n with
  | O => (it, false)
  | S n' =>
      match it with
      | [] => ([], true)
      | _ :: it' => skip_batches n' it'
      end
  end.

Section WithGeneration.

(** The generation collaborator [self.model.chat]: the completions of each
    prompt, or the exception it raises. *)
Variable chat : list (list Message) → py_exn + list (list string).

(** Lines 284-315. *)
Fixpoint batch_loop (idx : Z) (it : list BatchDict) (st : run) : run :=
  match it with
  | [] => st
  | bd :: rest =>
      let batch_size := length (reward_model_ground_truth bd) in
      let st := log (Generating idx batch_size) st in
      if negb (forallb id (default (replicate batch_size true) (apply_chat_template bd)))
      then raise (RuntimeError template_error) st
      else
        let st := log (Chat idx (prompt bd)) st in
        match chat (prompt bd) with
        | inl e => raise e st
        | inr outputs =>
            match process_batch_outputs outputs bd with
            | None => raise IndexError st
            | Some batch_results =>
                let file := batch_file_name idx in
                let st :=
                  {| outcome := outcome st;
                     store := write_file file (Some (artifact batch_results)) (store st);
                     results := merge_batch idx (artifact batch_results) (results st);
                     trace := trace st ++ [SavedBatch file] |} in
                batch_loop (idx + 1) rest st
            end
        end
  end.

(** [run_inference], lines 244-326, from the resolution of the checkpoint
    on; [dataloader] is the list of batches the data loader yields. *)
Definition run_inference (force_regenerate : bool) (dir : directory)
    (dataloader : list BatchDict) : run :=
  let '(chk, out) := load_checkpoint force_regenerate dir in
  let start := current_batch_idx chk in
  let '(batch_iter, stopped) := skip_batches (Z.to_nat start) dataloader in
  let st :=
    {| outcome := None; store := dir; results := global_results chk;
       trace := (Print <$> out)
                ++ (if stopped then [CheckpointExceedsDataset start] else []) |} in
  let st := batch_loop start batch_iter st in
  match outcome st with
  | None => log InferenceCompleted st
  | Some _ => st
  end.

(** The state the batch loop starts from. *)
Definition initial_run (force : bool) (dir : directory) (dataloader : list BatchDict) : run :=
  let chk := (load_checkpoint force dir).1 in
  {| outcome := None; store := dir; results := global_results chk;
     trace := (Print <$> (load_checkpoint force dir).2)
              ++ (if (skip_batches (Z.to_nat (current_batch_idx chk)) dataloader).2
                  then [CheckpointExceedsDataset (current_batch_idx chk)] else []) |}.

(** The state the batch loop ends in. *)
Definition looped (force : bool) (dir : directory) (dataloader : list BatchDict) : run :=
  let start := current_batch_idx (load_checkpoint force dir).1 in
  batch_loop start (skip_batches (Z.to_nat start) dataloader).1
    (initial_run force dir dataloader).

End WithGeneration.

(** Events of a batch being processed. *)
Definition is_batch_work (e : event) : bool :=
  match e with
  | Generating _ _ | Chat _ _ | SavedBatch _ => true
  | _ => false
  end.

(** *** Sample batches and a sample generation collaborator *)

Definition batch_of (flags : option (list bool)) (qs : list string) : BatchDict :=
  {| prompt := (λ q, [{| role := "user"; content := q |}]) <$> qs;
     data_source := (λ _, "math") <$> qs;
     reward_model_ground_truth := (λ _, JStr "42") <$> qs;
     extra_info_columns := [("split", (λ _, JStr "train") <$> qs)];
     apply_chat_template := flags |}.

Definition echo_chat (prompts : list (list Message)) : py_exn + list (list string) :=
  inr ((λ msgs, [first_user_content msgs; "again"]) <$> prompts).

Definition three_batches : list BatchDict :=
  [ batch_of (Some [true; true]) ["q0"; "q1"];
    batch_of None ["q2"; "q3"];
    batch_of (Some [true]) ["q4"] ].

(** A batch whose second sample was not expanded into chat form. *)
Definition unexpanded_batch : BatchDict :=
  batch_of (Some [true; false]) ["q5"; "q6"].

End Runner.

(** ** Reward pass: one scoring task *)

Module Reward.

(** The part of the exception hierarchy that the handlers of
    [compute_single_reward] tell apart: [TimeoutError], the other
    subclasses of [Exception], and what derives from [BaseException] only
    ([SystemExit], [KeyboardInterrupt]).  [message] is [str(e)]. *)
Inductive exn_class := TimeoutError | OtherException | NotException.

Record exn := { class : exn_class; message : string }.

(** What the scoring collaborator returns: a dict, or any other value,
    which the code only ever passes to [float]; such a value is given by
    what [float] does on it. *)
Inductive score_result :=
| Structured (d : detail)
| Plain (as_float : exn + Q).

Inductive completion :=
| Returns (r : score_result)
| Raises (e : exn).

(** How a call of the collaborator behaves when nothing interrupts it: it
    completes after so many seconds of wall-clock time, or never. *)
Inductive behaviour :=
| Completes (seconds : Z) (c : completion)
| Hangs.

(** What a caller sees of a computation that may raise or never return. *)
Inductive outcome (A : Type) :=
| Done (a : A)
| Raised (e : exn)
| Hung.
Arguments Done {A} a.
Arguments Raised {A} e.
Arguments Hung {A}.

Definition bind {A B} (o : outcome A) (k : A → outcome B) : outcome B :=
  match o with
  | Done a => k a
  | Raised e => Raised e
  | Hung => Hung
  end.

(** The tuple of line 122. *)
Record ScoreTask := {
  gid : Z;
  response : string;
  task_source : string;
  task_ground_truth : json;
  task_extra_info : list (string * json);
}.

(** [d.get(k)] and [d[k] = v] on a dict kept in insertion order. *)
Fixpoint dict_get (k : string) (d : detail) : option json :=
  match d with
  | [] => None
  | (k', v) :: rest => if decide (k' = k) then Some v else dict_get k rest
  end.

Fixpoint dict_set (k : string) (v : json) (d : detail) : detail :=
  match d with
  | [] => [(k, v)]
  | (k', v') :: rest =>
      if decide (k' = k) then (k, v) :: rest else (k', v') :: dict_set k v rest
  end.

(** Lines 219-223 of [main]: the number of worker processes. *)
Definition pool_workers (reward_workers cpu_count : Z) : Z :=
  let avail := if cpu_count =? 0 then 1 else cpu_count in
  let reserved := Z.max 1 (avail / 8) in
  if reward_workers <=? 1 then 1
  else Z.min reward_workers (Z.max 1 (avail - reserved)).

(** The value of the global [_TASK_TIMEOUT] where tasks run.  Lines
    240-249: a pool is built only for more than one worker, and only the
    pool's initializer (line 35) sets the global; without a pool the tasks
    run in the main process (line 132), where it keeps its initial [None]. *)
Definition task_timeout_global (workers task_timeout : Z) : option Z :=
  if 1 <? workers then Some task_timeout else None.

(** Lines 62-64 arm [SIGALRM] with [signal.alarm(_TASK_TIMEOUT)] when the
    global is set; [alarm(0)] arms nothing (line 88 cancels with it), and
    negative values are taken as never firing.  An armed alarm reaches a
    call that is still running after that many seconds.  The seconds are
    taken to fit the C [int] that [signal.alarm] accepts
    ([Signal.alarm_max]); beyond it line 64 raises [OverflowError] before
    the [try], which this function does not describe. *)
Definition alarm_fires (timeout : option Z) (b : behaviour) : bool :=
  match timeout with
  | Some n =>
      (0 <? n) && match b with
                  | Hangs => true
                  | Completes seconds _ => n <? seconds
                  end
  | None => false
  end.

(** Line 50: what the handler raises, inside the call being interrupted. *)
Definition hard_timeout : exn :=
  {| class := TimeoutError; message := "Hard task timeout hit" |}.

(** The f-string of line 83; [None] prints as [None]. *)
Definition timeout_marker (timeout : option Z) : string :=
  "task_timeout>"
  +:+ match timeout with
      | Some n => Py.str_of_int n
      | None => "None"
      end
  +:+ "s".

Definition zero_score (error : string) : detail :=
  [("score", JNum 0); ("error", JStr error)].

(** Lines 66-80, given how the call of lines 67-72 completed: the value
    returned or the exception raised inside the [try]. *)
Definition try_body (g : Z) (c : completion) : exn + (Z * detail) :=
  match c with
  | Raises e => inl e
  | Returns (Structured d) =>
      let score := default (JNum 0) (dict_get "score" d) in
      inr (g, dict_set "score" score d)
  | Returns (Plain (inl e)) => inl e
  | Returns (Plain (inr x)) =>
      inr (g, dict_set "score" (JNum x) [("score", JNum x)])
  end.

(** Lines 82-85: the two handlers; anything else propagates. *)
Definition handlers (timeout : option Z) (g : Z) (e : exn) : outcome (Z * detail) :=
  match class e with
  | TimeoutError => Done (g, zero_score (timeout_marker timeout))
  | OtherException => Done (g, zero_score (message e))
  | NotException => Raised e
  end.

Section WithScoring.

(** The scoring collaborator [_default_compute_score(data_source,
    solution_str, ground_truth, extra_info)]. *)
Variable default_compute_score :
  string → string → json → list (string * json) → behaviour.

(** The call of lines 67-72 for a task. *)
Definition call (t : ScoreTask) : behaviour :=
  default_compute_score (task_source t) (response t)
    (task_ground_truth t) (task_extra_info t).

(** [compute_single_reward], lines 53-88, run where the global
    [_TASK_TIMEOUT] has the value [timeout]. *)
Definition compute_single_reward (timeout : option Z) (t : ScoreTask)
    : outcome (Z * detail) :=
  let b := call t in
  if alarm_fires timeout b then handlers timeout (gid t) hard_timeout
  else
    match b with
    | Hangs => Hung
    | Completes _ c =>
        match try_body (gid t) c with
        | inl e => handlers timeout (gid t) e
        | inr r => Done r
        end
    end.

(** [map(compute_single_reward, tasks)] consumed to the end (line 132 with
    the loop of line 145): the results in task order, unless a task raises
    or never returns. *)
Fixpoint map_rewards (timeout : option Z) (tasks : list ScoreTask)
    : outcome (list (Z * detail)) :=
  match tasks with
  | [] => Done []
  | t :: rest =>
      bind (compute_single_reward timeout t) (λ r,
      bind (map_rewards timeout rest) (λ rs, Done (r :: rs)))
  end.

(** *** Aggregation per batch *)

(** The options of [main] that the scoring code reads. *)
Record Args := {
  debug : bool;
  recalculate_rewards : bool;
  correct_reward_threshold : Q;
  reward_workers : Z;
  task_timeout : Z;
  join_timeout : Z;
}.

(** The rest of [s] after the first occurrence of [marker]. *)
Fixpoint after_marker (marker s : string) : option string :=
  match Py.strip_prefix marker s with
  | Some rest => Some rest
  | None =>
      match s with
      | String _ r => after_marker marker r
      | EmptyString => None
      end
  end.

(** Line 121. *)
Definition strip_reasoning (raw_resp : string) : string :=
  default raw_resp (after_marker "</think>" raw_resp).

(** [sample.get("scores")] is truthy: a non-empty list. *)
Definition has_scores (sample : Sample) : bool :=
  match scores sample with
  | Some (_ :: _) => true
  | _ => false
  end.

(** Line 113 and the keys of lines 117 and 164. *)
Definition rank_key (batch_name s_idx : string) : string :=
  batch_name +:+ "_" +:+ s_idx.

Record collected := {
  tasks : list ScoreTask;
  lookup : gmap Z string;
  next_gid : Z;
  rank_results : gmap string Sample;
}.

(** The tuple appended at line 122 for one response. *)
Definition task_for (g : Z) (sample : Sample) (raw_resp : string) : ScoreTask :=
  {| gid := g;
     response := strip_reasoning raw_resp;
     task_source := source sample;
     task_ground_truth := ground_truth sample;
     task_extra_info := extra_info sample |}.

(** Lines 120-124 for one sample. *)
Definition add_tasks (s_idx : string) (sample : Sample) (c : collected) : collected :=
  foldl (λ c raw_resp,
           {| tasks := tasks c ++ [task_for (next_gid c) sample raw_resp];
              lookup := <[next_gid c := s_idx]> (lookup c);
              next_gid := next_gid c + 1;
              rank_results := rank_results c |})
        c (responses sample).

(** The test of line 116: the sample is passed through as it is. *)
Definition skipped (args : Args) (sample : Sample) : bool :=
  negb (recalculate_rewards args) && has_scores sample.

(** Lines 115-124. *)
Definition collect_tasks (args : Args) (batch_name : string)
    (batch : list (string * Sample)) (results : gmap string Sample) : collected :=
  foldl (λ c it,
           if skipped args it.2
           then {| tasks := tasks c; lookup := lookup c; next_gid := next_gid c;
                   rank_results := <[rank_key batch_name it.1 := it.2]> (rank_results c) |}
           else add_tasks it.1 it.2 c)
        {| tasks := []; lookup := ∅; next_gid := 0; rank_results := results |}
        batch.

Definition key_error : exn := {| class := OtherException; message := "KeyError" |}.
Definition type_error : exn := {| class := OtherException; message := "TypeError" |}.

(** Lines 144-148: route each result to its sample, in the order the
    results arrive. *)
Fixpoint route (lookup : gmap Z string) (yielded : list (Z * detail))
    (by_sample : gmap string (list detail)) : outcome (gmap string (list detail)) :=
  match yielded with
  | [] => Done by_sample
  | (gidx, detailed) :: rest =>
      match lookup !! gidx with
      | Some s_idx =>
          route lookup rest
            (<[s_idx := default [] (by_sample !! s_idx) ++ [detailed]]> by_sample)
      | None => Raised key_error
      end
  end.

(** [s >= threshold] for a score read back from a detail. *)
Definition passes (threshold : Q) (s : json) : option bool :=
  match s with
  | JNum x => Some (Qle_bool threshold x)
  | JBool b => Some (Qle_bool threshold (if b then 1 else 0))
  | _ => None
  end.

(** [pass_cnt / len(scores) if scores else 0.0]. *)
Definition rate (pass_cnt total : nat) : Q :=
  match total with
  | O => 0
  | S _ => Qred (Z.of_nat pass_cnt # Pos.of_nat total)
  end.

(** [sum(s >= threshold for s in scores)] when every comparison is
    defined. *)
Definition pass_count (threshold : Q) (score_list : list json) : nat :=
  length (filter (λ s, passes threshold s = Some true) score_list).

(** Lines 154-163 for one sample. *)
Definition write_back (threshold : Q) (sample : Sample) (detailed_list : list detail)
    : outcome Sample :=
  match mapM (dict_get "score") detailed_list with
  | None => Raised key_error
  | Some score_list =>
      match mapM (passes threshold) score_list with
      | None => Raised type_error
      | Some flags =>
          let pass_cnt := length (filter (λ b, b = true) flags) in
          Done {| messages := messages sample; question := question sample;
                  ground_truth := ground_truth sample; source := source sample;
                  responses := responses sample; extra_info := extra_info sample;
                  detailed_scores := Some detailed_list;
                  scores := Some score_list;
                  pass_rate := Some (rate pass_cnt (length score_list)) |}
      end
  end.

(** Lines 151-164: the batch with the scored samples updated in place,
    and the rank results. *)
Fixpoint write_back_all (threshold : Q) (batch_name : string)
    (by_sample : gmap string (list detail)) (batch : list (string * Sample))
    (results : gmap string Sample)
    : outcome (list (string * Sample) * gmap string Sample) :=
  match batch with
  | [] => Done ([], results)
  | (s_idx, sample) :: rest =>
      match by_sample !! s_idx with
      | None =>
          bind (write_back_all threshold batch_name by_sample rest results)
               (λ r, Done ((s_idx, sample) :: r.1, r.2))
      | Some detailed_list =>
          bind (write_back threshold sample detailed_list) (λ sample',
          bind (write_back_all threshold batch_name by_sample rest
                  (<[rank_key batch_name s_idx := sample']> results))
               (λ r, Done ((s_idx, sample') :: r.1, r.2)))
      end
  end.

(** The order in which [imap_unordered] hands back the results of a
    batch: any rearrangement of them. *)
Variable completion_order : list (Z * detail) → list (Z * detail).

(** Lines 129-133.  With a pool every task runs in a worker, where the
    global holds the configured timeout, and the results arrive in
    completion order; a task whose result never reaches the parent (the
    worker hangs or is brought down by what it raises) leaves the loop of
    line 145 waiting.  Without a pool the tasks run one after the other in
    the main process. *)
Definition results_iter (args : Args) (pool : bool) (ts : list ScoreTask)
    : outcome (list (Z * detail)) :=
  if pool then
    match map_rewards (Some (task_timeout args)) ts with
    | Done rs => Done (completion_order rs)
    | _ => Hung
    end
  else map_rewards None ts.

(** Lines 112-166 for one batch: the batch as it is written back at line
    168, the rank results, and the number of tasks. *)
Definition score_batch (args : Args) (pool : bool) (batch_name : string)
    (batch : list (string * Sample)) (results : gmap string Sample)
    : outcome (list (string * Sample) * gmap string Sample * nat) :=
  let c := collect_tasks args batch_name batch results in
  match tasks c with
  | [] => Done (batch, rank_results c, 0%nat)
  | _ =>
      bind (results_iter args pool (tasks c)) (λ yielded,
      bind (route (lookup c) yielded ∅) (λ by_sample,
      bind (write_back_all (correct_reward_threshold args) batch_name by_sample
              batch (rank_results c))
           (λ r, Done (r.1, r.2, length (tasks c)))))
  end.

(** *** Per-rank scoring and the final summary *)

Record Metrics := {
  total_time : Q;
  num_responses : nat;
  avg_reward_time : Q;
}.

(** The object dumped to [final_results.json], lines 174-187. *)
Record FinalSummary := {
  summary_results : gmap string Sample;
  summary_errors : list (string * json);
  metrics : Metrics;
}.

Inductive report :=
| NoBatchFiles
| AlreadyScored (batch_name : string)
| SavedSummary
| NoRankDirs
| ForcingTerminate
| FinishedScoring.

(** The state of the loop of line 108. *)
Record rank_state := {
  files : directory;
  rank_total : gmap string Sample;
  total_responses : nat;
  printed : list report;
}.

Fixpoint dir_lookup (name : string) (dir : directory) : option batch_file :=
  match dir with
  | [] => None
  | (n, d) :: rest => if decide (n = name) then Some d else dir_lookup name rest
  end.

Definition file_not_found : exn := {| class := OtherException; message := "FileNotFoundError" |}.
Definition json_decode_error : exn := {| class := OtherException; message := "JSONDecodeError" |}.

(** Lines 95-99: the one fixed name in debug mode, else the listed batch
    files in the order of their names. *)
Definition batch_files (args : Args) (dir : directory) : list string :=
  if debug args then ["batch_00000.json"]
  else merge_sort String.le (filter (λ n, Checkpoint.glob_batch n = true) dir.*1).

(** Lines 108-169, one iteration. *)
Definition score_file (args : Args) (pool : bool) (st : rank_state) (batch_name : string)
    : outcome rank_state :=
  match dir_lookup batch_name (files st) with
  | None => Raised file_not_found
  | Some None => Raised json_decode_error
  | Some (Some batch) =>
      bind (score_batch args pool batch_name batch (rank_total st)) (λ r,
        Done {| files := write_file batch_name (Some r.1.1) (files st);
                rank_total := r.1.2;
                total_responses := (total_responses st + r.2)%nat;
                printed := printed st
                           ++ match r.2 with
                              | O => [AlreadyScored batch_name]
                              | S _ => []
                              end |})
  end.

Fixpoint score_files (args : Args) (pool : bool) (names : list string) (st : rank_state)
    : outcome rank_state :=
  match names with
  | [] => Done st
  | n :: rest => bind (score_file args pool st n) (score_files args pool rest)
  end.

Record rank_output := {
  files_after : directory;
  final_results : option FinalSummary;
  rank_printed : list report;
  elapsed_returned : Q;
}.

(** [score_rank_dir], lines 94-189; [elapsed] is the wall-clock time that
    line 171 measures. *)
Definition score_rank_dir (args : Args) (pool : bool) (dir : directory) (elapsed : Q)
    : outcome rank_output :=
  match batch_files args dir with
  | [] => Done {| files_after := dir; final_results := None;
                  rank_printed := [NoBatchFiles]; elapsed_returned := 0 |}
  | names =>
      bind (score_files args pool names
              {| files := dir; rank_total := ∅; total_responses := 0; printed := [] |})
        (λ st,
           Done {| files_after := files st;
                   final_results :=
                     Some {| summary_results := rank_total st;
                             summary_errors := [];
                             metrics :=
                               {| total_time := elapsed;
                                  num_responses := total_responses st;
                                  avg_reward_time :=
                                    Qred (elapsed
                                          / inject_Z (Z.of_nat (Nat.max 1 (total_responses st)))) |} |};
                   rank_printed := printed st ++ [SavedSummary];
                   elapsed_returned := elapsed |})
  end.

(** *** The whole pass *)

Record pass := {
  summaries : list (string * FinalSummary);
  console : list report;
  terminated : bool;
  ended : outcome Q;
}.

(** The loop of lines 253-254 over the sorted rank directories: the
    summaries written so far, what was printed, and the total or how the
    loop was left. *)
Fixpoint score_ranks (args : Args) (pool : bool) (elapsed_of : string → Q)
    (rank_dirs : list (string * directory)) (total : Q)
    : list (string * FinalSummary) * list report * outcome Q :=
  match rank_dirs with
  | [] => ([], [], Done total)
  | (rd, dir) :: rest =>
      match score_rank_dir args pool dir (elapsed_of rd) with
      | Done out =>
          let '(written, msgs, res) :=
            score_ranks args pool elapsed_of rest (total + elapsed_returned out) in
          (match final_results out with
           | Some fs => (rd, fs) :: written
           | None => written
           end,
           rank_printed out ++ msgs, res)
      | Raised e => ([], [], Raised e)
      | Hung => ([], [], Hung)
      end
  end.

(** [main], lines 219-270.  [cpu_count] is what [cpu_count()] returns (0
    for none), [rank_dirs] the [dp*] directories in sorted order,
    [elapsed_of] the time measured for each, and [alive_at_deadline] says
    whether a pool worker is still alive when the wait of lines 259-261
    is over. *)
Definition main (args : Args) (cpu_count : Z) (rank_dirs : list (string * directory))
    (elapsed_of : string → Q) (alive_at_deadline : bool) : pass :=
  let workers := pool_workers (reward_workers args) cpu_count in
  match rank_dirs with
  | [] => {| summaries := []; console := [NoRankDirs]; terminated := false;
             ended := Done 0%Q |}
  | _ =>
      let pool := 1 <? workers in
      let '(written, msgs, res) := score_ranks args pool elapsed_of rank_dirs 0 in
      match res with
      | Hung => {| summaries := written; console := msgs; terminated := false;
                   ended := Hung |}
      | _ =>
          let forced := pool && alive_at_deadline in
          {| summaries := written;
             console := msgs
                        ++ (if forced then [ForcingTerminate] else [])
                        ++ match res with
                           | Done _ => [FinishedScoring]
                           | _ => []
                           end;
             terminated := forced;
             ended := res |}
      end
  end.

End WithScoring.

(** *** Vocabulary for stating the aggregation's properties *)

(** The responses that get a task, in task order, each with the key and
    the sample it belongs to. *)
Definition plan (args : Args) (batch : list (string * Sample))
    : list (string * Sample * string) :=
  batch ≫= λ it,
    if skipped args it.2 then []
    else (λ raw_resp, (it.1, it.2, raw_resp)) <$> responses it.2.

(** What ties the collected tasks to the planned responses: each task is
    the one built for its response, routed to its sample, under a fresh
    id. *)
Definition collected_for (pl : list (string * Sample * string)) (c : collected) : Prop :=
  0 <= next_gid c
  ∧ Forall2 (λ p t, t = task_for (gid t) p.1.2 p.2
                    ∧ lookup c !! gid t = Some p.1.1
                    ∧ 0 <= gid t < next_gid c) pl (tasks c).

(** The details of the results routed to one sample, in arrival order. *)
Definition routed (lookup : gmap Z string) (s_idx : string)
    (yielded : list (Z * detail)) : list detail :=
  omap (λ r : Z * detail,
          if decide (lookup !! r.1 = Some s_idx) then Some r.2 else None) yielded.

(** Where the tasks of a batch run. *)
Definition timeout_for (args : Args) (pool : bool) : option Z :=
  if pool then Some (task_timeout args) else None.

(** *** A sample shard and sample collaborators *)

(** Scores the answer ["right"] with 1.0 and any other with 0.0, in a
    second. *)
Definition exact_match (data_source solution : string) (gt : json)
    (extra : list (string * json)) : behaviour :=
  Completes 1 (Returns (Plain (inr (if decide (solution = "right") then 1%Q else 0%Q)))).


(** Never returns. *)
Definition stuck (data_source solution : string) (gt : json)
    (extra : list (string * json)) : behaviour := Hangs.

Definition two_answers : Sample :=
  Checkpoint.sample_of ["<think>hm</think>right"; "wrong"].

(** Two batches of two samples, two responses each. *)
Definition shard : directory :=
  [ ("batch_00000.json", Some [("0", two_answers); ("1", two_answers)]);
    ("batch_00001.json", Some [("0", two_answers); ("1", two_answers)]) ].

(** [two_answers] after the reward pass, with the scores in the given
    order. *)
Definition scored_answers (score_list : list Q) : Sample :=
  {| messages := messages two_answers; question := question two_answers;
     ground_truth := ground_truth two_answers; source := source two_answers;
     responses := responses two_answers; extra_info := extra_info two_answers;
     detailed_scores := Some ((λ x, [("score", JNum x)]) <$> score_list);
     scores := Some (JNum <$> score_list);
     pass_rate := Some (1 # 2) |}.

Definition scored_shard (score_list : list Q) : directory :=
  [ ("batch_00000.json",
     Some [("0", scored_answers score_list); ("1", scored_answers score_list)]);
    ("batch_00001.json",
     Some [("0", scored_answers score_list); ("1", scored_answers score_list)]) ].

Definition example_args (workers : Z) : Args :=
  {| debug := false; recalculate_rewards := false;
     correct_reward_threshold := 1; reward_workers := workers;
     task_timeout := 35; join_timeout := 30 |}.




Definition a_task : ScoreTask :=
  {| gid := 7; response := "right"; task_source := "math";
     task_ground_truth := JStr "42"; task_extra_info := [] |}.

End Reward.

(** ** Dataset preparation *)

Module Dataset.

(** [dataset.select(range(start, end))] on a dataset held as the list of
    its rows, for [0 <= start] and [end <= len(dataset)], which is what
    [prepare_dataset] passes; the range is empty when [end <= start]. *)
Definition select {A} (dataset : list A) (rg : Z * Z) : list A :=
  take (Z.to_nat (rg.2 - rg.1)) (drop (Z.to_nat rg.1) dataset).

(** Lines 103-118 of [prepare_dataset] on the rows: the debug slice, then
    the split over the data-parallel ranks. *)
Definition prepare_rows {A} (debug : bool) (dp_size dp_rank : Z) (dataset : list A)
    : list A :=
  let dataset :=
    if debug then select dataset (0, Z.min 48 (Z.of_nat (length dataset)))
    else dataset in
  if 1 <? dp_size then
    let total := Z.of_nat (length dataset) in
    let per_rank := total / dp_size in
    let start := dp_rank * per_rank in
    let end_ := if negb (dp_rank =? dp_size - 1) then start + per_rank else total in
    select dataset (start, end_)
  else dataset.

(** Lines 123-133: the columns kept, in their order. *)
Definition required_cols : list string :=
  ["prompt"; "reward_model"; "apply_chat_template"; "data_source"; "extra_info"].

Definition cols_to_drop (column_names : list string) : list string :=
  filter (λ c, c ∉ required_cols) column_names.

Definition remove_columns (drop_ column_names : list string) : list string :=
  filter (λ c, c ∉ drop_) column_names.

Definition kept_columns (column_names : list string) : list string :=
  match cols_to_drop column_names with
  | [] => column_names
  | drop_ => remove_columns drop_ column_names
  end.

End Dataset.

(** ** Output locations *)

Module Paths.

(** One step of [os.path.join] (POSIX): a component that starts with the
    separator replaces what came before; otherwise it is appended, after a
    separator unless the path so far is empty or ends with one. *)
Definition join2 (path b : string) : string :=
  match Py.strip_prefix "/" b with
  | Some _ => b
  | None =>
      if bool_decide (path = EmptyString) || Py.endswith path "/" then path +:+ b
      else path +:+ "/" +:+ b
  end.

(** [os.path.join(a, *p)]. *)
Definition join (a : string) (p : list string) : string := foldl join2 a p.

(** [s.split("/")[-1]], which is also [os.path.basename(s)]: the text
    after the last separator. *)
Definition last_piece (s : string) : string := default EmptyString (last (Py.split "/" s)).

(** [s.rsplit(marker, 1)[0]] when a non-empty [marker] occurs in [s]: the
    text before its last occurrence. *)
Fixpoint before_last (marker s : string) : option string :=
  match s with
  | EmptyString => None
  | String c r =>
      match before_last marker r with
      | Some pre => Some (String c pre)
      | None =>
          match Py.strip_prefix marker s with
          | Some _ => Some EmptyString
          | None => None
          end
      end
  end.

(** Lines 139-140 (and 146-147, 262-263; lines 231-232 of the reward
    script). *)
Definition model_name (model_path : string) : string := last_piece model_path.

Definition dataset_name (dataset_parquet_path : string) : string :=
  let base := last_piece dataset_parquet_path in
  default base (before_last ".parquet" base).

(** Line 233 of the reward script. *)
Definition root_dir (output_dir dataset_parquet_path model_path : string) : string :=
  join output_dir [dataset_name dataset_parquet_path; model_name model_path].

(** Lines 141, 148 and 264-266. *)
Definition rank_output_dir (output_dir dataset_parquet_path model_path : string)
    (dp_rank : Z) : string :=
  join output_dir [dataset_name dataset_parquet_path; model_name model_path;
                   "dp" +:+ Py.str_of_int dp_rank].

(** Line 308. *)
Definition batch_out (output_dir dataset_parquet_path model_path : string)
    (dp_rank idx : Z) : string :=
  join (rank_output_dir output_dir dataset_parquet_path model_path dp_rank)
       [Checkpoint.batch_file_name idx].

End Paths.

(** ** Vocabulary for stating the batch loop's properties *)

Module Batches.
Import Checkpoint Runner.

Section WithGeneration.

Variable chat : list (list Message) → py_exn + list (list string).

(** Lines 289-304 for one batch: the artifact that is written for it, or
    the exception that ends the run. *)
Definition batch_artifact (bd : BatchDict) : py_exn + list (string * Sample) :=
  let batch_size := length (reward_model_ground_truth bd) in
  if negb (forallb id (default (replicate batch_size true) (apply_chat_template bd)))
  then inl (RuntimeError template_error)
  else
    match chat (prompt bd) with
    | inl e => inl e
    | inr outputs =>
        match process_batch_outputs outputs bd with
        | None => inl IndexError
        | Some batch_results => inr (artifact batch_results)
        end
    end.

(** The artifacts of a sequence of batches that are all processed. *)
Definition artifacts (it : list BatchDict) : option (list (list (string * Sample))) :=
  mapM (λ bd, match batch_artifact bd with
              | inr a => Some a
              | inl _ => None
              end) it.

End WithGeneration.

(** What the loop logs for batches processed from index [idx] on. *)
Fixpoint batch_events (idx : Z) (it : list BatchDict) : list event :=
  match it with
  | [] => []
  | bd :: rest =>
      [Generating idx (length (reward_model_ground_truth bd));
       Chat idx (prompt bd);
       SavedBatch (batch_file_name idx)]
      ++ batch_events (idx + 1) rest
  end.

(** The batch an event belongs to. *)
Definition event_batch (e : event) : option Z :=
  match e with
  | Generating idx _ | Chat idx _ => Some idx
  | SavedBatch file => batch_num file
  | _ => None
  end.

(** A generation collaborator that fails on batches of one prompt. *)
Definition flaky_chat (prompts : list (list Message)) : py_exn + list (list string) :=
  if decide (length prompts = 1%nat) then inl (CollaboratorError "CUDA out of memory")
  else echo_chat prompts.

End Batches.

(** ** The rank directory seen through its path *)

Module Located.
Import Checkpoint Runner.

(** The characters of [glob.magic_check]: a path that holds one of them
    is read as a pattern. *)
Definition magic_char (c : ascii) : bool :=
  bool_decide (c = "*"%char) || bool_decide (c = "?"%char) || bool_decide (c = "["%char).

(** [glob.has_magic]. *)
Definition has_magic (s : string) : bool :=
  negb (Py.all_chars (λ c, negb (magic_char c)) s).

(** The files that line 157 hands to the resolver,
    [glob.glob(os.path.join(rank_output_dir, "batch_*.json"))], before the
    test of the base names.  Glob takes the directory part of the pattern
    as it is when it holds no magic character, and lists the rank
    directory; otherwise it expands the directory part as a pattern and
    lists the directories that match it, whose files are [matching] (the
    rank directory is among them only if its path matches itself). *)
Definition listing (rank_output_dir : string) (matching dir : directory) : directory :=
  if has_magic rank_output_dir then matching else dir.

(** [load_checkpoint] for the rank directory at [rank_output_dir]. *)
Definition load_checkpoint_at (rank_output_dir : string) (matching : directory)
    (force_regenerate : bool) (dir : directory) : CheckpointState * list console_msg :=
  load_checkpoint force_regenerate (listing rank_output_dir matching dir).

Section WithGeneration.

Variable chat : list (list Message) → py_exn + list (list string).

(** [run_inference], lines 244-326, for the rank directory at
    [rank_output_dir]: the checkpoint is read through glob (line 157),
    the artifacts are written by path into the rank directory (lines
    308-310). *)
Definition run_inference_at (rank_output_dir : string) (matching : directory)
    (force_regenerate : bool) (dir : directory) (dataloader : list BatchDict) : run :=
  let '(chk, out) := load_checkpoint_at rank_output_dir matching force_regenerate dir in
  let start := current_batch_idx chk in
  let '(batch_iter, stopped) := skip_batches (Z.to_nat start) dataloader in
  let st :=
    {| outcome := None; store := dir; results := global_results chk;
       trace := (Print <$> out)
                ++ (if stopped then [CheckpointExceedsDataset start] else []) |} in
  let st := batch_loop chat start batch_iter st in
  match outcome st with
  | None => log InferenceCompleted st
  | Some _ => st
  end.

End WithGeneration.

End Located.

(** ** Limits of the platform *)

Module Signal.


End Signal.

(** * Properties *)

(** ** Facts about the Python primitives *)

Section PyFacts.
Import Py.

Lemma all_chars_app P s t :
  all_chars P (s +:+ t) = all_chars P s && all_chars P t.
Proof. induction s as [|c s IH]; simpl; [done|]. by rewrite IH, andb_assoc. Qed.

Lemma all_chars_impl (P Q : ascii → bool) s :
  (∀ c, P c = true → Q c = true) → all_chars P s = true → all_chars Q s = true.
Proof.
  intros HPQ. induction s as [|c s IH]; cbn; [done|].
  intros [? ?]%andb_true_iff. apply andb_true_iff. auto.
Qed.

Lemma string_of_uint_digits d : all_chars is_digit (NilEmpty.string_of_uint d) = true.
Proof. induction d; cbn; done. Qed.

Lemma digits_all_digit n : all_chars is_digit (digits n) = true.
Proof. apply string_of_uint_digits. Qed.

Lemma zeros_all_digit k : all_chars is_digit (zeros k) = true.
Proof. induction k; cbn; done. Qed.

Lemma digits_nonempty n : digits n ≠ EmptyString.
Proof.
  unfold digits. destruct n as [|p]; [done|]. cbn.
  pose proof (DecimalPos.Unsigned.to_uint_nonnil p) as Hnil.
  destruct (Pos.to_uint p); done.
Qed.

Lemma uint_of_string_zeros k s :
  NilEmpty.uint_of_string (zeros k +:+ s)
  = Nat.iter k Decimal.D0 <$> NilEmpty.uint_of_string s.
Proof.
  induction k as [|k IH].
  - change (zeros 0 +:+ s) with s. by destruct (NilEmpty.uint_of_string s).
  - change (zeros (S k) +:+ s) with (String "0" (zeros k +:+ s)). simpl.
    rewrite IH. by destruct (NilEmpty.uint_of_string s).
Qed.

Lemma of_uint_iter_D0 k d : N.of_uint (Nat.iter k Decimal.D0 d) = N.of_uint d.
Proof. induction k; cbn; done. Qed.

Lemma digits_value_padded k n : digits_value (zeros k +:+ digits n) = Some (Z.of_N n).
Proof.
  unfold digits_value.
  destruct (zeros k +:+ digits n) eqn:E.
  { destruct k; cbn in E; [|done]. by apply digits_nonempty in E. }
  rewrite <- E, uint_of_string_zeros. unfold digits.
  rewrite NilEmpty.usu. cbn. by rewrite of_uint_iter_D0, DecimalN.Unsigned.of_to.
Qed.

Lemma lstrip_id s : all_chars (λ c, negb (is_space c)) s = true → lstrip s = s.
Proof. destruct s as [|c s]; cbn; [done|]. by destruct (is_space c). Qed.

Lemma rstrip_id s : all_chars (λ c, negb (is_space c)) s = true → rstrip s = s.
Proof.
  induction s as [|c s IH]; cbn; [done|].
  intros [Hc Hs]%andb_true_iff. rewrite IH by done.
  destruct s; [|done]. by destruct (is_space c).
Qed.

Lemma strip_id s : all_chars (λ c, negb (is_space c)) s = true → strip s = s.
Proof. intros H. unfold strip. by rewrite lstrip_id, rstrip_id. Qed.

Lemma split_no_sep sep s :
  all_chars (λ c, bool_decide (c ≠ sep)) s = true → split sep s = [s].
Proof.
  induction s as [|c s IH]; simpl; [done|].
  intros [Hc Hs]%andb_true_iff. apply bool_decide_eq_true in Hc.
  destruct (decide (c = sep)); [done|]. by rewrite IH.
Qed.

Lemma split_app_sep sep s t :
  all_chars (λ c, bool_decide (c ≠ sep)) s = true →
  split sep (s +:+ String sep t) = s :: split sep t.
Proof.
  induction s as [|c s IH]; simpl.
  - intros _. by destruct (decide (sep = sep)).
  - intros [Hc Hs]%andb_true_iff. apply bool_decide_eq_true in Hc.
    destruct (decide (c = sep)); [done|]. by rewrite IH.
Qed.

Lemma signed_plain k z : all_chars plain_char (signed k z) = true.
Proof.
  assert (all_chars plain_char (zeros k +:+ digits (Z.abs_N z)) = true) as H.
  { apply all_chars_impl with is_digit.
    - intros c Hc. unfold plain_char. by rewrite Hc.
    - by rewrite all_chars_app, zeros_all_digit, digits_all_digit. }
  unfold signed. destruct (z <? 0); cbn; by rewrite ?H.
Qed.

Lemma plain_char_cases c :
  plain_char c = true →
  is_space c = false ∧ c ≠ "_"%char ∧ c ≠ "."%char ∧ c ≠ "+"%char.
Proof.
  destruct c as [[] [] [] [] [] [] [] []]; cbn; intros H; try done.
Qed.

Lemma int_of_str_signed k z : int_of_str (signed k z) = Some z.
Proof.
  unfold int_of_str. rewrite strip_id.
  2:{ eapply all_chars_impl; [|apply signed_plain].
      intros c Hc. by destruct (plain_char_cases c Hc) as (-> & _). }
  unfold signed. destruct (Z.ltb_spec z 0) as [Hneg|Hpos].
  - rewrite decide_True by done. rewrite digits_value_padded. cbn. f_equal. lia.
  - pose proof (digits_value_padded k (Z.abs_N z)) as Hv.
    pose proof (zeros_all_digit k) as Hz.
    pose proof (digits_all_digit (Z.abs_N z)) as Hd.
    destruct (zeros k +:+ digits (Z.abs_N z)) as [|c r] eqn:E.
    { by cbn in Hv. }
    assert (is_digit c = true) as Hc.
    { assert (all_chars is_digit (String c r) = true) as Hall
        by (by rewrite <- E, all_chars_app, Hz, Hd).
      cbn in Hall. by apply andb_true_iff in Hall as [? _]. }
    rewrite decide_False, decide_False, Hv.
    + f_equal. lia.
    + intros ->. done.
    + intros ->. done.
Qed.

Lemma str_of_int_signed z : str_of_int z = signed 0 z.
Proof. done. Qed.

Lemma format_05d_signed z : ∃ k, format_05d z = signed k z.
Proof. unfold format_05d, signed. destruct (z <? 0); eauto. Qed.

Lemma int_of_str_of_int z : int_of_str (str_of_int z) = Some z.
Proof. rewrite str_of_int_signed. apply int_of_str_signed. Qed.

#[global] Instance str_of_int_inj : Inj (=) (=) str_of_int.
Proof.
  intros x y E. apply (f_equal int_of_str) in E.
  rewrite !int_of_str_of_int in E. congruence.
Qed.

Lemma endswith_unfold s suf :
  endswith s suf
  = if decide (s = suf) then true
    else match s with String _ r => endswith r suf | EmptyString => false end.
Proof. by destruct s. Qed.

Lemma endswith_app s suf : endswith (s +:+ suf) suf = true.
Proof.
  induction s as [|c s IH]; rewrite endswith_unfold.
  - change (EmptyString +:+ suf) with suf. by rewrite decide_True.
  - change (String c s +:+ suf) with (String c (s +:+ suf)). by case_decide.
Qed.

Lemma app_sep_inj sep s s' t t' :
  all_chars (λ c, bool_decide (c ≠ sep)) s = true →
  all_chars (λ c, bool_decide (c ≠ sep)) s' = true →
  s +:+ String sep t = s' +:+ String sep t' → s = s' ∧ t = t'.
Proof.
  revert s'. induction s as [|c s IH]; intros [|c' s']; simpl.
  - intros _ _ [= ->]. done.
  - intros _ [Hc _]%andb_true_iff [= <- _]. by apply bool_decide_eq_true in Hc.
  - intros [Hc _]%andb_true_iff _ [= -> _]. by apply bool_decide_eq_true in Hc.
  - intros [_ Hs]%andb_true_iff [_ Hs']%andb_true_iff [= -> E].
    destruct (IH s' Hs Hs' E) as [-> ->]. done.
Qed.

Lemma signed_no_char k z (sep : ascii) :
  plain_char sep = false →
  all_chars (λ c, bool_decide (c ≠ sep)) (signed k z) = true.
Proof.
  intros Hsep. eapply all_chars_impl; [|apply signed_plain].
  intros c Hc. apply bool_decide_eq_true. intros ->. congruence.
Qed.

End PyFacts.

(** ** Facts about the shard partitioner *)

Section ShardFacts.
Import Shard.

Lemma per_rank_bounds (T S : Z) :
  0 <= T → 1 <= S → 0 <= T / S ∧ (S - 1) * (T / S) <= T.
Proof.
  intros HT HS.
  assert (0 <= T / S) by (apply Z.div_pos; lia).
  assert (S * (T / S) <= T) by (apply Z.mul_div_le; lia).
  split; [done | nia].
Qed.

Lemma shard_range_eq (T S r : Z) :
  1 <= S → 0 <= r < S →
  shard_range T S r = (r * (T / S), if decide (r = S - 1) then T else (r + 1) * (T / S)).
Proof.
  intros HS Hr. unfold shard_range.
  destruct (Z.ltb_spec 1 S) as [H1|H1].
  - cbn zeta. destruct (Z.eqb_spec r (S - 1)); case_decide; try lia; cbn; f_equal; lia.
  - assert (S = 1) as -> by lia. rewrite Z.div_1_r.
    assert (r = 0) as -> by lia. rewrite decide_True by lia. f_equal; lia.
Qed.

(** C1: for T >= 0 samples, S >= 1 shards and every rank r in 0..S-1 the
    partitioner returns [r*(T//S), (r+1)*(T//S)), except that the last rank
    gets [r*(T//S), T); every range is well formed, the first starts at 0,
    the last ends at T, consecutive ranges are contiguous, ranges of
    different ranks are disjoint, their union is exactly [0, T), and with
    S = 1 the range is [0, T). *)
Theorem shard_ranges_partition (T S : Z) :
  0 <= T → 1 <= S →
  (∀ r, 0 <= r < S →
     shard_range T S r
     = (r * (T / S), if decide (r = S - 1) then T else (r + 1) * (T / S)))
  ∧ (∀ r, 0 <= r < S → (shard_range T S r).1 <= (shard_range T S r).2)
  ∧ (shard_range T S 0).1 = 0
  ∧ (shard_range T S (S - 1)).2 = T
  ∧ (∀ r, 0 <= r < S - 1 → (shard_range T S r).2 = (shard_range T S (r + 1)).1)
  ∧ (∀ r1 r2 i, 0 <= r1 < S → 0 <= r2 < S →
       in_range (shard_range T S r1) i → in_range (shard_range T S r2) i → r1 = r2)
  ∧ (∀ i, 0 <= i < T ↔ ∃ r, 0 <= r < S ∧ in_range (shard_range T S r) i)
  ∧ (S = 1 → shard_range T S 0 = (0, T)).
Proof.
  intros HT HS.
  destruct (per_rank_bounds T S HT HS) as [Hp Hlast].
  set (p := T / S) in *.
  assert (Hlt : T < S * p + S).
  { pose proof (Z.mod_pos_bound T S ltac:(lia)).
    pose proof (Z.div_mod T S ltac:(lia)). subst p. lia. }
  repeat split.
  - intros r Hr. by apply shard_range_eq.
  - intros r Hr. rewrite shard_range_eq by lia. cbn. case_decide; subst; nia.
  - rewrite shard_range_eq by lia. cbn. lia.
  - rewrite shard_range_eq by lia. cbn. by rewrite decide_True.
  - intros r Hr. rewrite !shard_range_eq by lia. cbn.
    rewrite decide_False by lia. done.
  - intros r1 r2 i Hr1 Hr2. unfold in_range. rewrite !shard_range_eq by lia. cbn.
    fold p. intros H1 H2.
    destruct (decide (r1 = S - 1)), (decide (r2 = S - 1)); subst; try lia; nia.
  - intros Hi.
    destruct (decide (i < (S - 1) * p)) as [Hlow|Hhigh].
    + assert (0 < p) by nia.
      exists (i / p).
      assert (0 <= i / p) by (apply Z.div_pos; lia).
      assert (i / p < S - 1) by (apply Z.div_lt_upper_bound; lia).
      split; [lia|]. unfold in_range. rewrite shard_range_eq by lia. cbn. fold p.
      rewrite decide_False by lia.
      pose proof (Z.mod_pos_bound i p ltac:(lia)).
      pose proof (Z.div_mod i p ltac:(lia)). nia.
    + exists (S - 1). split; [lia|]. unfold in_range.
      rewrite shard_range_eq by lia. cbn. fold p. rewrite decide_True by done. lia.
  - destruct H as (r & Hr & Hin). unfold in_range in Hin.
    rewrite shard_range_eq in Hin by lia. cbn in Hin. fold p in Hin.
    destruct (decide (r = S - 1)); nia.
  - destruct H as (r & Hr & Hin). unfold in_range in Hin.
    rewrite shard_range_eq in Hin by lia. cbn in Hin. fold p in Hin.
    destruct (decide (r = S - 1)); [lia | nia].
  - intros ->. unfold shard_range. done.
Qed.

Lemma shard_ranges_partition_witness :
  (0 <= 10 ∧ 1 <= 3)
  ∧ shard_range 10 3 2 = (6, 10)
  ∧ (∀ i, 0 <= i < 10 ↔ ∃ r, 0 <= r < 3 ∧ in_range (shard_range 10 3 r) i).
Proof.
  split; [lia|].
  destruct (shard_ranges_partition 10 3) as (_ & _ & _ & _ & _ & _ & Hcover & _);
    [lia | lia |].
  split; [reflexivity | exact Hcover].
Defined.

End ShardFacts.

(** ** Facts about the checkpoint resolver *)

Section CheckpointFacts.
Import Py Checkpoint.

Lemma batch_num_batch_file_name z : batch_num (batch_file_name z) = Some z.
Proof.
  unfold batch_num, batch_file_name.
  destruct (format_05d_signed z) as [k ->].
  change ("batch_" +:+ signed k z +:+ ".json")
    with ("batch" +:+ String "_" (signed k z +:+ String "." "json")).
  rewrite split_app_sep by done.
  rewrite (split_no_sep "_").
  2:{ rewrite all_chars_app, signed_no_char by done. done. }
  simpl. rewrite split_app_sep by (by apply signed_no_char).
  simpl. apply int_of_str_signed.
Qed.

Lemma glob_batch_batch_file_name z : glob_batch (batch_file_name z) = true.
Proof.
  unfold glob_batch, batch_file_name.
  change (strip_prefix "batch_" ("batch_" +:+ format_05d z +:+ ".json"))
    with (Some (format_05d z +:+ ".json")).
  apply endswith_app.
Qed.

#[global] Instance batch_file_name_inj : Inj (=) (=) batch_file_name.
Proof.
  intros x y E. apply (f_equal batch_num) in E.
  rewrite !batch_num_batch_file_name in E. congruence.
Qed.

Lemma result_key_inj b b' i i' :
  result_key b i = result_key b' i' → b = b' ∧ i = i'.
Proof.
  unfold result_key.
  change (?s +:+ "_" +:+ ?t) with (s +:+ String "_" t).
  intros E. apply app_sep_inj in E as [E ->]; try by apply (signed_no_char 0).
  split; [|done]. by apply (inj str_of_int).
Qed.

(** *** The two loops as list functions *)

Lemma foldl_parse_step acc out files :
  foldl parse_step (acc, out) files
  = (acc ++ indexed files, out ++ parse_warnings files).
Proof.
  revert acc out. induction files as [|bf files IH]; intros acc out; simpl.
  - by rewrite !app_nil_r.
  - unfold parse_step at 2. unfold indexed, parse_warnings. simpl.
    destruct (batch_num bf.1) as [n|]; simpl; rewrite IH; simpl;
      by rewrite <- ?app_assoc.
Qed.

Lemma foldl_load_step m out l :
  foldl load_step (m, out) l = (load_results l m, out ++ load_messages l).
Proof.
  revert m out. induction l as [|f l IH]; intros m out.
  - simpl. by rewrite app_nil_r.
  - change (foldl load_step (m, out) (f :: l))
      with (foldl load_step (load_step (m, out) f) l).
    destruct f as [n [name [items|]]]; unfold load_step; simpl; rewrite IH;
      by rewrite <- app_assoc.
Qed.

Lemma load_checkpoint_state dir :
  (load_checkpoint false dir).1
  = {| current_batch_idx := start_batch_idx (resolved dir);
       global_results := load_results (resolved dir) ∅;
       global_errors := ∅ |}.
Proof.
  unfold load_checkpoint, resolved.
  rewrite foldl_parse_step. simpl.
  rewrite foldl_load_step. done.
Qed.

Lemma load_checkpoint_console dir :
  ∃ pre post,
    (load_checkpoint false dir).2
    = parse_warnings (filter (λ f, glob_batch f.1 = true) dir)
      ++ pre ++ load_messages (resolved dir) ++ post.
Proof.
  unfold load_checkpoint, resolved.
  rewrite foldl_parse_step. simpl.
  rewrite foldl_load_step. simpl.
  destruct (sort_by_idx _) as [|f l]; simpl.
  - by exists [], [].
  - eexists [_], [_]. by rewrite <- !app_assoc.
Qed.

(** *** The stable sort by batch number *)

Lemma insert_by_idx_perm x l : insert_by_idx x l ≡ₚ x :: l.
Proof.
  induction l as [|y l IH]; simpl; [done|].
  destruct (x.1 <=? y.1); [done|]. rewrite IH. apply perm_swap.
Qed.

Lemma sort_by_idx_perm l : sort_by_idx l ≡ₚ l.
Proof.
  induction l as [|x l IH]; simpl; [done|].
  rewrite insert_by_idx_perm. by rewrite IH.
Qed.

Lemma insert_by_idx_sorted x l :
  StronglySorted idx_le l → StronglySorted idx_le (insert_by_idx x l).
Proof.
  induction 1 as [|y l Hl IH Hy]; simpl.
  - repeat constructor.
  - destruct (Z.leb_spec x.1 y.1) as [Hle|Hgt].
    + constructor; [by constructor|]. constructor; [done|].
      eapply Forall_impl; [exact Hy|]. unfold idx_le. intros; simpl in *; lia.
    + constructor; [done|]. rewrite insert_by_idx_perm.
      constructor; [unfold idx_le; lia | done].
Qed.

Lemma sort_by_idx_sorted l : StronglySorted idx_le (sort_by_idx l).
Proof.
  induction l as [|x l IH]; simpl; [constructor|]. by apply insert_by_idx_sorted.
Qed.

Lemma last_sorted_max l z :
  StronglySorted idx_le l → last l = Some z → Forall (λ y, idx_le y z) l.
Proof.
  induction 1 as [|y l Hl IH Hy]; [done|].
  destruct l as [|y' l'].
  - intros [= ->]. repeat constructor. unfold idx_le. lia.
  - intros Hlast. change (last (y :: y' :: l')) with (last (y' :: l')) in Hlast.
    constructor; [|by apply IH].
    rewrite Forall_forall in Hy. apply Hy. by eapply last_Some_elem_of.
Qed.

(** The resolved index is 0 when no listed name yields a number, and
    otherwise one past a number that some listed file has and none exceeds. *)
Lemma start_batch_idx_spec (l : list indexed_file) n :
  start_batch_idx (sort_by_idx l) = n ↔
  (l = [] ∧ n = 0) ∨ ((∃ f, f ∈ l ∧ f.1 = n - 1) ∧ ∀ g, g ∈ l → g.1 <= n - 1).
Proof.
  unfold start_batch_idx.
  destruct (last (sort_by_idx l)) as [z|] eqn:Hlast.
  - pose proof (last_sorted_max _ _ (sort_by_idx_sorted l) Hlast) as Hmax.
    rewrite Forall_forall in Hmax.
    assert (z ∈ l) as Hz
      by (rewrite <- (sort_by_idx_perm l); by eapply last_Some_elem_of).
    split.
    + intros <-. right. split.
      * exists z. split; [done | lia].
      * intros g Hg. rewrite <- (sort_by_idx_perm l) in Hg.
        specialize (Hmax g Hg). unfold idx_le in Hmax. lia.
    + intros [[-> _]|[(f & Hf & Hfn) Hle]]; [by apply elem_of_nil in Hz|].
      rewrite <- (sort_by_idx_perm l) in Hf.
      specialize (Hmax f Hf). specialize (Hle z Hz). unfold idx_le in Hmax. lia.
  - apply last_None in Hlast.
    assert (l = []) as ->.
    { apply Permutation_nil_r. by rewrite <- Hlast, sort_by_idx_perm. }
    split.
    + intros <-. by left.
    + intros [[_ ->]|[(f & Hf & _) _]]; [done | by apply elem_of_nil in Hf].
Qed.

Lemma insert_by_idx_least x l :
  Forall (idx_le x) l → insert_by_idx x l = x :: l.
Proof.
  destruct 1 as [|y l Hy _]; simpl; [done|].
  unfold idx_le in Hy. apply Z.leb_le in Hy. by rewrite Hy.
Qed.

Lemma insert_by_idx_filter (P : indexed_file → Prop) `{!∀ x, Decision (P x)} x l :
  StronglySorted idx_le l →
  filter P (insert_by_idx x l)
  = if decide (P x) then insert_by_idx x (filter P l) else filter P l.
Proof.
  induction 1 as [|y l Hl IH Hy]; simpl.
  - rewrite filter_cons, filter_nil. by case_decide.
  - destruct (Z.leb_spec x.1 y.1) as [Hle|Hgt].
    + rewrite (filter_cons _ x). destruct (decide (P x)); [|done].
      symmetry. apply insert_by_idx_least.
      apply Forall_forall. intros g [_ [->|Hg]%elem_of_cons]%list_elem_of_filter.
      * done.
      * rewrite Forall_forall in Hy. specialize (Hy g Hg).
        unfold idx_le in *. lia.
    + rewrite !(filter_cons _ y), IH.
      destruct (decide (P y)), (decide (P x)); try done.
      simpl. destruct (Z.leb_spec x.1 y.1); [lia | done].
Qed.

Lemma sort_by_idx_filter (P : indexed_file → Prop) `{!∀ x, Decision (P x)} l :
  filter P (sort_by_idx l) = sort_by_idx (filter P l).
Proof.
  induction l as [|x l IH]; simpl; [done|].
  rewrite insert_by_idx_filter by apply sort_by_idx_sorted.
  rewrite filter_cons, IH. by case_decide.
Qed.

Lemma insert_by_idx_comm x y l :
  x.1 ≠ y.1 →
  insert_by_idx x (insert_by_idx y l) = insert_by_idx y (insert_by_idx x l).
Proof.
  intros Hne. induction l as [|z l IH]; simpl.
  - destruct (Z.leb_spec x.1 y.1), (Z.leb_spec y.1 x.1); try done; lia.
  - destruct (Z.leb_spec y.1 z.1), (Z.leb_spec x.1 z.1); simpl;
      repeat (match goal with
              | |- context [(?a <=? ?b)] => destruct (Z.leb_spec a b)
              end; simpl); try done; try lia.
    by rewrite IH.
Qed.

(** With pairwise different batch numbers the sorted list does not depend
    on the order of the listing. *)
Lemma sort_by_idx_perm_eq l l' :
  l ≡ₚ l' → NoDup l.*1 → sort_by_idx l = sort_by_idx l'.
Proof.
  induction 1 as [|x l l' Hp IH|x y l|l l' l'' Hp IH Hp' IH']; intros Hnd.
  - done.
  - simpl. rewrite IH; [done|]. rewrite fmap_cons in Hnd. by apply NoDup_cons in Hnd as [_ ?].
  - simpl. apply insert_by_idx_comm.
    rewrite !fmap_cons in Hnd. apply NoDup_cons in Hnd as [Hy _].
    intros E. apply Hy. rewrite E. left.
  - rewrite IH by done. apply IH'. by rewrite <- Hp.
Qed.

(** *** The results map *)

Lemma merge_batch_cons b i r items m :
  merge_batch b ((i, r) :: items) m = merge_batch b items (<[result_key b i := r]> m).
Proof. done. Qed.

Lemma merge_batch_size b items m :
  NoDup items.*1 →
  (∀ i, i ∈ items.*1 → m !! result_key b i = None) →
  size (merge_batch b items m) = (size m + length items)%nat.
Proof.
  revert m. induction items as [|[i r] items IH]; intros m Hnd Hfresh.
  - simpl. lia.
  - rewrite merge_batch_cons. rewrite fmap_cons in Hnd, Hfresh.
    apply NoDup_cons in Hnd as [Hi Hnd].
    rewrite IH; [|done|].
    + rewrite map_size_insert_None by (apply Hfresh; left). simpl. lia.
    + intros i' Hi'. rewrite lookup_insert_ne.
      * apply Hfresh. by right.
      * intros [_ ->]%result_key_inj. done.
Qed.

Lemma merge_batch_keys b items m k :
  is_Some (merge_batch b items m !! k) →
  is_Some (m !! k) ∨ ∃ i, k = result_key b i.
Proof.
  revert m. induction items as [|[i r] items IH]; intros m; [by left|].
  rewrite merge_batch_cons. intros [H|H]%IH; [|by right].
  destruct (decide (result_key b i = k)) as [<-|Hne]; [right; eauto|].
  left. by rewrite lookup_insert_ne in H.
Qed.

Lemma load_results_size (l : list indexed_file) m :
  NoDup l.*1 →
  Forall (λ f, ∀ items, f.2.2 = Some items → NoDup items.*1) l →
  (∀ k, is_Some (m !! k) → ∃ b i, k = result_key b i ∧ b ∉ l.*1) →
  size (load_results l m) = (size m + sum_list (entries <$> l))%nat.
Proof.
  revert m. induction l as [|[b [name data]] l IH]; intros m Hnd Hkeys Hm.
  - simpl. lia.
  - rewrite fmap_cons in Hnd. apply NoDup_cons in Hnd as [Hb Hnd].
    apply Forall_cons in Hkeys as [Hk Hkeys].
    change (load_results ((b, (name, data)) :: l) m)
      with (load_results l (match data with
                            | Some items => merge_batch b items m
                            | None => m
                            end)).
    rewrite IH; [| done | done |].
    + rewrite (fmap_cons entries). unfold entries at 2.
      destruct data as [items|]; simpl; [|lia].
      rewrite merge_batch_size; [lia | by apply Hk |].
      intros i _. destruct (m !! result_key b i) eqn:E; [|done].
      destruct (Hm (result_key b i)) as (b' & i' & [<- _]%result_key_inj & Hb');
        [by eexists|].
      exfalso. apply Hb'. rewrite fmap_cons. left.
    + intros k Hk'.
      assert (is_Some (m !! k) ∨ ∃ i, k = result_key b i) as [Hin|[i ->]].
      { destruct data; [by apply merge_batch_keys in Hk' | by left]. }
      * destruct (Hm k Hin) as (b' & i' & -> & Hb').
        exists b', i'. split; [done|]. rewrite fmap_cons in Hb'.
        intros Hin'. apply Hb'. by right.
      * exists b, i. done.
Qed.

Lemma load_results_filter_loaded l m :
  load_results (filter (λ f, is_Some f.2.2) l) m = load_results l m.
Proof.
  revert m. induction l as [|[b [name data]] l IH]; intros m; [done|].
  rewrite filter_cons. destruct data as [items|]; simpl; apply IH.
Qed.

(** *** Which files reach the load loop *)

Lemma elem_of_indexed files (f : indexed_file) :
  f ∈ indexed files ↔ f.2 ∈ files ∧ batch_num f.2.1 = Some f.1.
Proof.
  unfold indexed. rewrite list_elem_of_omap. split.
  - intros (bf & Hbf & E). destruct (batch_num bf.1) as [n|] eqn:En; [|done].
    simpl in E. injection E as <-. done.
  - intros [Hf E]. exists f.2. split; [done|]. rewrite E. by destruct f.
Qed.

Lemma elem_of_resolved dir (f : indexed_file) :
  f ∈ resolved dir ↔
  f.2 ∈ dir ∧ glob_batch f.2.1 = true ∧ batch_num f.2.1 = Some f.1.
Proof.
  unfold resolved. rewrite sort_by_idx_perm, elem_of_indexed, list_elem_of_filter.
  tauto.
Qed.

Lemma indexed_cons bf files :
  indexed (bf :: files)
  = match batch_num bf.1 with
    | Some n => (n, bf) :: indexed files
    | None => indexed files
    end.
Proof. unfold indexed. simpl. by destruct (batch_num bf.1). Qed.

Lemma indexed_filter_valid dir :
  indexed (filter valid dir)
  = filter (λ f, is_Some f.2.2) (indexed (filter (λ f, glob_batch f.1 = true) dir)).
Proof.
  induction dir as [|[name data] dir IH]; [done|].
  rewrite !(filter_cons _ (name, data)).
  destruct (decide (valid (name, data))) as [[[Hg [n En]] [items Hd]]|Hv];
    simpl in *.
  - rewrite decide_True by done. rewrite !indexed_cons. simpl. rewrite En.
    rewrite filter_cons. simpl. subst data. rewrite decide_True by (by eexists).
    by rewrite IH.
  - destruct (decide (glob_batch name = true)) as [Hg|Hg]; [|done].
    rewrite indexed_cons. simpl. destruct (batch_num name) as [n|] eqn:En; [|done].
    rewrite filter_cons. simpl. rewrite decide_False; [done|].
    intros Hd. apply Hv. unfold valid, named. simpl. rewrite En. eauto.
Qed.

Lemma indexed_filter_named dir :
  indexed (filter named dir) = indexed (filter (λ f, glob_batch f.1 = true) dir).
Proof.
  induction dir as [|[name data] dir IH]; [done|].
  rewrite !(filter_cons _ (name, data)).
  destruct (decide (named (name, data))) as [[Hg [n En]]|Hn]; simpl in *.
  - rewrite decide_True by done. rewrite !indexed_cons. simpl. by rewrite En, IH.
  - destruct (decide (glob_batch name = true)) as [Hg|Hg]; [|done].
    rewrite indexed_cons. simpl. destruct (batch_num name) as [n|] eqn:En; [|done].
    exfalso. apply Hn. unfold named. simpl. rewrite En. eauto.
Qed.

Lemma filter_glob_sub (P : string * batch_file → Prop) `{!∀ x, Decision (P x)}
    (dir : directory) :
  (∀ bf, P bf → glob_batch bf.1 = true) →
  filter (λ f, glob_batch f.1 = true) (filter P dir) = filter P dir.
Proof.
  intros HP. rewrite list_filter_filter. apply list_filter_iff.
  intros bf. split; [by intros [_ ?] | auto].
Qed.

Lemma resolved_valid dir :
  resolved (filter valid dir) = filter (λ f, is_Some f.2.2) (resolved dir).
Proof.
  unfold resolved. rewrite filter_glob_sub by (by intros ? [[? _] _]).
  by rewrite indexed_filter_valid, sort_by_idx_filter.
Qed.

Lemma resolved_named dir : resolved (filter named dir) = resolved dir.
Proof.
  unfold resolved. rewrite filter_glob_sub by (by intros ? [? _]).
  by rewrite indexed_filter_named.
Qed.

(** *** Directories of consecutive completed batches *)

Lemma filter_glob_batches_from s contents :
  filter (λ f, glob_batch f.1 = true) (batches_from s contents) = batches_from s contents.
Proof.
  revert s. induction contents as [|items rest IH]; intros s; [done|].
  simpl. rewrite filter_cons. simpl.
  rewrite decide_True by apply glob_batch_batch_file_name. by rewrite IH.
Qed.

Lemma indexed_batches_from_cons s items rest :
  indexed (batches_from s (items :: rest))
  = (s, (batch_file_name s, Some items)) :: indexed (batches_from (s + 1) rest).
Proof.
  change (batches_from s (items :: rest))
    with ((batch_file_name s, Some items) :: batches_from (s + 1) rest).
  rewrite indexed_cons. cbn [fst]. by rewrite batch_num_batch_file_name.
Qed.

Lemma indexed_batches_from_idx s contents :
  (indexed (batches_from s contents)).*1 = seqZ s (Z.of_nat (length contents)).
Proof.
  revert s. induction contents as [|items rest IH]; intros s; [done|].
  rewrite indexed_batches_from_cons, fmap_cons, IH. simpl length.
  rewrite (seqZ_cons s) by lia. simpl. do 2 f_equal; lia.
Qed.

Lemma indexed_batches_from_entries s contents :
  entries <$> indexed (batches_from s contents) = length <$> contents.
Proof.
  revert s. induction contents as [|items rest IH]; intros s; [done|].
  by rewrite indexed_batches_from_cons, !fmap_cons, IH.
Qed.

Lemma indexed_batches_from_loaded s contents :
  Forall (λ items, NoDup items.*1) contents →
  Forall (λ f : indexed_file, ∀ items, f.2.2 = Some items → NoDup items.*1)
    (indexed (batches_from s contents)).
Proof.
  intros H. revert s. induction H as [|items rest Hi Hrest IH]; intros s.
  - constructor.
  - rewrite indexed_batches_from_cons. constructor; [|apply IH].
    simpl. by intros ? [= <-].
Qed.

(** *** The resume point *)

Lemma elem_of_names (dir : directory) name :
  name ∈ dir.*1 ↔ ∃ data, (name, data) ∈ dir.
Proof.
  rewrite list_elem_of_fmap. split.
  - intros ([n d] & -> & H). by exists d.
  - intros [d H]. by exists (name, d).
Qed.

Lemma current_batch_idx_spec dir n :
  current_batch_idx (load_checkpoint false dir).1 = n ↔
  (n = 0 ∧ ∀ name, name ∈ dir.*1 → glob_batch name = true → batch_num name = None)
  ∨ ((∃ name, name ∈ dir.*1 ∧ glob_batch name = true ∧ batch_num name = Some (n - 1))
     ∧ ∀ name j, name ∈ dir.*1 → glob_batch name = true →
                 batch_num name = Some j → j < n).
Proof.
  rewrite load_checkpoint_state. simpl. unfold resolved.
  rewrite start_batch_idx_spec.
  set (l := indexed (filter (λ f, glob_batch f.1 = true) dir)).
  assert (Hl : ∀ f : indexed_file, f ∈ l ↔
            f.2 ∈ dir ∧ glob_batch f.2.1 = true ∧ batch_num f.2.1 = Some f.1).
  { intros f. unfold l. rewrite elem_of_indexed, list_elem_of_filter. tauto. }
  split.
  - intros [[Hnil ->]|[(f & Hf & Hfn) Hmax]].
    + left. split; [done|]. intros name [data Hin]%elem_of_names Hg.
      destruct (batch_num name) as [j|] eqn:Ej; [|done].
      assert ((j, (name, data)) ∈ l) as Hjl by (by apply Hl).
      rewrite Hnil in Hjl. by apply elem_of_nil in Hjl.
    + right. apply Hl in Hf as (Hin & Hg & Hnum). split.
      * exists f.2.1. rewrite Hnum, Hfn. split_and!; [|done..].
        apply elem_of_names. exists f.2.2. by destruct f as [? [? ?]].
      * intros name j [data Hin']%elem_of_names Hg' Hj.
        assert ((j, (name, data)) ∈ l) as Hjl by (by apply Hl).
        specialize (Hmax _ Hjl). simpl in Hmax. lia.
  - intros [[-> Hnone]|[(name & [data Hin]%elem_of_names & Hg & Hnum) Hmax]].
    + left. split; [|done]. destruct l as [|f l'] eqn:El; [done|].
      assert (f ∈ f :: l') as (Hin & Hg & Hnum)%Hl by left.
      rewrite Hnone in Hnum; [done| |done].
      apply elem_of_names. exists f.2.2. by destruct f as [? [? ?]].
    + right. split.
      * exists (n - 1, (name, data)). split; [by apply Hl | done].
      * intros g (Hin' & Hg' & Hnum')%Hl.
        assert (g.1 < n); [|lia].
        eapply (Hmax g.2.1); [|done..].
        apply elem_of_names. exists g.2.2. by destruct g as [? [? ?]].
Qed.

Lemma resolved_completed contents :
  resolved (completed_batches contents)
  = sort_by_idx (indexed (completed_batches contents)).
Proof. unfold resolved, completed_batches. by rewrite filter_glob_batches_from. Qed.

Lemma resolved_of_completed contents (dir : directory) :
  filter (λ f, glob_batch f.1 = true) dir ≡ₚ completed_batches contents →
  resolved dir = resolved (completed_batches contents).
Proof.
  intros Hperm. rewrite resolved_completed. unfold resolved.
  apply sort_by_idx_perm_eq.
  - unfold indexed. by rewrite Hperm.
  - unfold indexed. rewrite Hperm. fold (indexed (completed_batches contents)).
    unfold completed_batches. rewrite indexed_batches_from_idx. apply NoDup_seqZ.
Qed.

Lemma completed_resume_point contents :
  current_batch_idx (load_checkpoint false (completed_batches contents)).1
  = Z.of_nat (length contents).
Proof.
  rewrite load_checkpoint_state. simpl. rewrite resolved_completed.
  apply start_batch_idx_spec.
  set (l := indexed (completed_batches contents)).
  assert (Hl : l.*1 = seqZ 0 (Z.of_nat (length contents)))
    by apply indexed_batches_from_idx.
  destruct contents as [|items rest]; [by left|]. right. split.
  - assert (Z.of_nat (length (items :: rest)) - 1 ∈ l.*1) as Hin.
    { rewrite Hl. apply elem_of_seqZ. simpl length. lia. }
    apply list_elem_of_fmap in Hin as (f & Hf & Hin). eauto.
  - intros g Hg. assert (g.1 ∈ l.*1) as Hin by (apply list_elem_of_fmap; eauto).
    rewrite Hl in Hin. apply elem_of_seqZ in Hin. lia.
Qed.

Lemma completed_results_size contents :
  Forall (λ items, NoDup items.*1) contents →
  size (global_results (load_checkpoint false (completed_batches contents)).1)
  = sum_list (length <$> contents).
Proof.
  intros Hnd. rewrite load_checkpoint_state. simpl. rewrite resolved_completed.
  set (l := indexed (completed_batches contents)).
  rewrite load_results_size.
  - rewrite map_size_empty, sort_by_idx_perm. simpl.
    unfold l, completed_batches. by rewrite indexed_batches_from_entries.
  - rewrite sort_by_idx_perm. unfold l, completed_batches.
    rewrite indexed_batches_from_idx. apply NoDup_seqZ.
  - rewrite sort_by_idx_perm. by apply indexed_batches_from_loaded.
  - intros k [? Hk]. by rewrite lookup_empty in Hk.
Qed.

(** C2 (amended): when the listed batch files are exactly the artifacts
    of completed batches 0..k, each loading, the resolver returns
    next index k+1 and a results map with as many entries as the batches
    have samples, whatever the listing order.  In general the next index is
    0 when no listed name yields a batch number and otherwise one past the
    highest number read from a listed name; it is fixed by the names alone,
    so a file whose content does not load counts as well. *)
Theorem checkpoint_resume_point :
  (∀ contents (dir : directory),
     Forall (λ items, NoDup items.*1) contents →
     filter (λ f, glob_batch f.1 = true) dir ≡ₚ completed_batches contents →
     let st := (load_checkpoint false dir).1 in
     current_batch_idx st = Z.of_nat (length contents)
     ∧ size (global_results st) = sum_list (length <$> contents)
     ∧ st = (load_checkpoint false (completed_batches contents)).1)
  ∧ (∀ (dir : directory) n,
       current_batch_idx (load_checkpoint false dir).1 = n ↔
       (n = 0 ∧ ∀ name, name ∈ dir.*1 → glob_batch name = true → batch_num name = None)
       ∨ ((∃ name, name ∈ dir.*1 ∧ glob_batch name = true
                   ∧ batch_num name = Some (n - 1))
          ∧ ∀ name j, name ∈ dir.*1 → glob_batch name = true →
                      batch_num name = Some j → j < n))
  ∧ (∀ dir dir' : directory,
       dir.*1 = dir'.*1 →
       current_batch_idx (load_checkpoint false dir).1
       = current_batch_idx (load_checkpoint false dir').1).
Proof.
  split_and!.
  - intros contents dir Hnd Hperm st.
    assert (st = (load_checkpoint false (completed_batches contents)).1) as ->.
    { unfold st. rewrite !load_checkpoint_state.
      by rewrite (resolved_of_completed contents dir). }
    split_and!; [apply completed_resume_point | by apply completed_results_size | done].
  - apply current_batch_idx_spec.
  - intros dir dir' Hnames. apply current_batch_idx_spec. rewrite Hnames.
    by apply current_batch_idx_spec.
Qed.

Lemma checkpoint_resume_point_witness :
  Forall (λ items : list (string * Sample), NoDup items.*1) two_batches
  ∧ filter (λ f, glob_batch f.1 = true) dir_complete ≡ₚ completed_batches two_batches
  ∧ current_batch_idx (load_checkpoint false dir_complete).1 = 2
  ∧ size (global_results (load_checkpoint false dir_complete).1) = 3%nat.
Proof.
  assert (Forall (λ items : list (string * Sample), NoDup items.*1) two_batches) as Hnd.
  { apply (bool_decide_unpack _). by vm_compute. }
  assert (filter (λ f, glob_batch f.1 = true) dir_complete
          ≡ₚ completed_batches two_batches) as Hperm.
  { apply perm_swap. }
  destruct checkpoint_resume_point as [Hresume _].
  destruct (Hresume two_batches dir_complete Hnd Hperm) as (Hidx & Hsize & _).
  split_and!; [exact Hnd | exact Hperm | exact Hidx | exact Hsize].
Defined.

(** C2 fails as stated: with batch 0 complete and batch 1 truncated the
    resolver resumes at 2, while one past the highest batch whose file
    parses is 1. *)
Lemma checkpoint_resume_point_counterexample :
  current_batch_idx (load_checkpoint false dir_truncated).1 = 2
  ∧ spec_next_batch_index dir_truncated = 1
  ∧ current_batch_idx (load_checkpoint false dir_truncated).1
    ≠ spec_next_batch_index dir_truncated.
Proof. split_and!; [reflexivity | reflexivity | by vm_compute]. Qed.

Lemma elem_of_parse_warnings files name :
  CouldNotParse name ∈ parse_warnings files
  ↔ name ∈ files.*1 ∧ batch_num name = None.
Proof.
  unfold parse_warnings. rewrite list_elem_of_omap, elem_of_names. split.
  - intros ([n d] & Hin & E). simpl in E.
    destruct (batch_num n) eqn:En; [done|]. injection E as ->. eauto.
  - intros [[d Hin] En]. exists (name, d). simpl. by rewrite En.
Qed.

Lemma elem_of_load_messages l (f : indexed_file) :
  f ∈ l → f.2.2 = None → FailedToLoad f.2.1 ∈ load_messages l.
Proof.
  intros Hf Hd. unfold load_messages. apply list_elem_of_fmap.
  exists f. by rewrite Hd.
Qed.

(** C3 (amended): on any directory the resolver returns a checkpoint (it
    is a total function: nothing aborts it).  Every listed file whose name
    yields no batch number and every numbered file whose content does not
    load is reported by a warning; the results map is the one recovered
    from the valid files alone; the next index is the one determined by the
    names that yield a number, and it is the one determined by the valid
    files alone whenever no file that fails to load is numbered above all
    valid files. *)
Theorem checkpoint_skips_bad_files (dir : directory) :
  let st := (load_checkpoint false dir).1 in
  let out := (load_checkpoint false dir).2 in
  (∀ bf, bf ∈ dir → glob_batch bf.1 = true → batch_num bf.1 = None →
         CouldNotParse bf.1 ∈ out ∧ is_warning (CouldNotParse bf.1) = true)
  ∧ (∀ bf, bf ∈ dir → named bf → bf.2 = None →
           FailedToLoad bf.1 ∈ out ∧ is_warning (FailedToLoad bf.1) = true)
  ∧ global_results st = global_results (load_checkpoint false (filter valid dir)).1
  ∧ current_batch_idx st
    = current_batch_idx (load_checkpoint false (filter named dir)).1
  ∧ ((∀ bf j, bf ∈ dir → named bf → bf.2 = None → batch_num bf.1 = Some j →
              ∃ bf' j', bf' ∈ dir ∧ valid bf' ∧ batch_num bf'.1 = Some j' ∧ j <= j') →
     current_batch_idx st
     = current_batch_idx (load_checkpoint false (filter valid dir)).1).
Proof.
  intros st out. unfold st, out. clear st out.
  destruct (load_checkpoint_console dir) as (pre & post & Hout).
  split_and!.
  - intros [name data] Hin Hg Hnum. split; [|done]. rewrite Hout.
    apply elem_of_app. left. apply elem_of_parse_warnings. split; [|done].
    apply elem_of_names. exists data. by apply list_elem_of_filter.
  - intros [name data] Hin [Hg [j Hj]] Hd. split; [|done]. rewrite Hout.
    apply elem_of_app. right. apply elem_of_app. right. apply elem_of_app. left.
    apply (elem_of_load_messages _ (j, (name, data))); [|done].
    by apply elem_of_resolved.
  - rewrite !load_checkpoint_state. simpl.
    by rewrite resolved_valid, load_results_filter_loaded.
  - rewrite !load_checkpoint_state. simpl. by rewrite resolved_named.
  - intros Hbelow. rewrite !load_checkpoint_state. simpl.
    rewrite resolved_valid. unfold resolved.
    rewrite sort_by_idx_filter.
    set (l := indexed (filter (λ f, glob_batch f.1 = true) dir)).
    assert (Hl : ∀ f : indexed_file, f ∈ l ↔
              f.2 ∈ dir ∧ glob_batch f.2.1 = true ∧ batch_num f.2.1 = Some f.1).
    { intros f. unfold l. rewrite elem_of_indexed, list_elem_of_filter. tauto. }
    set (lv := filter (λ f : indexed_file, is_Some f.2.2) l).
    assert (Hcover : ∀ g, g ∈ l → ∃ v, v ∈ lv ∧ g.1 <= v.1).
    { intros g Hg. destruct (g.2.2) as [items|] eqn:Hgd.
      - exists g. split; [|lia]. apply list_elem_of_filter. eauto.
      - apply Hl in Hg as (Hgin & Hgg & Hgn).
        destruct (Hbelow g.2 g.1) as (bf' & j' & Hin' & [[Hg' _] Hd'] & Hn' & Hle);
          [done | by (split; eauto) | done | done |].
        exists (j', bf'). split; [|done].
        apply list_elem_of_filter. split; [done | by apply Hl]. }
    apply start_batch_idx_spec.
    destruct (proj1 (start_batch_idx_spec lv _) eq_refl)
      as [[Hnil ->]|[(f & [Hfd Hf]%list_elem_of_filter & Hfn) Hmax]].
    + left. split; [|done]. destruct l as [|g l']; [done|].
      destruct (Hcover g) as (v & Hv & _); [left|].
      rewrite Hnil in Hv. by apply elem_of_nil in Hv.
    + right. split; [by eauto|]. intros g Hg.
      destruct (Hcover g Hg) as (v & Hv & Hle). specialize (Hmax v Hv). lia.
Qed.

Lemma checkpoint_skips_bad_files_witness :
  (∀ bf j, bf ∈ dir_mixed → named bf → bf.2 = None → batch_num bf.1 = Some j →
           ∃ bf' j', bf' ∈ dir_mixed ∧ valid bf' ∧ batch_num bf'.1 = Some j' ∧ j <= j')
  ∧ FailedToLoad "batch_0.json" ∈ (load_checkpoint false dir_mixed).2
  ∧ current_batch_idx (load_checkpoint false dir_mixed).1
    = current_batch_idx (load_checkpoint false (filter valid dir_mixed)).1.
Proof.
  assert (∀ bf j, bf ∈ dir_mixed → named bf → bf.2 = None → batch_num bf.1 = Some j →
            ∃ bf' j', bf' ∈ dir_mixed ∧ valid bf' ∧ batch_num bf'.1 = Some j' ∧ j <= j')
    as Hbelow.
  { intros bf j Hin _ Hnone Hj.
    exists ("batch_00001.json", Some [("0", sample_of ["e"])]), 1.
    split_and!.
    - do 2 right. left.
    - unfold valid, named. simpl. split_and!; [done | by eexists | by eexists].
    - done.
    - unfold dir_mixed in Hin.
      repeat (apply elem_of_cons in Hin as [->|Hin]; [by vm_compute in Hj; simplify_eq|]).
      by apply elem_of_nil in Hin. }
  destruct (checkpoint_skips_bad_files dir_mixed) as (_ & Hwarn & _ & _ & Hidx).
  split_and!; [exact Hbelow | | exact (Hidx Hbelow)].
  apply (Hwarn ("batch_0.json", None)); [do 1 right; left | | done].
  unfold named. simpl. split; [done | by eexists].
Defined.

(** C3 fails as stated: with batch 0 valid and batch 1 truncated the
    resolver resumes at 2, while the valid files alone give 1. *)
Lemma checkpoint_skips_bad_files_counterexample :
  filter valid dir_truncated = [("batch_00000.json", Some [("0", sample_of ["a"; "b"])])]
  ∧ current_batch_idx (load_checkpoint false dir_truncated).1 = 2
  ∧ current_batch_idx (load_checkpoint false (filter valid dir_truncated)).1 = 1
  ∧ (load_checkpoint false dir_truncated).1
    ≠ (load_checkpoint false (filter valid dir_truncated)).1.
Proof.
  split_and!; [reflexivity..|].
  intros E. apply (f_equal current_batch_idx) in E. by vm_compute in E.
Qed.

End CheckpointFacts.

(** ** Facts about the batch runner *)

Section RunnerFacts.
Import Py Checkpoint Runner.

Variable chat : list (list Message) → py_exn + list (list string).

Lemma run_inference_unfold force dir dataloader :
  run_inference chat force dir dataloader
  = match outcome (looped chat force dir dataloader) with
    | None => log InferenceCompleted (looped chat force dir dataloader)
    | Some _ => looped chat force dir dataloader
    end.
Proof.
  unfold run_inference, looped, initial_run.
  destruct (load_checkpoint force dir) as [chk out]. simpl.
  by destruct (skip_batches (Z.to_nat (current_batch_idx chk)) dataloader).
Qed.

Lemma skip_batches_all n (it : list BatchDict) :
  (length it ≤ n)%nat →
  skip_batches n it = ([], bool_decide (length it < n)%nat).
Proof.
  revert it. induction n as [|n IH]; intros [|bd it] Hlen; simpl in *; try lia.
  - done.
  - done.
  - rewrite IH by lia. f_equal. apply bool_decide_ext. lia.
Qed.

Lemma skip_batches_app n (pre rest : list BatchDict) :
  (n ≤ length pre)%nat →
  skip_batches n (pre ++ rest) = (drop n pre ++ rest, false).
Proof.
  revert pre. induction n as [|n IH]; intros [|bd pre] Hlen; simpl in *; try lia.
  - done.
  - done.
  - apply IH. lia.
Qed.

Lemma skip_batches_drop n (it : list BatchDict) :
  (n ≤ length it)%nat → skip_batches n it = (drop n it, false).
Proof.
  intros Hlen. rewrite <- (app_nil_r it) at 1.
  by rewrite skip_batches_app, app_nil_r.
Qed.

Lemma batch_loop_app idx pre rest st :
  outcome (batch_loop chat idx pre st) = None →
  batch_loop chat idx (pre ++ rest) st
  = batch_loop chat (idx + Z.of_nat (length pre)) rest (batch_loop chat idx pre st).
Proof.
  revert idx st. induction pre as [|bd pre IH]; intros idx st Hok.
  - simpl. by rewrite Z.add_0_r.
  - simpl in *.
    destruct (negb _); [done|].
    destruct (chat (prompt bd)) as [e|outputs]; [done|].
    destruct (process_batch_outputs outputs bd) as [batch_results|]; [|done].
    rewrite IH by done. f_equal. lia.
Qed.

Lemma elem_of_write_file_names name data (dir : directory) name' :
  name' ∈ (write_file name data dir).*1 ↔ name' = name ∨ name' ∈ dir.*1.
Proof.
  induction dir as [|[n d] dir IH]; simpl.
  - rewrite list_elem_of_singleton, elem_of_nil. tauto.
  - case_decide; subst; rewrite !fmap_cons, !elem_of_cons; simpl; [tauto|].
    rewrite IH. tauto.
Qed.

Lemma batch_loop_keeps_names idx it st name :
  name ∈ (store st).*1 → name ∈ (store (batch_loop chat idx it st)).*1.
Proof.
  revert idx st. induction it as [|bd it IH]; intros idx st Hin; simpl; [done|].
  destruct (negb _); [done|].
  destruct (chat (prompt bd)) as [e|outputs]; [done|].
  destruct (process_batch_outputs outputs bd) as [batch_results|]; [|done].
  apply IH. simpl. apply elem_of_write_file_names. by right.
Qed.

Lemma batch_loop_writes idx it st j :
  outcome (batch_loop chat idx it st) = None →
  idx <= j < idx + Z.of_nat (length it) →
  batch_file_name j ∈ (store (batch_loop chat idx it st)).*1.
Proof.
  revert idx st. induction it as [|bd it IH]; intros idx st Hok Hj; simpl in *; [lia|].
  destruct (negb _); [done|].
  destruct (chat (prompt bd)) as [e|outputs]; [done|].
  destruct (process_batch_outputs outputs bd) as [batch_results|]; [|done].
  destruct (decide (j = idx)) as [->|Hne].
  - apply batch_loop_keeps_names. simpl. apply elem_of_write_file_names. by left.
  - apply IH; [done | lia].
Qed.

Lemma run_on_completed_shard dir dataloader :
  Z.of_nat (length dataloader) <= current_batch_idx (load_checkpoint false dir).1 →
  let start := current_batch_idx (load_checkpoint false dir).1 in
  let r := run_inference chat false dir dataloader in
  outcome r = None ∧ store r = dir
  ∧ results r = global_results (load_checkpoint false dir).1
  ∧ trace r = (Print <$> (load_checkpoint false dir).2)
              ++ (if decide (Z.of_nat (length dataloader) < start)
                  then [CheckpointExceedsDataset start] else [])
              ++ [InferenceCompleted].
Proof.
  intros Hdone start r. unfold r. rewrite run_inference_unfold.
  unfold looped, initial_run. fold start.
  rewrite skip_batches_all by lia. simpl.
  split_and!; try done.
  rewrite <- app_assoc. do 2 f_equal.
  destruct (decide (Z.of_nat (length dataloader) < start)).
  - rewrite bool_decide_eq_true_2 by lia. done.
  - rewrite bool_decide_eq_false_2 by lia. done.
Qed.

Lemma filter_is_nil {A} (P : A → Prop) `{!∀ x, Decision (P x)} (l : list A) :
  (∀ x, x ∈ l → ¬ P x) → filter P l = [].
Proof.
  induction l as [|x l IH]; intros Hl; [done|].
  rewrite filter_cons, decide_False by (apply Hl; left).
  apply IH. intros y Hy. apply Hl. by right.
Qed.

Lemma no_batch_work out tail :
  (∀ e, e ∈ tail → is_batch_work e = false) →
  filter is_batch_work ((Print <$> out) ++ tail) = [].
Proof.
  intros Htail. apply filter_is_nil.
  intros e [(m & -> & _)%list_elem_of_fmap|He]%elem_of_app.
  - by intros [].
  - rewrite (Htail e He). by intros [].
Qed.

(** After a run that finished, the resume point is at or past the number
    of batches, provided the run did not start from a negative index. *)
Lemma resume_point_after_run dir dataloader :
  0 <= current_batch_idx (load_checkpoint false dir).1 →
  outcome (run_inference chat false dir dataloader) = None →
  Z.of_nat (length dataloader)
  <= current_batch_idx
       (load_checkpoint false (store (run_inference chat false dir dataloader))).1.
Proof.
  intros Hpos Hok.
  set (start := current_batch_idx (load_checkpoint false dir).1) in *.
  destruct (decide (Z.of_nat (length dataloader) <= start)) as [Hdone|Hleft].
  { destruct (run_on_completed_shard dir dataloader Hdone) as (_ & -> & _).
    exact Hdone. }
  rewrite run_inference_unfold in Hok |- *.
  destruct (outcome (looped chat false dir dataloader)) eqn:Hloop; [congruence|].
  change (store (log InferenceCompleted ?st)) with (store st).
  unfold looped in *. fold start in Hloop |- *.
  rewrite skip_batches_drop in Hloop |- * by lia. cbn [fst] in Hloop |- *.
  set (n := Z.of_nat (length dataloader)) in *.
  pose proof (batch_loop_writes _ _ _ (n - 1) Hloop) as Hfile.
  rewrite length_drop in Hfile. specialize (Hfile ltac:(lia)).
  set (dir' := store (batch_loop _ _ _ _)) in *.
  destruct (proj1 (current_batch_idx_spec dir' _) eq_refl) as [[_ Hnone]|[_ Hmax]].
  - specialize (Hnone _ Hfile (glob_batch_batch_file_name _)).
    by rewrite batch_num_batch_file_name in Hnone.
  - specialize (Hmax _ (n - 1) Hfile (glob_batch_batch_file_name _)
                  (batch_num_batch_file_name _)). lia.
Qed.

(** C4: when the resolved next index is at or past the number of batches
    the data loader yields, the run processes no batch, calls the
    generation collaborator for none and leaves the directory as it is; it
    ends normally, and when the index exceeds the number of batches it
    prints the warning that the checkpoint exceeds the dataset.  So after a
    run that finished (started at a non-negative index), a second run over
    the same batches changes nothing in the artifact store. *)
Theorem completed_shard_is_noop :
  (∀ dir dataloader,
     Z.of_nat (length dataloader) <= current_batch_idx (load_checkpoint false dir).1 →
     let start := current_batch_idx (load_checkpoint false dir).1 in
     let r := run_inference chat false dir dataloader in
     outcome r = None ∧ store r = dir
     ∧ filter is_batch_work (trace r) = []
     ∧ (Z.of_nat (length dataloader) < start → CheckpointExceedsDataset start ∈ trace r)
     ∧ (Z.of_nat (length dataloader) = start → CheckpointExceedsDataset start ∉ trace r))
  ∧ (∀ dir dataloader,
       0 <= current_batch_idx (load_checkpoint false dir).1 →
       let first := run_inference chat false dir dataloader in
       outcome first = None →
       let second := run_inference chat false (store first) dataloader in
       outcome second = None ∧ store second = store first
       ∧ filter is_batch_work (trace second) = []).
Proof.
  assert (Hnoop : ∀ dir dataloader,
     Z.of_nat (length dataloader) <= current_batch_idx (load_checkpoint false dir).1 →
     let start := current_batch_idx (load_checkpoint false dir).1 in
     let r := run_inference chat false dir dataloader in
     outcome r = None ∧ store r = dir
     ∧ filter is_batch_work (trace r) = []
     ∧ (Z.of_nat (length dataloader) < start → CheckpointExceedsDataset start ∈ trace r)
     ∧ (Z.of_nat (length dataloader) = start → CheckpointExceedsDataset start ∉ trace r)).
  { intros dir dataloader Hdone start r.
    destruct (run_on_completed_shard dir dataloader Hdone) as (Hout & Hstore & _ & Htrace).
    fold start r in Hout, Hstore, Htrace.
    split_and!; [done | done | | |].
    - rewrite Htrace. apply no_batch_work.
      intros e He. case_decide; simpl in He;
        repeat (apply elem_of_cons in He as [->|He]; [done|]);
        by apply elem_of_nil in He.
    - intros Hlt. rewrite Htrace, decide_True by done.
      apply elem_of_app. right. left.
    - intros Heq. rewrite Htrace, decide_False by lia.
      intros [(m & [=] & _)%list_elem_of_fmap|Hin]%elem_of_app.
      simpl in Hin. apply elem_of_cons in Hin as [[=]|Hin].
      by apply elem_of_nil in Hin. }
  split; [exact Hnoop|].
  intros dir dataloader Hpos first Hok second.
  pose proof (resume_point_after_run dir dataloader Hpos Hok) as Hresume.
  destruct (Hnoop (store first) dataloader Hresume) as (? & ? & ? & _).
  done.
Qed.

Lemma forallb_id_false (flags : list bool) :
  false ∈ flags → forallb id flags = false.
Proof.
  induction flags as [|[] flags IH]; intros Hin.
  - by apply elem_of_nil in Hin.
  - apply elem_of_cons in Hin as [?|Hin]; [done|]. simpl. auto.
  - done.
Qed.

Lemma outcome_run_inference force dir dataloader :
  outcome (run_inference chat force dir dataloader) = None →
  outcome (looped chat force dir dataloader) = None
  ∧ run_inference chat force dir dataloader
    = log InferenceCompleted (looped chat force dir dataloader).
Proof.
  rewrite run_inference_unfold.
  destruct (outcome (looped chat force dir dataloader)) eqn:E; [congruence|done].
Qed.

(** C5: let [bd] be a batch that the run reaches (it is not skipped by the
    checkpoint and the batches before it are processed without error).  If
    one of its samples has [apply_chat_template] false, the run ends with
    the [RuntimeError] of line 290: it leaves the run function (nothing in
    it catches or retries), and up to that point the run is the run over
    the batches before [bd], so for [bd] only the announcement has been
    printed: the generation collaborator has not been called for it, no
    artifact has been written for it, and no later batch is touched. *)
Theorem unexpanded_sample_is_fatal force dir pre bd post flags :
  apply_chat_template bd = Some flags →
  false ∈ flags →
  (Z.to_nat (current_batch_idx (load_checkpoint force dir).1) ≤ length pre)%nat →
  outcome (run_inference chat force dir pre) = None →
  let start := current_batch_idx (load_checkpoint force dir).1 in
  let before := run_inference chat force dir pre in
  let r := run_inference chat force dir (pre ++ bd :: post) in
  outcome r = Some (RuntimeError template_error)
  ∧ store r = store before
  ∧ results r = results before
  ∧ ∃ events,
      trace before = events ++ [InferenceCompleted]
      ∧ trace r = events
                  ++ [Generating (start + Z.of_nat (length pre - Z.to_nat start))
                        (length (reward_model_ground_truth bd))].
Proof.
  intros Hflags Hfalse Hreach Hok start before r.
  destruct (outcome_run_inference _ _ _ Hok) as [Hloop Hbefore].
  unfold before, r. rewrite Hbefore. clear before r Hbefore.
  rewrite (run_inference_unfold force dir (pre ++ bd :: post)).
  assert (looped chat force dir (pre ++ bd :: post)
          = raise (RuntimeError template_error)
              (log (Generating (start + Z.of_nat (length pre - Z.to_nat start))
                      (length (reward_model_ground_truth bd)))
                 (looped chat force dir pre))) as ->.
  { unfold looped in *. fold start in Hloop |- *.
    assert (initial_run force dir (pre ++ bd :: post) = initial_run force dir pre) as ->.
    { unfold initial_run. fold start.
      by rewrite skip_batches_app, skip_batches_drop by done. }
    rewrite skip_batches_app by done.
    rewrite skip_batches_drop in Hloop |- * by done. cbn [fst] in Hloop |- *.
    rewrite batch_loop_app by done. rewrite length_drop.
    simpl. rewrite Hflags. simpl. by rewrite forallb_id_false. }
  simpl. split_and!; try done. by eexists.
Qed.

End RunnerFacts.

Lemma completed_shard_is_noop_witness :
  let dataloader := take 2 Runner.three_batches in
  let first := Runner.run_inference Runner.echo_chat false [] Runner.three_batches in
  (Z.of_nat (length dataloader)
   <= Checkpoint.current_batch_idx (Checkpoint.load_checkpoint false Checkpoint.dir_complete).1
   ∧ 0 <= Checkpoint.current_batch_idx (Checkpoint.load_checkpoint false []).1
   ∧ Runner.outcome first = None)
  ∧ Runner.store
      (Runner.run_inference Runner.echo_chat false Checkpoint.dir_complete dataloader)
    = Checkpoint.dir_complete
  ∧ Runner.store
      (Runner.run_inference Runner.echo_chat false (Runner.store first) Runner.three_batches)
    = Runner.store first.
Proof.
  intros dataloader first.
  assert (Z.of_nat (length dataloader)
          <= Checkpoint.current_batch_idx
               (Checkpoint.load_checkpoint false Checkpoint.dir_complete).1) as H1
    by (vm_compute; discriminate).
  assert (0 <= Checkpoint.current_batch_idx (Checkpoint.load_checkpoint false []).1) as H2
    by (vm_compute; discriminate).
  assert (Runner.outcome first = None) as H3 by (vm_compute; reflexivity).
  destruct (completed_shard_is_noop Runner.echo_chat) as [Hnoop Htwice].
  split; [by split_and!|]. split.
  - apply (Hnoop Checkpoint.dir_complete dataloader H1).
  - apply (Htwice [] Runner.three_batches H2 H3).
Defined.

Lemma unexpanded_sample_is_fatal_witness :
  let pre := Runner.three_batches in
  let bd := Runner.unexpanded_batch in
  let r := Runner.run_inference Runner.echo_chat false [] (pre ++ bd :: pre) in
  (Runner.apply_chat_template bd = Some [true; false]
   ∧ false ∈ [true; false]
   ∧ (Z.to_nat (Checkpoint.current_batch_idx (Checkpoint.load_checkpoint false []).1)
      ≤ length pre)%nat
   ∧ Runner.outcome (Runner.run_inference Runner.echo_chat false [] pre) = None)
  ∧ Runner.outcome r = Some (Runner.RuntimeError Runner.template_error)
  ∧ Runner.store r = Runner.store (Runner.run_inference Runner.echo_chat false [] pre).
Proof.
  intros pre bd r.
  assert (Runner.apply_chat_template bd = Some [true; false]) as H1 by reflexivity.
  assert (false ∈ [true; false]) as H2 by (right; left).
  assert (Z.to_nat (Checkpoint.current_batch_idx (Checkpoint.load_checkpoint false []).1)
          ≤ length pre)%nat as H3 by (vm_compute; lia).
  assert (Runner.outcome (Runner.run_inference Runner.echo_chat false [] pre) = None) as H4
    by (vm_compute; reflexivity).
  destruct (unexpanded_sample_is_fatal Runner.echo_chat false [] pre bd pre
              [true; false] H1 H2 H3 H4) as (Hout & Hstore & _).
  split; [by split_and!|]. by split.
Defined.

(** ** Facts about one scoring task *)

Section RewardFacts.
Import Py Reward.

Variable scorer : string → string → json → list (string * json) → behaviour.



Lemma dict_set_present k v d : dict_get k d = Some v → dict_set k v d = d.
Proof.
  induction d as [|[k' v'] d IH]; simpl; [done|].
  destruct (decide (k' = k)) as [->|]; [by intros [= ->]|].
  intros H. by rewrite IH.
Qed.







(** C6: without a worker pool no timeout is in effect.  With at most one
    requested worker [main] builds no pool, the tasks run in the main
    process where [_TASK_TIMEOUT] is [None], line 62 arms no alarm, and a
    task whose collaborator never returns never returns either: the
    sequential map stays at it and yields nothing for the tasks behind it. *)
Theorem hang_without_pool order args cpu_count t rest :
  reward_workers args <= 1 →
  call scorer t = Hangs →
  let workers := pool_workers (reward_workers args) cpu_count in
  (1 <? workers) = false
  ∧ task_timeout_global workers (task_timeout args) = None
  ∧ compute_single_reward scorer (task_timeout_global workers (task_timeout args)) t = Hung
  ∧ results_iter scorer order args (1 <? workers) (t :: rest) = Hung.
Proof.
  intros Hworkers Hcall workers.
  assert (workers = 1) as ->.
  { unfold workers, pool_workers. destruct (Z.leb_spec (reward_workers args) 1); [done|lia]. }
  assert (compute_single_reward scorer None t = Hung) as Hhung.
  { unfold compute_single_reward. by rewrite Hcall. }
  split_and!; try done.
  unfold results_iter. simpl. by rewrite Hhung.
Qed.


End RewardFacts.



Lemma hang_without_pool_witness :
  (Reward.reward_workers (Reward.example_args 1) <= 1
   ∧ Reward.call Reward.stuck Reward.a_task = Reward.Hangs)
  ∧ Reward.results_iter Reward.stuck (λ l, l) (Reward.example_args 1)
      (1 <? Reward.pool_workers 1 64) [Reward.a_task; Reward.a_task]
    = Reward.Hung.
Proof.
  assert (Reward.reward_workers (Reward.example_args 1) <= 1) as H1 by (simpl; lia).
  split; [by split|].
  destruct (hang_without_pool Reward.stuck (λ l, l) (Reward.example_args 1) 64
              Reward.a_task [Reward.a_task] H1 eq_refl) as (_ & _ & _ & Hhung).
  exact Hhung.
Defined.



(** ** Facts about the aggregation of a batch *)

Section AggregationFacts.
Import Reward.

Variable scorer : string → string → json → list (string * json) → behaviour.
Variable order : list (Z * detail) → list (Z * detail).

(** *** Task collection *)

Lemma add_tasks_collected pl s_idx sample c :
  collected_for pl c →
  collected_for (pl ++ ((λ raw, (s_idx, sample, raw)) <$> responses sample))
    (add_tasks s_idx sample c).
Proof.
  unfold add_tasks. generalize (responses sample) as raws.
  intros raws. revert pl c. induction raws as [|raw raws IH]; intros pl c Hc.
  - simpl. by rewrite app_nil_r.
  - rewrite fmap_cons, cons_middle, app_assoc. simpl. apply IH.
    destruct Hc as [Hpos Hall]. split; simpl; [lia|].
    apply Forall2_app.
    + eapply Forall2_impl; [exact Hall|]. simpl.
      intros p t (Ht & Hl & Hg). split; [done|]. split; [|lia].
      rewrite lookup_insert_ne by lia. done.
    + constructor; [|constructor]. simpl. split; [done|]. split; [|lia].
      by rewrite lookup_insert_eq.
Qed.

Lemma plan_cons args it (batch : list (string * Sample)) :
  plan args (it :: batch)
  = (if skipped args it.2 then []
     else (λ raw, (it.1, it.2, raw)) <$> responses it.2) ++ plan args batch.
Proof. unfold plan. by rewrite bind_cons. Qed.

Lemma collect_tasks_collected args batch_name batch results :
  collected_for (plan args batch) (collect_tasks args batch_name batch results).
Proof.
  unfold collect_tasks.
  assert (∀ pl c, collected_for pl c →
            collected_for (pl ++ plan args batch)
              (foldl (λ c it,
                 if skipped args it.2
                 then {| tasks := tasks c; lookup := lookup c; next_gid := next_gid c;
                         rank_results := <[rank_key batch_name it.1 := it.2]> (rank_results c) |}
                 else add_tasks it.1 it.2 c) c batch)) as Hgen.
  { induction batch as [|[s_idx sample] batch IH]; intros pl c Hc.
    - change (plan args []) with (@nil (string * Sample * string)).
      simpl. by rewrite app_nil_r.
    - rewrite plan_cons, app_assoc. simpl. apply IH.
      destruct (skipped args sample).
      + rewrite app_nil_r. exact Hc.
      + by apply add_tasks_collected. }
  apply (Hgen [] _). split; simpl; [lia | constructor].
Qed.

Lemma plan_of_sample args (batch : list (string * Sample)) s_idx sample :
  NoDup batch.*1 →
  (s_idx, sample) ∈ batch →
  skipped args sample = false →
  filter (λ p : string * Sample * string, p.1.1 = s_idx) (plan args batch)
  = (λ raw, (s_idx, sample, raw)) <$> responses sample.
Proof.
  assert (Hmine : ∀ s b (raws : list string),
            filter (λ p : string * Sample * string, p.1.1 = s)
              ((λ raw, (s, b, raw)) <$> raws) = (λ raw, (s, b, raw)) <$> raws).
  { intros s b raws. induction raws as [|raw raws IH]; [done|].
    rewrite fmap_cons, filter_cons. simpl. rewrite decide_True by done. by rewrite IH. }
  assert (Hother : ∀ s s' b (raws : list string), s' ≠ s →
            filter (λ p : string * Sample * string, p.1.1 = s)
              ((λ raw, (s', b, raw)) <$> raws) = []).
  { intros s s' b raws Hne. induction raws as [|raw raws IH]; [done|].
    rewrite fmap_cons, filter_cons. simpl. by rewrite decide_False. }
  assert (Hrest : ∀ l : list (string * Sample), s_idx ∉ l.*1 →
            filter (λ p : string * Sample * string, p.1.1 = s_idx) (plan args l) = []).
  { induction l as [|[s' b] l IH]; intros Hnot; [done|].
    rewrite plan_cons, filter_app. simpl.
    rewrite fmap_cons in Hnot. apply not_elem_of_cons in Hnot as [Hne Hnot].
    rewrite IH by done. destruct (skipped args b); [done|].
    rewrite Hother by done. done. }
  induction batch as [|[s' b] batch IH]; intros Hnd Hin Hskip.
  { by apply elem_of_nil in Hin. }
  rewrite fmap_cons in Hnd. apply NoDup_cons in Hnd as [Hfresh Hnd].
  rewrite plan_cons, filter_app. simpl.
  apply elem_of_cons in Hin as [[= <- <-]|Hin].
  - rewrite Hskip, Hmine. rewrite Hrest by done.
    by rewrite app_nil_r.
  - assert (s' ≠ s_idx) as Hne.
    { intros ->. apply Hfresh. apply list_elem_of_fmap. by exists (s_idx, sample). }
    rewrite IH by done.
    destruct (skipped args b); [done|]. by rewrite Hother.
Qed.

(** *** Results and their routing *)

Lemma compute_single_reward_gid timeout t g d :
  compute_single_reward scorer timeout t = Done (g, d) → g = gid t.
Proof.
  unfold compute_single_reward, handlers.
  destruct (alarm_fires timeout _); [by intros [= <- _]|].
  destruct (call scorer t) as [seconds c|]; [|done].
  destruct (try_body (gid t) c) as [e|[g' d']] eqn:E.
  - destruct (class e); by intros [= <- _].
  - intros [= <- _]. destruct c as [[d0|[e|x]]|e]; simpl in E; congruence.
Qed.

Lemma map_rewards_done timeout ts rs :
  map_rewards scorer timeout ts = Done rs →
  Forall2 (λ t r, compute_single_reward scorer timeout t = Done r) ts rs.
Proof.
  revert rs. induction ts as [|t ts IH]; intros rs; simpl.
  - intros [= <-]. constructor.
  - destruct (compute_single_reward scorer timeout t) as [r| |] eqn:E; simpl; try done.
    destruct (map_rewards scorer timeout ts) as [rs'| |]; simpl; try done.
    intros [= <-]. constructor; [done | by apply IH].
Qed.

Lemma routed_cons lookup s_idx r rs :
  routed lookup s_idx (r :: rs)
  = (if decide (lookup !! r.1 = Some s_idx) then [r.2] else []) ++ routed lookup s_idx rs.
Proof. unfold routed. simpl. by case_decide. Qed.

Lemma route_done lookup yielded acc by_sample s_idx :
  route lookup yielded acc = Done by_sample →
  by_sample !! s_idx
  = match routed lookup s_idx yielded with
    | [] => acc !! s_idx
    | ds => Some (default [] (acc !! s_idx) ++ ds)
    end.
Proof.
  revert acc. induction yielded as [|[g d] yielded IH]; intros acc Hroute;
    simpl in Hroute.
  - by injection Hroute as <-.
  - destruct (lookup !! g) as [s|] eqn:Hg; [|done].
    rewrite (IH _ Hroute), routed_cons. simpl. rewrite Hg.
    destruct (decide (Some s = Some s_idx)) as [[= ->]|Hne].
    + rewrite lookup_insert_eq. simpl.
      destruct (routed lookup s_idx yielded); [done|]. by rewrite <- app_assoc.
    + rewrite lookup_insert_ne by congruence. done.
Qed.

(** The results of the planned tasks, routed to one sample, are the
    results of that sample's tasks, in task order. *)
Lemma routed_plan timeout (lookup : gmap Z string) s_idx pl ts rs :
  Forall2 (λ (p : string * Sample * string) t,
             t = task_for (gid t) p.1.2 p.2 ∧ lookup !! gid t = Some p.1.1) pl ts →
  Forall2 (λ t r, compute_single_reward scorer timeout t = Done r) ts rs →
  Forall2 (λ (p : string * Sample * string) d,
             ∃ g, compute_single_reward scorer timeout (task_for g p.1.2 p.2) = Done (g, d))
    (filter (λ p : string * Sample * string, p.1.1 = s_idx) pl)
    (routed lookup s_idx rs).
Proof.
  intros Hplan. revert rs. induction Hplan as [|p t pl ts [Ht Hl] _ IH]; intros rs Hrs.
  - apply Forall2_nil_inv_l in Hrs as ->. constructor.
  - apply Forall2_cons_inv_l in Hrs as ([g d] & rs' & Hr & Hrs' & ->).
    pose proof (compute_single_reward_gid _ _ _ _ Hr) as ->.
    rewrite filter_cons, routed_cons. simpl. rewrite Hl.
    destruct (decide (p.1.1 = s_idx)) as [Hs|Hs].
    + rewrite decide_True by congruence. simpl. constructor; [|by apply IH].
      exists (gid t). by rewrite <- Ht.
    + rewrite decide_False by congruence. by apply IH.
Qed.

(** *** Writing back *)

Lemma pass_count_flags threshold score_list flags :
  mapM (passes threshold) score_list = Some flags →
  length (filter (λ b, b = true) flags) = pass_count threshold score_list.
Proof.
  unfold pass_count. revert flags.
  induction score_list as [|s l IH]; intros flags; simpl.
  - by intros [= <-].
  - destruct (passes threshold s) as [b|] eqn:Hb; simpl; [|done].
    destruct (mapM (passes threshold) l) as [bs|]; simpl; [|done].
    intros [= <-]. rewrite !filter_cons, Hb.
    destruct b; simpl; by rewrite (IH bs).
Qed.

Lemma write_back_done threshold sample detailed_list sample' :
  write_back threshold sample detailed_list = Done sample' →
  ∃ score_list,
    detailed_scores sample' = Some detailed_list
    ∧ scores sample' = Some score_list
    ∧ mapM (dict_get "score") detailed_list = Some score_list
    ∧ pass_rate sample'
      = Some (rate (pass_count threshold score_list) (length score_list))
    ∧ responses sample' = responses sample.
Proof.
  unfold write_back.
  destruct (mapM (dict_get "score") detailed_list) as [score_list|]; [|done].
  destruct (mapM (passes threshold) score_list) as [flags|] eqn:Hflags; [|done].
  intros [= <-]. exists score_list. simpl.
  by rewrite (pass_count_flags _ _ _ Hflags).
Qed.

Lemma write_back_all_done threshold batch_name by_sample batch results batch' results' :
  write_back_all threshold batch_name by_sample batch results = Done (batch', results') →
  Forall2 (λ it it' : string * Sample,
             it'.1 = it.1
             ∧ match by_sample !! it.1 with
               | Some detailed_list =>
                   write_back threshold it.2 detailed_list = Done it'.2
               | None => it'.2 = it.2
               end) batch batch'.
Proof.
  revert results batch' results'.
  induction batch as [|[s_idx sample] batch IH]; intros results batch' results'; simpl.
  - intros [= <- _]. constructor.
  - destruct (by_sample !! s_idx) as [dl|] eqn:Hdl.
    + destruct (write_back threshold sample dl) as [sample'| |] eqn:Hwb; simpl; try done.
      destruct (write_back_all _ _ _ batch _) as [[b r]| |] eqn:Hrest; simpl; try done.
      intros [= <- _]. constructor; [|by eapply IH].
      simpl. by rewrite Hdl.
    + destruct (write_back_all _ _ _ batch _) as [[b r]| |] eqn:Hrest; simpl; try done.
      intros [= <- _]. constructor; [|by eapply IH].
      simpl. by rewrite Hdl.
Qed.

Lemma Forall2_elem_of_l {A B} (P : A → B → Prop) l k x :
  Forall2 P l k → x ∈ l → ∃ y, y ∈ k ∧ P x y.
Proof.
  induction 1 as [|a b l k Hab _ IH]; intros Hin.
  - by apply elem_of_nil in Hin.
  - apply elem_of_cons in Hin as [->|Hin].
    + exists b. split; [left | done].
    + destruct (IH Hin) as (y & Hy & HP). exists y. split; [by right | done].
Qed.

Lemma write_back_all_keys threshold batch_name by_sample batch results batch' results' :
  write_back_all threshold batch_name by_sample batch results = Done (batch', results') →
  batch'.*1 = batch.*1.
Proof.
  intros H%write_back_all_done.
  induction H as [|it it' l l' [Hk _] _ IH]; [done|].
  by rewrite !fmap_cons, Hk, IH.
Qed.

Lemma results_iter_done args pool ts yielded :
  (pool = true → ∀ l, order l ≡ₚ l) →
  results_iter scorer order args pool ts = Done yielded →
  ∃ rs, map_rewards scorer (timeout_for args pool) ts = Done rs
        ∧ yielded ≡ₚ rs ∧ (pool = false → yielded = rs).
Proof.
  intros Horder. unfold results_iter, timeout_for. destruct pool.
  - destruct (map_rewards _ _ ts) as [rs| |]; try done.
    intros [= <-]. exists rs. split_and!; [done | by apply Horder | done].
  - intros ->. by exists yielded.
Qed.

Lemma score_batch_writes_back args pool batch_name batch results batch' results' n :
  NoDup batch.*1 →
  (pool = true → ∀ l, order l ≡ₚ l) →
  score_batch scorer order args pool batch_name batch results
  = Done (batch', results', n) →
  batch'.*1 = batch.*1
  ∧ ∀ s_idx sample,
      (s_idx, sample) ∈ batch →
      skipped args sample = false →
      responses sample ≠ [] →
      ∃ sample' detailed_list score_list expected,
        (s_idx, sample') ∈ batch'
        ∧ detailed_scores sample' = Some detailed_list
        ∧ scores sample' = Some score_list
        ∧ mapM (dict_get "score") detailed_list = Some score_list
        ∧ length score_list = length (responses sample)
        ∧ pass_rate sample'
          = Some (rate (pass_count (correct_reward_threshold args) score_list)
                    (length score_list))
        ∧ Forall2 (λ raw d,
                     ∃ g, compute_single_reward scorer (timeout_for args pool)
                            (task_for g sample raw) = Done (g, d))
            (responses sample) expected
        ∧ detailed_list ≡ₚ expected
        ∧ (pool = false → detailed_list = expected).
Proof.
  intros Hnd Horder. unfold score_batch.
  pose proof (collect_tasks_collected args batch_name batch results) as [_ Hplan].
  set (c := collect_tasks args batch_name batch results) in *.
  assert (Hmine : ∀ s_idx sample,
            (s_idx, sample) ∈ batch → skipped args sample = false →
            responses sample ≠ [] → tasks c ≠ []).
  { intros s_idx sample Hin Hskip Hresp Hnil. rewrite Hnil in Hplan.
    apply Forall2_nil_inv_r in Hplan.
    pose proof (plan_of_sample args batch s_idx sample Hnd Hin Hskip) as Hf.
    rewrite Hplan in Hf. destruct (responses sample); done. }
  destruct (tasks c) as [|t ts] eqn:Hts.
  { intros [= <- _ _]. split; [done|].
    intros s_idx sample Hin Hskip Hresp. by destruct (Hmine s_idx sample). }
  rewrite <- Hts in *. clear Hmine.
  destruct (results_iter scorer order args pool (tasks c)) as [yielded| |] eqn:Hiter;
    simpl; try done.
  destruct (route (lookup c) yielded ∅) as [by_sample| |] eqn:Hroute; simpl; try done.
  destruct (write_back_all _ _ _ _ _) as [[b r]| |] eqn:Hwb; simpl; try done.
  intros [= <- _ _].
  split; [by eapply write_back_all_keys|].
  intros s_idx sample Hin Hskip Hresp.
  destruct (results_iter_done _ _ _ _ Horder Hiter) as (rs & Hrs & Hperm & Hseq).
  set (expected := routed (lookup c) s_idx rs).
  assert (Forall2 (λ raw d,
            ∃ g, compute_single_reward scorer (timeout_for args pool)
                   (task_for g sample raw) = Done (g, d))
            (responses sample) expected) as Hexp.
  { pose proof (routed_plan (timeout_for args pool) (lookup c) s_idx
                  (plan args batch) (tasks c) rs) as Hr.
    rewrite (plan_of_sample args batch s_idx sample Hnd Hin Hskip) in Hr.
    apply Forall2_fmap_l in Hr; [exact Hr | | by apply map_rewards_done].
    eapply Forall2_impl; [exact Hplan|]. simpl. tauto. }
  assert (routed (lookup c) s_idx yielded ≡ₚ expected) as Hdl.
  { unfold expected, routed. by rewrite Hperm. }
  assert (by_sample !! s_idx = Some (routed (lookup c) s_idx yielded)) as Hby.
  { rewrite (route_done _ _ _ _ s_idx Hroute).
    destruct (routed (lookup c) s_idx yielded) as [|d ds] eqn:Hr.
    - apply Permutation_length in Hdl. apply Forall2_length in Hexp.
      simpl in Hdl. destruct (responses sample); [done | simpl in *; lia].
    - by rewrite lookup_empty. }
  apply write_back_all_done in Hwb.
  destruct (Forall2_elem_of_l _ _ _ _ Hwb Hin) as ([s' sample'] & Hin' & Hk & Hw).
  simpl in Hk, Hw. subst s'. rewrite Hby in Hw.
  destruct (write_back_done _ _ _ _ Hw) as (score_list & Hd & Hs & Hm & Hp & _).
  exists sample', (routed (lookup c) s_idx yielded), score_list, expected.
  split_and!; try done.
  - rewrite <- (length_mapM _ _ _ Hm). rewrite (Permutation_length Hdl).
    symmetry. by eapply Forall2_length.
  - intros Hpool. unfold expected. by rewrite (Hseq Hpool).
Qed.

Lemma pass_count_details threshold detailed_list score_list :
  mapM (dict_get "score") detailed_list = Some score_list →
  pass_count threshold score_list
  = length (filter (λ d, dict_get "score" d ≫= passes threshold = Some true)
              detailed_list).
Proof.
  unfold pass_count. intros H. apply mapM_Some in H.
  induction H as [|d s dl sl Hd _ IH]; [done|].
  rewrite !filter_cons, Hd. simpl.
  destruct (decide (passes threshold s = Some true)); simpl; by rewrite IH.
Qed.

(** The pass rate does not depend on the order in which the results of a
    sample arrive. *)
Lemma pass_rate_of_details threshold detailed_list expected score_list :
  detailed_list ≡ₚ expected →
  mapM (dict_get "score") detailed_list = Some score_list →
  rate (pass_count threshold score_list) (length score_list)
  = rate (length (filter (λ d, dict_get "score" d ≫= passes threshold = Some true)
                    expected))
      (length expected).
Proof.
  intros Hperm Hm.
  rewrite (pass_count_details _ _ _ Hm), <- (length_mapM _ _ _ Hm).
  by rewrite Hperm.
Qed.

(** C8: the sequential path does what the claim says and the pool path
    does not.  When the scoring of a batch completes, every sample that
    is scored in this pass is written back with [detailed_scores] one per
    response, [scores] the ["score"] values taken from [detailed_scores]
    in the same order, and [pass_rate] the number of scores at or above
    the threshold over the number of scores, which is the number of the
    sample's responses whose score is at or above the threshold over the
    number of responses, in whatever order the results arrive; without
    scores the pass rate written is [0.0].  Without a pool the details
    are those computed for the responses, in response order.  With a
    pool they are in the order of completion, a rearrangement of it: for
    the shard of two batches of two samples with two responses each,
    threshold 1.0, the first response scoring 1.0 and the second 0.0,
    every sample ends with scores [1.0, 0.0] and pass rate 0.5 when
    scored without a pool, and with scores [0.0, 1.0] and pass rate 0.5
    when scored by a pool whose workers finish the tasks of a batch in
    reverse order. *)
Theorem scores_written_back :
  (∀ args pool batch_name batch results batch' results' n,
     NoDup batch.*1 →
     (pool = true → ∀ l, order l ≡ₚ l) →
     score_batch scorer order args pool batch_name batch results
     = Done (batch', results', n) →
     batch'.*1 = batch.*1
     ∧ ∀ s_idx sample,
         (s_idx, sample) ∈ batch →
         skipped args sample = false →
         responses sample ≠ [] →
         ∃ sample' detailed_list score_list expected,
           (s_idx, sample') ∈ batch'
           ∧ detailed_scores sample' = Some detailed_list
           ∧ scores sample' = Some score_list
           ∧ mapM (dict_get "score") detailed_list = Some score_list
           ∧ length score_list = length (responses sample)
           ∧ pass_rate sample'
             = Some (rate (pass_count (correct_reward_threshold args) score_list)
                       (length score_list))
           ∧ Forall2 (λ raw d,
                        ∃ g, compute_single_reward scorer (timeout_for args pool)
                               (task_for g sample raw) = Done (g, d))
               (responses sample) expected
           ∧ pass_rate sample'
             = Some (rate (length (filter
                                     (λ d, dict_get "score" d
                                           ≫= passes (correct_reward_threshold args)
                                           = Some true) expected))
                       (length (responses sample)))
           ∧ detailed_list ≡ₚ expected
           ∧ (pool = false → detailed_list = expected))
  ∧ (∀ threshold sample,
       ∃ sample', write_back threshold sample [] = Done sample'
                  ∧ scores sample' = Some []
                  ∧ pass_rate sample' = Some 0%Q)
  ∧ (∀ elapsed,
       ∃ out,
         score_rank_dir exact_match order (example_args 1) false shard elapsed = Done out
         ∧ files_after out = scored_shard [1; 0]%Q)
  ∧ (∀ elapsed,
       ∃ out,
         score_rank_dir exact_match (@rev _) (example_args 16) true shard elapsed
         = Done out
         ∧ files_after out = scored_shard [0; 1]%Q
         ∧ scores (scored_answers [0; 1]%Q) ≠ scores (scored_answers [1; 0]%Q)
         ∧ pass_rate (scored_answers [0; 1]%Q) = Some (1 # 2)%Q).
Proof.
  split_and!.
  - intros args pool batch_name batch results batch' results' n Hnd Horder Hdone.
    destruct (score_batch_writes_back _ _ _ _ _ _ _ _ Hnd Horder Hdone) as [Hkeys Hall].
    split; [done|]. intros s_idx sample Hin Hskip Hresp.
    destruct (Hall s_idx sample Hin Hskip Hresp)
      as (sample' & dl & sl & expected & H1 & H2 & H3 & H4 & H5 & H6 & H7 & H8 & H9).
    exists sample', dl, sl, expected. split_and!; try done.
    rewrite H6. f_equal.
    rewrite (pass_rate_of_details _ _ _ _ H8 H4).
    f_equal. rewrite <- H5, <- (length_mapM _ _ _ H4). symmetry.
    by apply Permutation_length.
  - intros threshold sample. eexists. split; [reflexivity|]. done.
  - intros elapsed. eexists. split; [by vm_compute|]. done.
  - intros elapsed. eexists. split_and!; [by vm_compute|done| |done].
    by vm_compute.
Qed.

End AggregationFacts.

Lemma scores_written_back_witness :
  let batch := [("0", Reward.two_answers); ("1", Reward.two_answers)] in
  let batch' := [("0", Reward.scored_answers [1; 0]%Q);
                 ("1", Reward.scored_answers [1; 0]%Q)] in
  ∃ results' n,
    (NoDup batch.*1
     ∧ (false = true → ∀ l : list (Z * detail), l ≡ₚ l)
     ∧ Reward.score_batch Reward.exact_match (λ l, l) (Reward.example_args 1) false
         "batch_00000.json" batch ∅ = Reward.Done (batch', results', n))
    ∧ batch'.*1 = batch.*1.
Proof.
  intros batch batch'.
  assert (NoDup batch.*1) as H1 by (apply (bool_decide_unpack _); by vm_compute).
  assert (false = true → ∀ l : list (Z * detail), l ≡ₚ l) as H2 by done.
  evar (results' : gmap string Sample). evar (n : nat).
  assert (Reward.score_batch Reward.exact_match (λ l, l) (Reward.example_args 1) false
            "batch_00000.json" batch ∅ = Reward.Done (batch', results', n)) as H3
    by (unfold results', n; vm_compute; reflexivity).
  exists results', n. split; [by split_and!|].
  destruct (scores_written_back Reward.exact_match (λ l, l)) as [Hgen _].
  exact (proj1 (Hgen _ _ _ _ _ _ _ _ H1 H2 H3)).
Defined.

(** ** Facts about the final summary *)

Section SummaryFacts.
Import Reward.

Variable scorer : string → string → json → list (string * json) → behaviour.
Variable order : list (Z * detail) → list (Z * detail).



Lemma main_summaries args cpu_count rank_dirs elapsed_of alive :
  summaries (main scorer order args cpu_count rank_dirs elapsed_of alive)
  = (score_ranks scorer order args
       (1 <? pool_workers (reward_workers args) cpu_count) elapsed_of rank_dirs 0).1.1
  ∧ ended (main scorer order args cpu_count rank_dirs elapsed_of alive)
    = (score_ranks scorer order args
         (1 <? pool_workers (reward_workers args) cpu_count) elapsed_of rank_dirs 0).2.
Proof.
  unfold main. destruct rank_dirs as [|rd rest]; [done|].
  destruct (score_ranks _ _ _ _ _ _ _) as [[written msgs] res].
  by destruct res.
Qed.


End SummaryFacts.



(** * Further properties of the code *)

(** ** Dataset preparation *)

Section DatasetFacts.
Import Shard Dataset.
Context {A : Type}.

Lemma select_take_drop (l : list A) (a b : Z) :
  0 <= a <= b → select l (a, b) = take (Z.to_nat b - Z.to_nat a) (drop (Z.to_nat a) l).
Proof. intros H. unfold select. simpl. f_equal. lia. Qed.

Lemma debug_slice (l : list A) :
  select l (0, Z.min 48 (Z.of_nat (length l))) = take 48 l.
Proof.
  unfold select. simpl. rewrite drop_0, Z.sub_0_r.
  destruct (decide (48 <= length l)%nat).
  - f_equal. lia.
  - rewrite !take_ge by lia. done.
Qed.

Lemma prepare_rows_debug debug S r (l : list A) :
  prepare_rows debug S r l
  = prepare_rows false S r (if debug then take 48 l else l).
Proof. unfold prepare_rows. destruct debug; [by rewrite debug_slice | done]. Qed.

Lemma prepare_rows_range S r (l : list A) :
  prepare_rows false S r l
  = if 1 <? S then select l (shard_range (Z.of_nat (length l)) S r) else l.
Proof. unfold prepare_rows, shard_range. by destruct (1 <? S). Qed.

Lemma concat_chunks (l : list A) (p n : nat) :
  concat ((λ i, take p (drop (i * p) l)) <$> seq 0 n) = take (n * p) l.
Proof.
  induction n as [|n IH]; [done|].
  rewrite seq_S, fmap_app, concat_app, IH. simpl.
  rewrite app_nil_r, take_take_drop. f_equal. lia.
Qed.

Lemma prepare_rows_cover_plain S (l : list A) :
  1 <= S → concat ((λ r, prepare_rows false S r l) <$> seqZ 0 S) = l.
Proof.
  intros HS.
  destruct (decide (S = 1)) as [->|Hne].
  { rewrite seqZ_cons by lia. rewrite seqZ_nil by lia. simpl. by rewrite app_nil_r. }
  set (T := Z.of_nat (length l)).
  destruct (per_rank_bounds T S ltac:(lia) HS) as [Hp Hlast]. fold T in Hp, Hlast.
  set (p := Z.to_nat (T / S)).
  assert (seqZ 0 S = seqZ 0 (S - 1) ++ [S - 1]) as ->.
  { replace S with ((S - 1) + 1) at 1 by lia.
    rewrite seqZ_app by lia. rewrite (seqZ_cons (0 + (S - 1))) by lia.
    rewrite (seqZ_nil (Z.succ (0 + (S - 1)))) by lia. done. }
  rewrite fmap_app, concat_app. simpl. rewrite app_nil_r.
  assert (concat ((λ r, prepare_rows false S r l) <$> seqZ 0 (S - 1))
          = take (Z.to_nat (S - 1) * p) l) as ->.
  { rewrite <- concat_chunks. f_equal. unfold seqZ.
    rewrite <- list_fmap_compose. apply list_fmap_ext.
    intros i x [-> Hi]%lookup_seq. simpl.
    rewrite prepare_rows_range. destruct (Z.ltb_spec 1 S); [|lia].
    fold T. rewrite shard_range_eq by lia. rewrite decide_False by lia.
    unfold select. simpl. f_equal; [|f_equal]; unfold p; nia. }
  rewrite prepare_rows_range. destruct (Z.ltb_spec 1 S); [|lia].
  fold T. rewrite shard_range_eq by lia. rewrite decide_True by lia.
  unfold select. simpl.
  replace (Z.to_nat ((S - 1) * (T / S))) with (Z.to_nat (S - 1) * p)%nat
    by (unfold p; nia).
  rewrite (take_ge (drop _ _)) by (rewrite length_drop; unfold T in *; nia).
  apply take_drop.
Qed.

(** X1: over the ranks 0..S-1 of a run with S >= 1 shards, the row lists
    that [prepare_dataset] selects, put one after the other in rank order,
    are the dataset itself: every row goes to exactly one rank and the
    order is kept.  In debug mode the same holds for the first 48 rows. *)
Theorem prepare_dataset_covers (debug : bool) S (dataset : list A) :
  1 <= S →
  concat ((λ r, prepare_rows debug S r dataset) <$> seqZ 0 S)
  = if debug then take 48 dataset else dataset.
Proof.
  intros HS.
  rewrite (list_fmap_ext _
             (λ r, prepare_rows false S r (if debug then take 48 dataset else dataset)))
    by (intros i r _; apply prepare_rows_debug).
  by apply prepare_rows_cover_plain.
Qed.

(** X2: rank r of S > 1 shards gets exactly [T // S] rows, except the last
    rank, which gets the [T // S] rows and the [T mod S] left over; [T] is
    the number of rows after the debug slice, at most 48 in debug mode. *)
Theorem prepare_dataset_sizes (debug : bool) S r (dataset : list A) :
  1 < S → 0 <= r < S →
  let T := if debug then Z.min 48 (Z.of_nat (length dataset))
           else Z.of_nat (length dataset) in
  Z.of_nat (length (prepare_rows debug S r dataset))
  = if decide (r = S - 1) then T / S + T `mod` S else T / S.
Proof.
  intros HS Hr T.
  rewrite prepare_rows_debug, prepare_rows_range.
  destruct (Z.ltb_spec 1 S); [|lia].
  set (l := if debug then take 48 dataset else dataset).
  assert (Z.of_nat (length l) = T) as Hl.
  { unfold l, T. destruct debug; [|done]. rewrite length_take. lia. }
  rewrite Hl, shard_range_eq by lia.
  destruct (per_rank_bounds T S ltac:(lia) ltac:(lia)) as [Hp Hlast].
  pose proof (Z.div_mod T S ltac:(lia)) as Hdm.
  pose proof (Z.mod_pos_bound T S ltac:(lia)) as Hm.
  unfold select. simpl. rewrite length_take, length_drop.
  destruct (decide (r = S - 1)) as [->|Hne]; nia.
Qed.

End DatasetFacts.

Lemma prepare_dataset_covers_witness :
  1 <= 3
  ∧ concat ((λ r, Dataset.prepare_rows false 3 r [10; 11; 12; 13; 14; 15; 16]%nat)
            <$> seqZ 0 3)
    = [10; 11; 12; 13; 14; 15; 16]%nat.
Proof.
  split; [lia|].
  exact (prepare_dataset_covers false 3 [10; 11; 12; 13; 14; 15; 16]%nat ltac:(lia)).
Defined.

Lemma prepare_dataset_sizes_witness :
  (1 < 3 ∧ 0 <= 2 < 3)
  ∧ Z.of_nat (length (Dataset.prepare_rows false 3 2 [10; 11; 12; 13; 14; 15; 16]%nat))
    = 3.
Proof.
  split; [lia|].
  exact (prepare_dataset_sizes false 3 2 [10; 11; 12; 13; 14; 15; 16]%nat
           ltac:(lia) ltac:(lia)).
Defined.

Lemma filter_ext_in {A} (P Q : A → Prop)
    `{!∀ x, Decision (P x), !∀ x, Decision (Q x)} (l : list A) :
  (∀ x, x ∈ l → P x ↔ Q x) → filter P l = filter Q l.
Proof.
  induction l as [|a l IH]; intros Hext; [done|].
  rewrite !filter_cons, IH by (intros x Hx; apply Hext; by right).
  pose proof (Hext a ltac:(left)) as Ha.
  destruct (decide (P a)), (decide (Q a)); tauto || done.
Qed.

(** X3: after the column clean-up of [prepare_dataset] the dataset has
    exactly those of its columns that are referenced downstream, in their
    original order: no required column is dropped and no other is kept. *)
Theorem kept_columns_required (column_names : list string) :
  Dataset.kept_columns column_names
  = filter (λ c, c ∈ Dataset.required_cols) column_names.
Proof.
  unfold Dataset.kept_columns.
  destruct (Dataset.cols_to_drop column_names) as [|d ds] eqn:Hdrop.
  - symmetry. induction column_names as [|c cs IH]; [done|].
    unfold Dataset.cols_to_drop in Hdrop. rewrite filter_cons in Hdrop.
    destruct (decide (c ∉ Dataset.required_cols)) as [|Hin]; [done|].
    rewrite filter_cons, decide_True by (by apply dec_stable).
    f_equal. by apply IH.
  - rewrite <- Hdrop. unfold Dataset.remove_columns, Dataset.cols_to_drop.
    apply filter_ext_in. intros c Hc. rewrite list_elem_of_filter. split.
    + intros Hnot. apply dec_stable. intros Hreq. apply Hnot. done.
    + intros Hreq [Hnot _]. done.
Qed.

(** ** Output locations *)

Section PathFacts.
Import Py Checkpoint Paths.

Lemma string_app_assoc (a b c : string) : (a +:+ b) +:+ c = a +:+ b +:+ c.
Proof.
  induction a as [|x a IH]; [done|].
  change (String x ((a +:+ b) +:+ c) = String x (a +:+ b +:+ c)). by rewrite IH.
Qed.

Lemma join2_relative path :
  ∃ pfx, ∀ b, strip_prefix "/" b = None → join2 path b = pfx +:+ b.
Proof.
  destruct (bool_decide (path = EmptyString) || endswith path "/") eqn:E.
  - exists path. intros b Hb. unfold join2. by rewrite Hb, E.
  - exists (path +:+ "/"). intros b Hb. unfold join2. rewrite Hb, E.
    by rewrite string_app_assoc.
Qed.

Lemma endswith_sep_false (sep : ascii) a d :
  d ≠ EmptyString →
  all_chars (λ c, bool_decide (c ≠ sep)) d = true →
  endswith (a +:+ d) (String sep EmptyString) = false.
Proof.
  intros Hd Hall. induction a as [|x a IH].
  - change (EmptyString +:+ d) with d.
    induction d as [|c d IHd]; [done|].
    cbn in Hall. apply andb_true_iff in Hall as [Hc Hall].
    apply bool_decide_eq_true in Hc.
    rewrite endswith_unfold. rewrite decide_False by (intros [= ? ?]; done).
    destruct d as [|c' d]; [done|]. by apply IHd.
  - change (String x a +:+ d) with (String x (a +:+ d)).
    rewrite endswith_unfold. rewrite decide_False; [done|].
    intros [= _ E]. destruct a; [exact (Hd E)|done].
Qed.

Lemma str_of_int_nonempty z : str_of_int z ≠ EmptyString.
Proof.
  intros E. pose proof (int_of_str_of_int z) as H. rewrite E in H. done.
Qed.

(** The directory of a rank and the artifact of a batch, as plain text:
    a prefix fixed by the three path arguments, then the rank, then the
    artifact name. *)
Lemma rank_output_dir_shape output_dir dataset model :
  ∃ pfx, ∀ r,
    rank_output_dir output_dir dataset model r = pfx +:+ "dp" +:+ str_of_int r ∧
    ∀ idx, batch_out output_dir dataset model r idx
           = pfx +:+ "dp" +:+ str_of_int r +:+ String "/" (batch_file_name idx).
Proof.
  destruct (join2_relative (root_dir output_dir dataset model)) as [pfx Hpfx].
  exists pfx. intros r.
  assert (rank_output_dir output_dir dataset model r = pfx +:+ "dp" +:+ str_of_int r) as Hr.
  { unfold rank_output_dir, join. cbn [foldl]. by rewrite Hpfx. }
  split; [done|]. intros idx. unfold batch_out, join. cbn [foldl].
  rewrite Hr. unfold join2. change (strip_prefix "/" (batch_file_name idx)) with (@None string).
  replace (pfx +:+ "dp" +:+ str_of_int r) with ((pfx +:+ "dp") +:+ str_of_int r)
    by apply string_app_assoc.
  rewrite endswith_sep_false.
  - rewrite bool_decide_eq_false_2.
    + cbn [orb]. by rewrite !string_app_assoc.
    + intros E. destruct pfx; discriminate E.
  - apply str_of_int_nonempty.
  - rewrite str_of_int_signed. by apply signed_no_char.
Qed.

(** X4: two ranks never share an output directory, and no two (rank,
    batch) pairs share an artifact path, whatever the output directory,
    dataset path and model path are. *)
Theorem output_paths_distinct output_dir dataset model (r r' idx idx' : Z) :
  (r ≠ r' → rank_output_dir output_dir dataset model r
            ≠ rank_output_dir output_dir dataset model r') ∧
  ((r, idx) ≠ (r', idx') → batch_out output_dir dataset model r idx
                           ≠ batch_out output_dir dataset model r' idx').
Proof.
  destruct (rank_output_dir_shape output_dir dataset model) as [pfx Hpfx].
  destruct (Hpfx r) as [Hr Hb], (Hpfx r') as [Hr' Hb'].
  split.
  - intros Hne E. rewrite Hr, Hr' in E. apply Hne.
    do 2 apply (inj (String.append _)) in E.
    by apply (inj str_of_int).
  - intros Hne E. rewrite Hb, Hb' in E. apply Hne.
    do 2 apply (inj (String.append _)) in E.
    apply app_sep_inj in E as [E1 E2];
      try (rewrite str_of_int_signed; by apply signed_no_char).
    apply (inj str_of_int) in E1. apply batch_file_name_inj in E2. congruence.
Qed.

End PathFacts.

Lemma output_paths_distinct_witness :
  Paths.batch_out "out" "data/math.parquet" "org/model" 0 1
  ≠ Paths.batch_out "out" "data/math.parquet" "org/model" 1 1.
Proof.
  apply (proj2 (output_paths_distinct "out" "data/math.parquet" "org/model" 0 1 1 1)).
  intros [=].
Defined.

(** ** The reward pass: workers and timeouts *)

Section WorkerFacts.
Import Py Reward.

Variable scorer : string → string → json → list (string * json) → behaviour.
Variable order : list (Z * detail) → list (Z * detail).

Lemma pool_condition (requested cpu_count : Z) :
  0 <= cpu_count →
  1 <= pool_workers requested cpu_count
  ∧ (1 < pool_workers requested cpu_count ↔ 1 < requested ∧ 3 <= cpu_count).
Proof.
  intros Hcpu. unfold pool_workers.
  pose proof (Z.div_mod cpu_count 8 ltac:(lia)) as Hdiv.
  pose proof (Z.mod_pos_bound cpu_count 8 ltac:(lia)) as Hmod.
  destruct (Z.eqb_spec cpu_count 0) as [->|Hne];
    destruct (Z.leb_spec requested 1); change (1 / 8) with 0 in *; lia.
Qed.

(** X5: the number of worker processes.  It is at least one and at most
    the requested number; a pool is built (more than one worker) exactly
    when more than one worker is requested on a machine with at least
    three CPUs, and then the workers leave the reserved CPUs, an eighth of
    the machine and at least one, free. *)
Theorem pool_workers_bounds (requested cpu_count : Z) :
  0 <= cpu_count →
  let workers := pool_workers requested cpu_count in
  1 <= workers
  ∧ (1 <= requested → workers <= requested)
  ∧ (1 < workers ↔ 1 < requested ∧ 3 <= cpu_count)
  ∧ (1 < workers → workers + Z.max 1 (cpu_count / 8) <= cpu_count).
Proof.
  intros Hcpu workers. unfold workers, pool_workers.
  pose proof (Z.div_mod cpu_count 8 ltac:(lia)) as Hdiv.
  pose proof (Z.mod_pos_bound cpu_count 8 ltac:(lia)) as Hmod.
  destruct (Z.eqb_spec cpu_count 0) as [->|Hne];
    destruct (Z.leb_spec requested 1); change (1 / 8) with 0 in *; lia.
Qed.

Lemma compute_single_reward_armed n t :
  0 < n → compute_single_reward scorer (Some n) t ≠ Hung.
Proof.
  intros Hn. unfold compute_single_reward.
  destruct (alarm_fires (Some n) (call scorer t)) eqn:Halarm; [done|].
  destruct (call scorer t) as [seconds c|].
  - destruct (try_body (gid t) c) as [e|r]; [|done].
    unfold handlers. by destruct (class e).
  - cbn in Halarm. apply andb_false_iff in Halarm as [Halarm|]; [|done].
    apply Z.ltb_ge in Halarm. lia.
Qed.



End WorkerFacts.

Lemma pool_workers_bounds_witness :
  0 <= 8 ∧ Reward.pool_workers 16 8 = 7 ∧ 7 + Z.max 1 (8 / 8) <= 8.
Proof.
  split; [lia|]. split; [reflexivity|].
  exact (proj2 (proj2 (proj2 (pool_workers_bounds 16 8 ltac:(lia)))) ltac:(reflexivity)).
Defined.


(** ** The reward pass: single tasks *)

Section TaskFacts.
Import Py Reward.

Variable scorer : string → string → json → list (string * json) → behaviour.
Variable order : list (Z * detail) → list (Z * detail).

(** X7: on a machine with at most two CPUs no pool is built, however many
    workers are requested: the tasks run in the main process without a
    timeout, and a task whose scoring call never returns blocks the batch. *)
Theorem hang_on_small_machine args (cpu_count : Z) t rest :
  0 <= cpu_count <= 2 →
  call scorer t = Hangs →
  let workers := pool_workers (reward_workers args) cpu_count in
  workers = 1
  ∧ task_timeout_global workers (task_timeout args) = None
  ∧ results_iter scorer order args (1 <? workers) (t :: rest) = Hung.
Proof.
  intros Hcpu Hcall workers.
  assert (workers = 1) as ->.
  { unfold workers.
    destruct (pool_condition (reward_workers args) cpu_count) as [? [? _]]; [lia|].
    destruct (decide (1 < pool_workers (reward_workers args) cpu_count)); lia. }
  split_and!; try done.
  unfold results_iter. simpl. unfold compute_single_reward. by rewrite Hcall.
Qed.

(** X8: a scoring call that returns in time is passed on as it is: a dict
    that has a score is returned unchanged, and a plain number becomes the
    dict with that score alone. *)
Theorem scored_result_returned timeout t :
  alarm_fires timeout (call scorer t) = false →
  (∀ seconds d v,
     call scorer t = Completes seconds (Returns (Structured d)) →
     dict_get "score" d = Some v →
     compute_single_reward scorer timeout t = Done (gid t, d))
  ∧ (∀ seconds x,
       call scorer t = Completes seconds (Returns (Plain (inr x))) →
       compute_single_reward scorer timeout t = Done (gid t, [("score", JNum x)])).
Proof.
  intros Halarm. unfold compute_single_reward. rewrite Halarm. split.
  - intros seconds d v -> Hv. simpl. rewrite Hv. simpl.
    by rewrite dict_set_present.
  - intros seconds x ->. done.
Qed.

Lemma strip_prefix_spec p s r : strip_prefix p s = Some r ↔ s = p +:+ r.
Proof.
  revert s. induction p as [|a p IH]; intros s.
  - change (EmptyString +:+ r) with r. simpl. split; congruence.
  - change (String a p +:+ r) with (String a (p +:+ r)).
    destruct s as [|b s]; simpl; [done|].
    destruct (decide (a = b)) as [->|Hne].
    + rewrite IH. split; congruence.
    + split; [done|]. by intros [= <- _].
Qed.

Lemma after_marker_unfold marker s :
  after_marker marker s
  = match strip_prefix marker s with
    | Some rest => Some rest
    | None => match s with
              | String _ r => after_marker marker r
              | EmptyString => None
              end
    end.
Proof. by destruct s. Qed.

Lemma after_marker_none marker s :
  (∀ pre r, s ≠ pre +:+ marker +:+ r) → after_marker marker s = None.
Proof.
  induction s as [|c s IH]; intros Hno; rewrite after_marker_unfold.
  - destruct (strip_prefix marker EmptyString) as [r|] eqn:E; [|done].
    apply strip_prefix_spec in E. by destruct (Hno EmptyString r).
  - destruct (strip_prefix marker (String c s)) as [r|] eqn:E.
    + apply strip_prefix_spec in E. by destruct (Hno EmptyString r).
    + apply IH. intros pre r ->. by apply (Hno (String c pre) r).
Qed.

Lemma after_marker_first marker pre r :
  (∀ pre' r', pre +:+ marker +:+ r = pre' +:+ marker +:+ r' →
              (String.length pre <= String.length pre')%nat) →
  after_marker marker (pre +:+ marker +:+ r) = Some r.
Proof.
  induction pre as [|c pre IH]; intros Hmin; rewrite after_marker_unfold.
  - change (EmptyString +:+ marker +:+ r) with (marker +:+ r).
    by rewrite (proj2 (strip_prefix_spec marker (marker +:+ r) r) eq_refl).
  - destruct (strip_prefix marker (String c pre +:+ marker +:+ r)) as [r'|] eqn:E.
    + apply strip_prefix_spec in E.
      specialize (Hmin EmptyString r' E). simpl in Hmin. lia.
    + change (String c pre +:+ marker +:+ r) with (String c (pre +:+ marker +:+ r)).
      apply IH. intros pre' r' E'.
      specialize (Hmin (String c pre') r').
      change (String c pre' +:+ marker +:+ r') with (String c (pre' +:+ marker +:+ r')) in Hmin.
      change (String c pre +:+ marker +:+ r) with (String c (pre +:+ marker +:+ r)) in Hmin.
      rewrite E' in Hmin. specialize (Hmin eq_refl). simpl in Hmin. lia.
Qed.

(** X9: what is scored of a response.  A response without the closing
    reasoning tag is scored whole; otherwise the text after the first
    closing tag is scored, later tags staying in it. *)
Theorem strip_reasoning_first raw :
  ((∀ pre r, raw ≠ pre +:+ "</think>" +:+ r) → strip_reasoning raw = raw)
  ∧ (∀ pre r,
       raw = pre +:+ "</think>" +:+ r →
       (∀ pre' r', raw = pre' +:+ "</think>" +:+ r' →
                   (String.length pre <= String.length pre')%nat) →
       strip_reasoning raw = r).
Proof.
  unfold strip_reasoning. split.
  - intros Hno. by rewrite after_marker_none.
  - intros pre r -> Hmin. by rewrite after_marker_first.
Qed.

End TaskFacts.

Lemma hang_on_small_machine_witness :
  Reward.results_iter Reward.stuck id (Reward.example_args 16)
    (1 <? Reward.pool_workers 16 2) [Reward.a_task] = Reward.Hung.
Proof.
  apply (hang_on_small_machine Reward.stuck id (Reward.example_args 16) 2 Reward.a_task []);
    [lia | reflexivity].
Defined.

Lemma scored_result_returned_witness :
  Reward.alarm_fires (Some 35) (Reward.call Reward.exact_match Reward.a_task) = false
  ∧ Reward.compute_single_reward Reward.exact_match (Some 35) Reward.a_task
    = Reward.Done (7, [("score", JNum 1)]).
Proof.
  split; [reflexivity|].
  apply (proj2 (scored_result_returned Reward.exact_match (Some 35) Reward.a_task eq_refl) 1 1%Q).
  reflexivity.
Defined.

Lemma strip_reasoning_first_witness :
  Reward.strip_reasoning "<think>a</think>b</think>c" = "b</think>c".
Proof.
  apply (proj2 (strip_reasoning_first "<think>a</think>b</think>c") "<think>a" "b</think>c");
    [reflexivity|].
  intros pre' r' E.
  do 8 (destruct pre' as [|? pre']; [discriminate E|injection E as _ E]).
  simpl. lia.
Defined.

(** ** The generation pass: one batch *)

Section BatchFacts.
Import Py Checkpoint Runner.

Lemma process_output_is_Some bd i texts :
  is_Some (process_output bd i texts)
  ↔ (i < length (data_source bd))%nat
    ∧ (i < length (reward_model_ground_truth bd))%nat
    ∧ (i < length (prompt bd))%nat
    ∧ Forall (λ kc : string * list json, (i < length kc.2)%nat) (extra_info_columns bd).
Proof.
  unfold process_output.
  rewrite <- !lookup_lt_is_Some.
  assert (is_Some (mapM (λ kc : string * list json, (λ v, (kc.1, v)) <$> kc.2 !! i)
                     (extra_info_columns bd))
          ↔ Forall (λ kc : string * list json, (i < length kc.2)%nat)
              (extra_info_columns bd)) as <-.
  { rewrite mapM_is_Some. apply Forall_proper; [|done].
    intros kc. simpl. rewrite fmap_is_Some. apply lookup_lt_is_Some. }
  destruct (data_source bd !! i); simpl; [|split; [by intros [? ?]|by intros [[? ?] _]]].
  destruct (reward_model_ground_truth bd !! i); simpl;
    [|split; [by intros [? ?]|by intros (_ & [? ?] & _)]].
  destruct (prompt bd !! i); simpl;
    [|split; [by intros [? ?]|by intros (_ & _ & [? ?] & _)]].
  destruct (mapM _ (extra_info_columns bd)); simpl.
  - split; [eauto 10|by eexists].
  - split; [by intros [? ?]|by intros (_ & _ & _ & [? ?])].
Qed.

Lemma process_output_Some bd i texts r :
  process_output bd i texts = Some r →
  responses r = texts
  ∧ data_source bd !! i = Some (source r)
  ∧ reward_model_ground_truth bd !! i = Some (ground_truth r)
  ∧ prompt bd !! i = Some (messages r)
  ∧ question r = first_user_content (messages r)
  ∧ (extra_info r).*1 = (extra_info_columns bd).*1
  ∧ scores r = None ∧ detailed_scores r = None ∧ pass_rate r = None.
Proof.
  unfold process_output.
  destruct (data_source bd !! i) as [ds|]; simpl; [|done].
  destruct (reward_model_ground_truth bd !! i) as [gt|]; simpl; [|done].
  destruct (prompt bd !! i) as [msgs|]; simpl; [|done].
  destruct (mapM _ (extra_info_columns bd)) as [extra|] eqn:E; simpl; [|done].
  intros [= <-]. simpl. split_and!; try done.
  apply mapM_Some in E. induction E as [|kc kv cols extra Hkv _ IH]; [done|].
  rewrite !fmap_cons, IH. f_equal.
  destruct (kc.2 !! i); simpl in Hkv; [|done]. by injection Hkv as <-.
Qed.

(** X10: the samples built from the outputs of a batch.  The call fails
    (with an [IndexError]) exactly when some column of the batch is
    shorter than the outputs; otherwise there is one sample per output, in
    output order, which carries the completions of that output, the
    fields of the same row of the batch, the first user message as its
    question, the names of the auxiliary columns, and no score. *)
Theorem process_batch_outputs_spec outputs bd :
  (is_Some (process_batch_outputs outputs bd)
   ↔ outputs = []
     ∨ ((length outputs ≤ length (data_source bd))%nat
        ∧ (length outputs ≤ length (reward_model_ground_truth bd))%nat
        ∧ (length outputs ≤ length (prompt bd))%nat
        ∧ Forall (λ kc : string * list json, (length outputs ≤ length kc.2)%nat)
            (extra_info_columns bd)))
  ∧ ∀ batch_results,
      process_batch_outputs outputs bd = Some batch_results →
      length batch_results = length outputs
      ∧ ∀ i r, batch_results !! i = Some r →
          outputs !! i = Some (responses r)
          ∧ data_source bd !! i = Some (source r)
          ∧ reward_model_ground_truth bd !! i = Some (ground_truth r)
          ∧ prompt bd !! i = Some (messages r)
          ∧ question r = first_user_content (messages r)
          ∧ (extra_info r).*1 = (extra_info_columns bd).*1
          ∧ scores r = None.
Proof.
  unfold process_batch_outputs. split.
  - rewrite mapM_is_Some, Forall_lookup. split.
    + intros Hall. destruct (decide (outputs = [])) as [|Hne]; [by left|]. right.
      assert (∃ texts, outputs !! (length outputs - 1)%nat = Some texts) as [texts Hlast].
      { apply lookup_lt_is_Some. destruct outputs; [done|]. simpl. lia. }
      specialize (Hall (length outputs - 1)%nat ((length outputs - 1)%nat, texts)).
      simpl in Hall. rewrite process_output_is_Some in Hall.
      destruct Hall as (? & ? & ? & Hcols).
      { apply lookup_zip_with_Some. exists (length outputs - 1)%nat, texts.
        split_and!; [done| |done]. apply lookup_seq. split; [done|].
        destruct outputs; [done|]. simpl. lia. }
      split_and!; try lia. eapply Forall_impl; [exact Hcols|]. simpl. lia.
    + intros Hlen i [j texts] Hi. simpl.
      apply lookup_zip_with_Some in Hi as (j' & texts' & [= <- <-] & Hj & Htexts).
      apply lookup_seq in Hj as [-> Hlt]. simpl in *.
      destruct Hlen as [->|(? & ? & ? & Hcols)]; [simpl in Hlt; lia|].
      apply process_output_is_Some. split_and!; try lia.
      eapply Forall_impl; [exact Hcols|]. simpl. lia.
  - intros batch_results Hsome.
    pose proof (length_mapM _ _ _ Hsome) as Hlen.
    rewrite length_zip, length_seq, Nat.min_id in Hlen.
    split; [done|]. intros i r Hr.
    apply mapM_Some in Hsome.
    destruct (Forall2_lookup_r _ _ _ _ _ Hsome Hr) as ([j texts] & Hi & Hout).
    apply lookup_zip_with_Some in Hi as (j' & texts' & [= <- <-] & Hj & Htexts).
    apply lookup_seq in Hj as [-> _]. simpl in *.
    apply process_output_Some in Hout as (<- & ? & ? & ? & ? & ? & ? & _).
    done.
Qed.

End BatchFacts.

Lemma process_batch_outputs_spec_witness :
  ∃ batch_results,
    Runner.process_batch_outputs [["a"; "b"]; ["c"]] (Runner.batch_of None ["q0"; "q1"])
    = Some batch_results
    ∧ length batch_results = 2%nat.
Proof.
  eexists. split; [reflexivity|].
  apply (proj2 (process_batch_outputs_spec [["a"; "b"]; ["c"]]
                  (Runner.batch_of None ["q0"; "q1"])) _ eq_refl).
Defined.

(** ** The generation pass: the batch loop *)

Section LoopFacts.
Import Py Checkpoint Runner Batches.

Variable chat : list (list Message) → py_exn + list (list string).

Lemma batch_loop_cons_ok idx bd rest st a :
  batch_artifact chat bd = inr a →
  batch_loop chat idx (bd :: rest) st
  = batch_loop chat (idx + 1) rest
      {| outcome := outcome st;
         store := write_file (batch_file_name idx) (Some a) (store st);
         results := merge_batch idx a (results st);
         trace := trace st ++ batch_events idx [bd] |}.
Proof.
  unfold batch_artifact. simpl.
  destruct (negb _); [done|].
  destruct (chat (prompt bd)) as [e|outputs]; [done|].
  destruct (process_batch_outputs outputs bd) as [batch_results|]; [|done].
  intros [= <-]. by rewrite <- !app_assoc.
Qed.

Lemma batch_loop_cons_fail idx bd rest st e :
  batch_artifact chat bd = inl e →
  ∃ events,
    batch_loop chat idx (bd :: rest) st
    = {| outcome := Some e; store := store st; results := results st;
         trace := trace st ++ Generating idx (length (reward_model_ground_truth bd)) :: events |}
    ∧ ∀ ev, ev ∈ events → ev = Chat idx (prompt bd).
Proof.
  unfold batch_artifact. simpl.
  destruct (negb _).
  { intros [= <-]. exists []. split; [done|]. by intros ? ?%elem_of_nil. }
  destruct (chat (prompt bd)) as [e'|outputs].
  { intros [= <-]. exists [Chat idx (prompt bd)]. unfold raise, log. simpl.
    rewrite <- app_assoc. split; [done|]. by intros ? ->%list_elem_of_singleton. }
  destruct (process_batch_outputs outputs bd) as [batch_results|]; [done|].
  intros [= <-]. exists [Chat idx (prompt bd)]. unfold raise, log. simpl.
  rewrite <- app_assoc. split; [done|]. by intros ? ->%list_elem_of_singleton.
Qed.

(** The loop over batches that are all processed. *)
Lemma batch_loop_done idx it st contents :
  artifacts chat it = Some contents →
  batch_loop chat idx it st
  = {| outcome := outcome st;
       store := foldl (λ d f, write_file f.1 f.2 d) (store st) (batches_from idx contents);
       results := load_results (indexed (batches_from idx contents)) (results st);
       trace := trace st ++ batch_events idx it |}.
Proof.
  unfold artifacts. intros H. apply mapM_Some in H. revert idx st.
  induction H as [|bd a it contents Ha _ IH]; intros idx st.
  - simpl. rewrite app_nil_r. by destruct st.
  - destruct (batch_artifact chat bd) as [e|a'] eqn:E; [done|]. injection Ha as ->.
    rewrite (batch_loop_cons_ok _ _ _ _ _ E), IH.
    rewrite indexed_batches_from_cons. simpl. by rewrite <- !app_assoc.
Qed.

(** A loop that ends without an exception has processed every batch. *)
Lemma batch_loop_finished idx it st :
  outcome (batch_loop chat idx it st) = None → is_Some (artifacts chat it).
Proof.
  unfold artifacts. rewrite mapM_is_Some. revert idx st.
  induction it as [|bd it IH]; intros idx st Hok; [constructor|].
  destruct (batch_artifact chat bd) as [e|a] eqn:E.
  - destruct (batch_loop_cons_fail idx bd it st e E) as (events & Heq & _).
    rewrite Heq in Hok. done.
  - rewrite (batch_loop_cons_ok _ _ _ _ _ E) in Hok.
    constructor; [simpl; by rewrite E | by eapply IH].
Qed.

(** The data of the loop depends on the data it starts from alone. *)
Lemma batch_loop_ext idx it st st' :
  outcome st = outcome st' → store st = store st' → results st = results st' →
  outcome (batch_loop chat idx it st) = outcome (batch_loop chat idx it st')
  ∧ store (batch_loop chat idx it st) = store (batch_loop chat idx it st')
  ∧ results (batch_loop chat idx it st) = results (batch_loop chat idx it st').
Proof.
  revert idx st st'. induction it as [|bd it IH]; intros idx st st' Ho Hs Hr; [done|].
  destruct (batch_artifact chat bd) as [e|a] eqn:E.
  - destruct (batch_loop_cons_fail idx bd it st e E) as (? & -> & _).
    destruct (batch_loop_cons_fail idx bd it st' e E) as (? & -> & _). done.
  - rewrite !(batch_loop_cons_ok _ _ _ _ _ E). apply IH; simpl; congruence.
Qed.

Lemma write_file_fresh name data (dir : directory) :
  name ∉ dir.*1 → write_file name data dir = dir ++ [(name, data)].
Proof.
  induction dir as [|[n d] dir IH]; intros Hnot; simpl; [done|].
  rewrite fmap_cons, not_elem_of_cons in Hnot. destruct Hnot as [Hne Hnot]. simpl in Hne.
  rewrite decide_False by done. by rewrite IH.
Qed.

Lemma write_batches_fresh idx contents (dir : directory) :
  (∀ j, idx <= j → batch_file_name j ∉ dir.*1) →
  foldl (λ d f, write_file f.1 f.2 d) dir (batches_from idx contents)
  = dir ++ batches_from idx contents.
Proof.
  revert idx dir. induction contents as [|items contents IH]; intros idx dir Hfresh; simpl.
  - by rewrite app_nil_r.
  - rewrite write_file_fresh by (apply Hfresh; lia).
    rewrite IH.
    + by rewrite <- app_assoc.
    + intros j Hj. rewrite fmap_app, elem_of_app. intros [Hin|Hin].
      * by apply (Hfresh j ltac:(lia)).
      * simpl in Hin. apply list_elem_of_singleton in Hin.
        apply (inj batch_file_name) in Hin. lia.
Qed.

Lemma sort_by_idx_sorted_id l : StronglySorted idx_le l → sort_by_idx l = l.
Proof.
  induction 1 as [|x l Hl IH Hx]; [done|].
  unfold sort_by_idx in *. simpl. rewrite IH. by apply insert_by_idx_least.
Qed.

Lemma indexed_batches_from_sorted s contents :
  StronglySorted idx_le (indexed (batches_from s contents)).
Proof.
  revert s. induction contents as [|items contents IH]; intros s; [constructor|].
  rewrite indexed_batches_from_cons. constructor; [apply IH|].
  apply Forall_forall. intros f Hf.
  assert (f.1 ∈ (indexed (batches_from (s + 1) contents)).*1) as Hin
    by (apply list_elem_of_fmap; eauto).
  rewrite indexed_batches_from_idx in Hin. apply elem_of_seqZ in Hin.
  unfold idx_le. simpl. lia.
Qed.

Lemma no_batch_files_fresh (dir : directory) j :
  filter (λ f, glob_batch f.1 = true) dir = [] → batch_file_name j ∉ dir.*1.
Proof.
  intros Hnone Hin. apply elem_of_names in Hin as [data Hin].
  assert ((batch_file_name j, data) ∈ filter (λ f, glob_batch f.1 = true) dir) as Hf.
  { apply list_elem_of_filter. split; [|done]. simpl. apply glob_batch_batch_file_name. }
  rewrite Hnone in Hf. by apply elem_of_nil in Hf.
Qed.

Lemma load_checkpoint_state_idx dir :
  current_batch_idx (load_checkpoint false dir).1 = start_batch_idx (resolved dir).
Proof. by rewrite load_checkpoint_state. Qed.

(** Loading a directory without batch files, after the artifacts of
    batches 0, 1, ... were added to it. *)
Lemma load_fresh_batches (dir : directory) contents :
  filter (λ f, glob_batch f.1 = true) dir = [] →
  (load_checkpoint false (dir ++ completed_batches contents)).1
  = {| current_batch_idx := Z.of_nat (length contents);
       global_results := load_results (indexed (completed_batches contents)) ∅;
       global_errors := ∅ |}.
Proof.
  intros Hnone.
  assert (resolved (dir ++ completed_batches contents)
          = indexed (completed_batches contents)) as Hres.
  { unfold resolved. rewrite filter_app, Hnone. simpl.
    unfold completed_batches. rewrite filter_glob_batches_from.
    apply sort_by_idx_sorted_id, indexed_batches_from_sorted. }
  rewrite load_checkpoint_state, Hres. f_equal.
  rewrite <- Hres.
  rewrite (resolved_of_completed contents (dir ++ completed_batches contents)).
  - rewrite <- load_checkpoint_state_idx. apply completed_resume_point.
  - rewrite filter_app, Hnone. simpl. unfold completed_batches.
    by rewrite filter_glob_batches_from.
Qed.

End LoopFacts.

(** ** The generation pass: whole runs *)

Section RunFacts.
Import Py Checkpoint Runner Batches.

Variable chat : list (list Message) → py_exn + list (list string).

Lemma run_inference_data force dir dataloader :
  outcome (run_inference chat force dir dataloader)
  = outcome (looped chat force dir dataloader)
  ∧ store (run_inference chat force dir dataloader)
    = store (looped chat force dir dataloader)
  ∧ results (run_inference chat force dir dataloader)
    = results (looped chat force dir dataloader).
Proof.
  rewrite run_inference_unfold.
  by destruct (outcome (looped chat force dir dataloader)) eqn:E.
Qed.

Lemma filter_batch_events idx it :
  filter is_batch_work (batch_events idx it) = batch_events idx it.
Proof.
  revert idx. induction it as [|bd it IH]; intros idx; [done|].
  simpl. rewrite !filter_cons_True by done. by rewrite IH.
Qed.

(** Whatever the loop logs belongs to a batch from its start index on. *)
Lemma batch_loop_trace idx it st :
  ∃ events,
    trace (batch_loop chat idx it st) = trace st ++ events
    ∧ ∀ e, e ∈ events → ∃ j, event_batch e = Some j ∧ idx <= j.
Proof.
  revert idx st. induction it as [|bd it IH]; intros idx st.
  { exists []. simpl. rewrite app_nil_r. split; [done|]. by intros ? ?%elem_of_nil. }
  destruct (batch_artifact chat bd) as [e|a] eqn:E.
  - destruct (batch_loop_cons_fail chat idx bd it st e E) as (events & -> & Hev).
    eexists. split; [done|]. intros ev [->|Hin]%elem_of_cons.
    + exists idx. split; [done|lia].
    + rewrite (Hev _ Hin). exists idx. split; [done|lia].
  - rewrite (batch_loop_cons_ok chat _ _ _ _ _ E).
    edestruct IH as (events & -> & Hev). simpl.
    exists ([Generating idx (length (reward_model_ground_truth bd));
             Chat idx (prompt bd); SavedBatch (batch_file_name idx)] ++ events).
    split; [by rewrite <- !app_assoc|].
    intros ev [Hin|Hin]%elem_of_app.
    + exists idx. split; [|lia].
      repeat (apply elem_of_cons in Hin as [->|Hin]); try done.
      * simpl. apply batch_num_batch_file_name.
      * by apply elem_of_nil in Hin.
    + destruct (Hev _ Hin) as (j & ? & ?). exists j. split; [done|lia].
Qed.

Lemma load_no_batch_files (dir : directory) :
  filter (λ f, glob_batch f.1 = true) dir = [] →
  (load_checkpoint false dir).1
  = {| current_batch_idx := 0; global_results := ∅; global_errors := ∅ |}.
Proof.
  intros Hnone. pose proof (load_fresh_batches dir [] Hnone) as H.
  unfold completed_batches in H. simpl in H. by rewrite app_nil_r in H.
Qed.

(** A run that starts in a directory without batch files. *)
Lemma looped_fresh (dir : directory) dataloader :
  filter (λ f, glob_batch f.1 = true) dir = [] →
  looped chat false dir dataloader
  = batch_loop chat 0 dataloader
      {| outcome := None; store := dir; results := ∅;
         trace := (Print <$> (load_checkpoint false dir).2) ++ [] |}.
Proof.
  intros Hnone. unfold looped, initial_run. by rewrite (load_no_batch_files dir Hnone).
Qed.

Lemma looped_fresh_done (dir : directory) dataloader contents :
  filter (λ f, glob_batch f.1 = true) dir = [] →
  artifacts chat dataloader = Some contents →
  looped chat false dir dataloader
  = {| outcome := None;
       store := dir ++ completed_batches contents;
       results := load_results (indexed (completed_batches contents)) ∅;
       trace := ((Print <$> (load_checkpoint false dir).2) ++ [])
                ++ batch_events 0 dataloader |}.
Proof.
  intros Hnone Hart. rewrite (looped_fresh dir dataloader Hnone).
  rewrite (batch_loop_done chat 0 dataloader _ contents Hart). simpl.
  rewrite write_batches_fresh; [done|].
  intros j _. by apply no_batch_files_fresh.
Qed.

(** The round trip when glob lists the directory that the run writes. *)
Lemma listed_run_round_trip (dir : directory) dataloader :
  filter (λ f, glob_batch f.1 = true) dir = [] →
  let r := run_inference chat false dir dataloader in
  outcome r = None →
  ∃ contents,
    artifacts chat dataloader = Some contents
    ∧ store r = dir ++ completed_batches contents
    ∧ current_batch_idx (load_checkpoint false (store r)).1 = Z.of_nat (length dataloader)
    ∧ global_results (load_checkpoint false (store r)).1 = results r
    ∧ filter is_batch_work (trace r) = batch_events 0 dataloader.
Proof.
  intros Hnone r Hok. subst r.
  destruct (outcome_run_inference chat _ _ _ Hok) as [Hloop ->].
  rewrite (looped_fresh dir dataloader Hnone) in Hloop.
  destruct (batch_loop_finished chat _ _ _ Hloop) as [contents Hart].
  exists contents. rewrite (looped_fresh_done dir dataloader contents Hnone Hart).
  unfold log. cbn [store results trace outcome].
  rewrite (load_fresh_batches dir contents Hnone).
  cbn [current_batch_idx global_results].
  split_and!; try done.
  - f_equal. symmetry. by eapply length_mapM.
  - rewrite app_nil_r, !filter_app, filter_batch_events.
    rewrite (filter_is_nil _ (Print <$> _)).
    2:{ intros e (m & -> & _)%list_elem_of_fmap. by intros []. }
    rewrite filter_cons_False by (simpl; tauto).
    change (filter _ (@nil event)) with (@nil event). by rewrite app_nil_r.
Qed.

(** The resumed run when glob lists the directory that the runs write. *)
Lemma listed_resume_equals_uninterrupted (dir : directory) pre post :
  filter (λ f, glob_batch f.1 = true) dir = [] →
  let first := run_inference chat false dir pre in
  outcome first = None →
  let resumed := run_inference chat false (store first) (pre ++ post) in
  let whole := run_inference chat false dir (pre ++ post) in
  outcome resumed = outcome whole
  ∧ store resumed = store whole
  ∧ results resumed = results whole
  ∧ ∀ e j, e ∈ trace resumed → event_batch e = Some j → Z.of_nat (length pre) <= j.
Proof.
  intros Hnone first Hok resumed whole. subst resumed whole first.
  destruct (outcome_run_inference chat _ _ _ Hok) as [Hloop Hfirst].
  rewrite (looped_fresh dir pre Hnone) in Hloop.
  destruct (batch_loop_finished chat _ _ _ Hloop) as [cpre Hart].
  assert (store (run_inference chat false dir pre) = dir ++ completed_batches cpre) as Hstore.
  { rewrite Hfirst, (looped_fresh_done dir pre cpre Hnone Hart). done. }
  rewrite Hstore.
  pose proof (load_fresh_batches dir cpre Hnone) as Hload.
  assert (length cpre = length pre) as Hlen by (symmetry; by eapply length_mapM).
  set (mid := looped chat false dir pre).
  assert (looped chat false dir (pre ++ post)
          = batch_loop chat (Z.of_nat (length pre)) post mid) as Hwhole.
  { rewrite (looped_fresh dir (pre ++ post) Hnone).
    rewrite batch_loop_app.
    - unfold mid. by rewrite (looped_fresh dir pre Hnone).
    - by rewrite (batch_loop_done chat 0 pre _ cpre Hart). }
  set (st := initial_run false (dir ++ completed_batches cpre) (pre ++ post)).
  assert (looped chat false (dir ++ completed_batches cpre) (pre ++ post)
          = batch_loop chat (Z.of_nat (length pre)) post st) as Hres.
  { unfold looped. fold st. rewrite Hload. cbn [current_batch_idx fst].
    rewrite Hlen, Nat2Z.id, skip_batches_app by done.
    by rewrite drop_all. }
  destruct (run_inference_data false (dir ++ completed_batches cpre) (pre ++ post))
    as (-> & -> & ->).
  destruct (run_inference_data false dir (pre ++ post)) as (-> & -> & ->).
  rewrite Hwhole, Hres.
  assert (outcome st = outcome mid ∧ store st = store mid ∧ results st = results mid)
    as (Ho & Hs & Hr).
  { unfold mid. rewrite (looped_fresh_done dir pre cpre Hnone Hart).
    unfold st, initial_run. rewrite Hload. done. }
  destruct (batch_loop_ext chat (Z.of_nat (length pre)) post st mid Ho Hs Hr)
    as (? & ? & ?).
  split_and!; try done.
  intros e j Hin Hj.
  rewrite run_inference_unfold, Hres in Hin.
  destruct (batch_loop_trace (Z.of_nat (length pre)) post st) as (events & Htr & Hev).
  assert (e ∈ trace st ++ events ++ [InferenceCompleted]) as Hin'.
  { destruct (outcome (batch_loop chat (Z.of_nat (length pre)) post st)).
    - rewrite Htr in Hin. rewrite app_assoc. apply elem_of_app. by left.
    - unfold log in Hin. simpl in Hin. rewrite Htr, <- app_assoc in Hin. done. }
  apply elem_of_app in Hin' as [Hin'|Hin'].
  - unfold st, initial_run in Hin'. simpl in Hin'.
    apply elem_of_app in Hin' as [(m & -> & _)%list_elem_of_fmap|Hin']; [done|].
    destruct (skip_batches _ _).2; [|by apply elem_of_nil in Hin'].
    apply list_elem_of_singleton in Hin'. by subst e.
  - apply elem_of_app in Hin' as [Hin'|Hin'].
    + destruct (Hev e Hin') as (j' & Hj' & ?). congruence.
    + apply list_elem_of_singleton in Hin'. by subst e.
Qed.

Lemma looped_stops force dir pre bd post e :
  (Z.to_nat (current_batch_idx (load_checkpoint force dir).1) ≤ length pre)%nat →
  outcome (looped chat force dir pre) = None →
  batch_artifact chat bd = inl e →
  ∃ events,
    looped chat force dir (pre ++ bd :: post)
    = {| outcome := Some e;
         store := store (looped chat force dir pre);
         results := results (looped chat force dir pre);
         trace := trace (looped chat force dir pre) ++ events |}
    ∧ ∀ file, SavedBatch file ∉ events.
Proof.
  intros Hreach Hloop Hfail.
  unfold looped in *.
  set (start := current_batch_idx (load_checkpoint force dir).1) in *.
  assert (initial_run force dir (pre ++ bd :: post) = initial_run force dir pre) as ->.
  { unfold initial_run. fold start.
    by rewrite skip_batches_app, skip_batches_drop by done. }
  rewrite skip_batches_app by done.
  rewrite skip_batches_drop in Hloop |- * by done. cbn [fst] in Hloop |- *.
  rewrite batch_loop_app by done.
  set (mid := batch_loop chat start (drop (Z.to_nat start) pre) (initial_run force dir pre)).
  destruct (batch_loop_cons_fail chat (start + Z.of_nat (length (drop (Z.to_nat start) pre)))
              bd post mid e Hfail) as (events & -> & Hev).
  eexists. split; [done|].
  intros file [|Hin]%elem_of_cons; [done|]. by apply Hev in Hin.
Qed.

(** X13: an exception of the generation collaborator, and a batch whose
    columns are shorter than its outputs, end the run.  Let [bd] be a
    batch that the run reaches and whose samples are all in chat form.
    If the collaborator raises for it, that exception leaves the run; if
    the samples cannot be built from its outputs, an [IndexError] does.
    Either way the directory and the results are those of the run over
    the batches before [bd], and no artifact is reported as saved that
    this run had not saved. *)
Theorem generation_failure_is_fatal force dir pre bd post :
  (Z.to_nat (current_batch_idx (load_checkpoint force dir).1) ≤ length pre)%nat →
  outcome (run_inference chat force dir pre) = None →
  forallb id (default (replicate (length (reward_model_ground_truth bd)) true)
                (apply_chat_template bd)) = true →
  let before := run_inference chat force dir pre in
  let r := run_inference chat force dir (pre ++ bd :: post) in
  ∀ e,
    (chat (prompt bd) = inl e
     ∨ (e = IndexError
        ∧ ∃ outputs, chat (prompt bd) = inr outputs
                     ∧ process_batch_outputs outputs bd = None)) →
    outcome r = Some e
    ∧ store r = store before
    ∧ results r = results before
    ∧ ∀ file, SavedBatch file ∈ trace r → SavedBatch file ∈ trace before.
Proof.
  intros Hreach Hok Hflags before r e He. subst r before.
  destruct (outcome_run_inference chat _ _ _ Hok) as [Hloop ->].
  assert (batch_artifact chat bd = inl e) as Hfail.
  { unfold batch_artifact. rewrite Hflags. simpl.
    destruct He as [->|(-> & outputs & -> & ->)]; done. }
  destruct (looped_stops force dir pre bd post e Hreach Hloop Hfail)
    as (events & Hstop & Hev).
  rewrite run_inference_unfold, Hstop. simpl. split_and!; try done.
  intros file [Hin|Hin]%elem_of_app; [|by apply Hev in Hin].
  apply elem_of_app. by left.
Qed.

End RunFacts.

(** ** The generation pass: the rank directory and its path *)

Section LocatedFacts.
Import Py Checkpoint Runner Batches Located.

Variable chat : list (list Message) → py_exn + list (list string).


(** With a path that glob takes as it is, the run is the run on the rank
    directory. *)
Lemma run_inference_at_plain rank_output_dir matching force (dir : directory) dataloader :
  has_magic rank_output_dir = false →
  run_inference_at chat rank_output_dir matching force dir dataloader
  = run_inference chat force dir dataloader.
Proof.
  intros Hplain. unfold run_inference_at, run_inference, load_checkpoint_at, listing.
  by rewrite Hplain.
Qed.

Lemma load_checkpoint_at_plain rank_output_dir matching force (dir : directory) :
  has_magic rank_output_dir = false →
  load_checkpoint_at rank_output_dir matching force dir = load_checkpoint force dir.
Proof. intros Hplain. unfold load_checkpoint_at, listing. by rewrite Hplain. Qed.

(** X11: for a rank directory whose path holds no character that glob
    reads as a pattern, a run that starts without batch files in it and
    ends without an exception has written one artifact per batch,
    numbered from 0 in loader order, behind what the directory held;
    loading the checkpoint of that directory again gives the number of
    batches as the resume point and exactly the results the run held in
    memory; and the run has called the generation collaborator once per
    batch, in order, each batch being saved before the next one is
    announced. *)
Theorem fresh_run_round_trip rank_output_dir matching matching'
    (dir : directory) dataloader :
  has_magic rank_output_dir = false →
  filter (λ f, glob_batch f.1 = true) dir = [] →
  let r := run_inference_at chat rank_output_dir matching false dir dataloader in
  outcome r = None →
  ∃ contents,
    artifacts chat dataloader = Some contents
    ∧ store r = dir ++ completed_batches contents
    ∧ current_batch_idx
        (load_checkpoint_at rank_output_dir matching' false (store r)).1
      = Z.of_nat (length dataloader)
    ∧ global_results (load_checkpoint_at rank_output_dir matching' false (store r)).1
      = results r
    ∧ filter is_batch_work (trace r) = batch_events 0 dataloader.
Proof.
  intros Hplain Hnone r. subst r.
  rewrite (run_inference_at_plain _ matching _ _ _ Hplain). intros Hok.
  destruct (listed_run_round_trip chat dir dataloader Hnone Hok)
    as (contents & ? & ? & ? & ? & ?).
  exists contents. rewrite (load_checkpoint_at_plain _ matching' _ _ Hplain).
  by split_and!.
Qed.

(** X12: for a rank directory whose path holds no character that glob
    reads as a pattern, stopping after some batches and starting again
    changes nothing.  When a first run over the batches [pre] has ended
    without an exception, a later run over [pre ++ post] in the directory
    it left ends as the uninterrupted run over [pre ++ post] does, with
    the same directory content and the same results, and touches no
    batch of [pre]: every event of a batch that it logs is of batch
    [length pre] or later. *)
Theorem resumed_run_equals_uninterrupted rank_output_dir m1 m2 m3
    (dir : directory) pre post :
  has_magic rank_output_dir = false →
  filter (λ f, glob_batch f.1 = true) dir = [] →
  let first := run_inference_at chat rank_output_dir m1 false dir pre in
  outcome first = None →
  let resumed :=
    run_inference_at chat rank_output_dir m2 false (store first) (pre ++ post) in
  let whole := run_inference_at chat rank_output_dir m3 false dir (pre ++ post) in
  outcome resumed = outcome whole
  ∧ store resumed = store whole
  ∧ results resumed = results whole
  ∧ ∀ e j, e ∈ trace resumed → event_batch e = Some j → Z.of_nat (length pre) <= j.
Proof.
  intros Hplain Hnone first Hok resumed whole. subst resumed whole first.
  rewrite !(run_inference_at_plain _ _ _ _ _ Hplain) in *.
  by apply listed_resume_equals_uninterrupted.
Qed.


End LocatedFacts.

Lemma fresh_run_round_trip_witness :
  let rank_dir := Paths.rank_output_dir "out" "data/math.parquet" "org/Qwen-7B" 0 in
  let r := Located.run_inference_at Runner.echo_chat rank_dir []
             false [("notes.txt", None)] Runner.three_batches in
  (Located.has_magic rank_dir = false ∧ Runner.outcome r = None)
  ∧ Checkpoint.current_batch_idx
      (Located.load_checkpoint_at rank_dir [] false (Runner.store r)).1 = 3
  ∧ Checkpoint.global_results
      (Located.load_checkpoint_at rank_dir [] false (Runner.store r)).1
    = Runner.results r.
Proof.
  intros rank_dir r.
  assert (Hplain : Located.has_magic rank_dir = false) by (vm_compute; reflexivity).
  assert (Hok : Runner.outcome r = None) by (vm_compute; reflexivity).
  split; [by split|].
  destruct (fresh_run_round_trip Runner.echo_chat rank_dir [] [] [("notes.txt", None)]
              Runner.three_batches Hplain eq_refl Hok)
    as (contents & _ & _ & Hidx & Hres & _).
  split; [exact Hidx | exact Hres].
Defined.

Lemma resumed_run_equals_uninterrupted_witness :
  let rank_dir := Paths.rank_output_dir "out" "data/math.parquet" "org/Qwen-7B" 0 in
  let first := Located.run_inference_at Runner.echo_chat rank_dir [] false []
                 (take 2 Runner.three_batches) in
  (Located.has_magic rank_dir = false ∧ Runner.outcome first = None)
  ∧ Runner.store
      (Located.run_inference_at Runner.echo_chat rank_dir [] false (Runner.store first)
         (take 2 Runner.three_batches ++ drop 2 Runner.three_batches))
    = Runner.store
        (Located.run_inference_at Runner.echo_chat rank_dir [] false []
           (take 2 Runner.three_batches ++ drop 2 Runner.three_batches)).
Proof.
  intros rank_dir first.
  assert (Hplain : Located.has_magic rank_dir = false) by (vm_compute; reflexivity).
  assert (Hok : Runner.outcome first = None) by (vm_compute; reflexivity).
  split; [by split|].
  apply (resumed_run_equals_uninterrupted Runner.echo_chat rank_dir [] [] []
           [] (take 2 Runner.three_batches) (drop 2 Runner.three_batches)
           Hplain eq_refl Hok).
Defined.



Lemma generation_failure_is_fatal_witness :
  let pre := take 2 Runner.three_batches in
  let bd := Runner.batch_of (Some [true]) ["q4"] in
  let r := Runner.run_inference Batches.flaky_chat false [] (pre ++ [bd]) in
  Runner.outcome (Runner.run_inference Batches.flaky_chat false [] pre) = None
  ∧ Runner.outcome r = Some (Runner.CollaboratorError "CUDA out of memory")
  ∧ Runner.store r = Runner.store (Runner.run_inference Batches.flaky_chat false [] pre).
Proof.
  intros pre bd r.
  assert (Hok : Runner.outcome (Runner.run_inference Batches.flaky_chat false [] pre) = None)
    by (vm_compute; reflexivity).
  split; [exact Hok|].
  destruct (generation_failure_is_fatal Batches.flaky_chat false [] pre bd []
              ltac:(vm_compute; lia) Hok eq_refl
              (Runner.CollaboratorError "CUDA out of memory") (or_introl eq_refl))
    as (Ho & Hs & _ & _).
  split; [exact Ho | exact Hs].
Defined.

(** ** The reward pass: what a batch leaves behind *)

Lemma NoDup_fst_unique {A B} (l : list (A * B)) k x y :
  NoDup l.*1 → (k, x) ∈ l → (k, y) ∈ l → x = y.
Proof.
  induction l as [|[k' z] l IH]; intros Hnd Hx Hy.
  { by apply elem_of_nil in Hx. }
  rewrite fmap_cons in Hnd. apply NoDup_cons in Hnd as [Hfresh Hnd].
  assert (∀ v, (k', v) ∈ l → False) as Hno.
  { intros v Hv. apply Hfresh. apply list_elem_of_fmap. by exists (k', v). }
  apply elem_of_cons in Hx as [Hx|Hx]; apply elem_of_cons in Hy as [Hy|Hy].
  - congruence.
  - injection Hx as -> ->. by destruct (Hno y).
  - injection Hy as -> ->. by destruct (Hno x).
  - by apply IH.
Qed.



Section EntryFacts.
Import Reward.

Variable scorer : string → string → json → list (string * json) → behaviour.
Variable order : list (Z * detail) → list (Z * detail).

#[local] Instance rank_key_inj name : Inj (=) (=) (rank_key name).
Proof.
  intros s s' E. unfold rank_key in E. apply (inj (String.append name)) in E.
  by injection E.
Qed.

Lemma fold_insert_miss (P : string * Sample → bool) name (l : list (string * Sample))
    (m : gmap string Sample) s :
  (∀ x, (s, x) ∈ l → P (s, x) = false) →
  foldl (λ m it, if P it then <[rank_key name it.1 := it.2]> m else m) m l
    !! rank_key name s
  = m !! rank_key name s.
Proof.
  revert m. induction l as [|[s' x'] l IH]; intros m Hmiss; [done|].
  simpl. rewrite IH by (intros x Hx; apply Hmiss; by right).
  destruct (P (s', x')) eqn:HP; [|done].
  apply lookup_insert_ne. intros E. apply (inj (rank_key name)) in E. subst s'.
  rewrite Hmiss in HP by left. done.
Qed.

Lemma fold_insert_hit (P : string * Sample → bool) name (l : list (string * Sample))
    (m : gmap string Sample) s x :
  NoDup l.*1 → (s, x) ∈ l → P (s, x) = true →
  foldl (λ m it, if P it then <[rank_key name it.1 := it.2]> m else m) m l
    !! rank_key name s
  = Some x.
Proof.
  revert m. induction l as [|[s' x'] l IH]; intros m Hnd Hin HP.
  { by apply elem_of_nil in Hin. }
  rewrite fmap_cons in Hnd. apply NoDup_cons in Hnd as [Hfresh Hnd].
  apply elem_of_cons in Hin as [[= <- <-]|Hin].
  - simpl. rewrite HP. rewrite fold_insert_miss.
    + apply lookup_insert_eq.
    + intros x0 Hx0. destruct Hfresh. apply list_elem_of_fmap. by exists (s, x0).
  - simpl. by apply IH.
Qed.

Lemma add_tasks_rank_results s x c : rank_results (add_tasks s x c) = rank_results c.
Proof.
  unfold add_tasks. generalize (responses x) as raws. intros raws. revert c.
  induction raws as [|raw raws IH]; intros c; [done|]. simpl. by rewrite IH.
Qed.

Lemma collect_rank_results args name batch results :
  rank_results (collect_tasks args name batch results)
  = foldl (λ m it, if skipped args it.2 then <[rank_key name it.1 := it.2]> m else m)
      results batch.
Proof.
  unfold collect_tasks.
  assert (∀ c,
            rank_results
              (foldl (λ c it,
                 if skipped args it.2
                 then {| tasks := tasks c; lookup := lookup c; next_gid := next_gid c;
                         rank_results := <[rank_key name it.1 := it.2]> (rank_results c) |}
                 else add_tasks it.1 it.2 c) c batch)
            = foldl (λ m it, if skipped args it.2
                             then <[rank_key name it.1 := it.2]> m else m)
                (rank_results c) batch) as Hgen.
  { induction batch as [|[s x] batch IH]; intros c; [done|].
    simpl. rewrite IH. destruct (skipped args x); [done|].
    by rewrite add_tasks_rank_results. }
  by rewrite Hgen.
Qed.

Lemma write_back_all_results threshold name by_sample batch results batch' results' :
  write_back_all threshold name by_sample batch results = Done (batch', results') →
  results'
  = foldl (λ m it, if bool_decide (is_Some (by_sample !! it.1))
                   then <[rank_key name it.1 := it.2]> m else m)
      results batch'.
Proof.
  revert results batch' results'.
  induction batch as [|[s x] batch IH]; intros results batch' results'; simpl.
  - by intros [= <- <-].
  - destruct (by_sample !! s) as [dl|] eqn:Hdl.
    + destruct (write_back threshold x dl) as [x'| |]; simpl; try done.
      destruct (write_back_all _ _ _ batch _) as [[b r]| |] eqn:Hrest; simpl; try done.
      intros [= <- <-]. simpl. rewrite Hdl.
      rewrite bool_decide_eq_true_2 by eauto. by apply IH.
    + destruct (write_back_all _ _ _ batch _) as [[b r]| |] eqn:Hrest; simpl; try done.
      intros [= <- <-]. simpl. rewrite Hdl.
      rewrite bool_decide_eq_false_2 by (by intros [? ?]). by apply IH.
Qed.

Lemma elem_of_plan args (batch : list (string * Sample)) p :
  p ∈ plan args batch → (p.1.1, p.1.2) ∈ batch ∧ skipped args p.1.2 = false.
Proof.
  unfold plan. intros ([s x] & Hp & Hin)%list_elem_of_bind. simpl in Hp.
  destruct (skipped args x) eqn:Hskip; [by apply elem_of_nil in Hp|].
  apply list_elem_of_fmap in Hp as (raw & -> & _). done.
Qed.

Lemma plan_of_skipped args (batch : list (string * Sample)) s x :
  NoDup batch.*1 → (s, x) ∈ batch → skipped args x = true →
  filter (λ p : string * Sample * string, p.1.1 = s) (plan args batch) = [].
Proof.
  intros Hnd Hin Hskip. apply filter_is_nil. intros p Hp Hs.
  apply elem_of_plan in Hp as [Hp Hno]. rewrite Hs in Hp.
  rewrite (NoDup_fst_unique _ _ _ _ Hnd Hp Hin) in Hno. congruence.
Qed.

(** How many results are routed to a sample. *)
Lemma routed_length args timeout name batch results rs s x :
  NoDup batch.*1 → (s, x) ∈ batch →
  map_rewards scorer timeout (tasks (collect_tasks args name batch results)) = Done rs →
  length (routed (lookup (collect_tasks args name batch results)) s rs)
  = if skipped args x then 0%nat else length (responses x).
Proof.
  intros Hnd Hin Hrs.
  pose proof (collect_tasks_collected args name batch results) as [_ Hplan].
  set (c := collect_tasks args name batch results) in *.
  pose proof (routed_plan scorer timeout (lookup c) s (plan args batch) (tasks c) rs) as Hr.
  assert (Forall2 (λ (p : string * Sample * string) d,
             ∃ g, compute_single_reward scorer timeout (task_for g p.1.2 p.2) = Done (g, d))
            (filter (λ p : string * Sample * string, p.1.1 = s) (plan args batch))
            (routed (lookup c) s rs)) as Hlen.
  { apply Hr; [|by apply map_rewards_done].
    eapply Forall2_impl; [exact Hplan|]. simpl. tauto. }
  apply Forall2_length in Hlen. rewrite <- Hlen.
  destruct (skipped args x) eqn:Hskip.
  - by rewrite (plan_of_skipped args batch s x).
  - rewrite (plan_of_sample args batch s x) by done. by rewrite length_fmap.
Qed.

(** What a batch that is scored to the end leaves for each of its samples. *)
Lemma score_batch_entries args pool name batch results batch' results' n :
  NoDup batch.*1 →
  (pool = true → ∀ l, order l ≡ₚ l) →
  score_batch scorer order args pool name batch results = Done (batch', results', n) →
  n = length (plan args batch)
  ∧ batch'.*1 = batch.*1
  ∧ ∀ s x, (s, x) ∈ batch →
      ∃ x', (s, x') ∈ batch'
        ∧ if skipped args x
          then x' = x ∧ results' !! rank_key name s = Some x
          else if bool_decide (responses x = [])
               then x' = x ∧ results' !! rank_key name s = results !! rank_key name s
               else (∃ dl, dl ≠ []
                           ∧ write_back (correct_reward_threshold args) x dl = Done x')
                    ∧ results' !! rank_key name s = Some x'.
Proof.
  intros Hnd Horder. unfold score_batch.
  pose proof (collect_tasks_collected args name batch results) as [_ Hplan].
  pose proof (collect_rank_results args name batch results) as Hrank.
  set (c := collect_tasks args name batch results) in *.
  assert (Hskipped : ∀ s x, (s, x) ∈ batch → skipped args x = true →
            rank_results c !! rank_key name s = Some x).
  { intros s x Hin Hskip. rewrite Hrank.
    by apply (fold_insert_hit (λ it, skipped args it.2)). }
  assert (Hother : ∀ s x, (s, x) ∈ batch → skipped args x = false →
            rank_results c !! rank_key name s = results !! rank_key name s).
  { intros s x Hin Hskip. rewrite Hrank.
    apply (fold_insert_miss (λ it, skipped args it.2)).
    intros x0 Hx0. simpl. by rewrite (NoDup_fst_unique _ _ _ _ Hnd Hx0 Hin). }
  destruct (tasks c) as [|t ts] eqn:Hts.
  { intros [= <- <- <-].
    apply Forall2_nil_inv_r in Hplan. rewrite Hplan.
    split_and!; try done. intros s x Hin. exists x. split; [done|].
    destruct (skipped args x) eqn:Hskip; [by eauto|].
    case_bool_decide as Hresp; [by eauto|].
    pose proof (plan_of_sample args batch s x Hnd Hin Hskip) as Hf.
    rewrite Hplan in Hf. destruct (responses x); done. }
  rewrite <- Hts in *.
  destruct (results_iter scorer order args pool (tasks c)) as [yielded| |] eqn:Hiter;
    simpl; try done.
  destruct (route (lookup c) yielded ∅) as [by_sample| |] eqn:Hroute; simpl; try done.
  destruct (write_back_all _ _ _ _ _) as [[b r]| |] eqn:Hwb; simpl; try done.
  intros [= <- <- <-].
  destruct (results_iter_done _ _ _ _ _ _ Horder Hiter) as (rs & Hrs & Hperm & _).
  pose proof (write_back_all_keys _ _ _ _ _ _ _ Hwb) as Hkeys.
  pose proof (write_back_all_results _ _ _ _ _ _ _ Hwb) as Hres.
  assert (Hby : ∀ s x, (s, x) ∈ batch →
            by_sample !! s
            = (if skipped args x || bool_decide (responses x = []) then None
               else Some (routed (lookup c) s yielded))
            ∧ (skipped args x || bool_decide (responses x = []) = false →
               routed (lookup c) s yielded ≠ [])).
  { intros s x Hin.
    pose proof (routed_length args (timeout_for args pool) name batch results rs s x
                  Hnd Hin Hrs) as Hlen.
    fold c in Hlen.
    assert (length (routed (lookup c) s yielded)
            = if skipped args x then 0%nat else length (responses x)) as Hlen'.
    { rewrite <- Hlen. apply Permutation_length. unfold routed. by rewrite Hperm. }
    rewrite (route_done _ _ _ _ s Hroute), lookup_empty.
    destruct (routed (lookup c) s yielded) as [|d ds]; simpl in *.
    - destruct (skipped args x); simpl; [done|].
      case_bool_decide as Hresp; [done|]. destruct (responses x); done.
    - destruct (skipped args x); simpl; [done|].
      case_bool_decide as Hresp; [|done]. by rewrite Hresp in Hlen'. }
  split_and!; [symmetry; by eapply Forall2_length | done |].
  intros s x Hin.
  pose proof (write_back_all_done _ _ _ _ _ _ _ Hwb) as Hall.
  destruct (Forall2_elem_of_l _ _ _ _ Hall Hin) as ([s' x'] & Hin' & Hk & Hw).
  simpl in Hk, Hw. subst s'. exists x'. split; [done|].
  destruct (Hby s x Hin) as [Hbs Hne]. rewrite Hbs in Hw.
  assert (NoDup b.*1) as Hnd' by (by rewrite Hkeys).
  destruct (skipped args x) eqn:Hskip; simpl in *.
  - subst x'. split; [done|]. rewrite Hres, fold_insert_miss.
    + by apply Hskipped.
    + intros x0 _. simpl. rewrite Hbs. by apply bool_decide_eq_false_2; intros [? ?].
  - case_bool_decide as Hresp; simpl in *.
    + subst x'. split; [done|]. rewrite Hres, fold_insert_miss.
      * by apply (Hother s x).
      * intros x0 _. simpl. rewrite Hbs. by apply bool_decide_eq_false_2; intros [? ?].
    + split; [exists (routed (lookup c) s yielded); split; [by apply Hne | done]|].
      rewrite Hres.
      apply (fold_insert_hit (λ it, bool_decide (is_Some (by_sample !! it.1)))); try done.
      simpl. rewrite Hbs. by apply bool_decide_eq_true_2.
Qed.

Lemma write_back_fields threshold x dl x' :
  write_back threshold x dl = Done x' →
  messages x' = messages x ∧ question x' = question x
  ∧ ground_truth x' = ground_truth x ∧ source x' = source x
  ∧ responses x' = responses x ∧ extra_info x' = extra_info x.
Proof.
  unfold write_back.
  destruct (mapM (dict_get "score") dl) as [score_list|]; [|done].
  destruct (mapM (passes threshold) score_list) as [flags|]; [|done].
  by intros [= <-].
Qed.

Lemma write_back_has_scores threshold x dl x' :
  dl ≠ [] → write_back threshold x dl = Done x' → has_scores x' = true.
Proof.
  intros Hne Hw. destruct (write_back_done _ _ _ _ Hw) as (score_list & _ & Hs & Hm & _).
  unfold has_scores. rewrite Hs. apply length_mapM in Hm.
  destruct score_list; [|done]. by destruct dl.
Qed.

Lemma length_plan args (batch : list (string * Sample)) :
  length (plan args batch)
  = sum_list ((λ it : string * Sample,
                 if skipped args it.2 then 0%nat else length (responses it.2)) <$> batch).
Proof.
  induction batch as [|[s x] batch IH]; [done|].
  rewrite plan_cons, length_app, IH, fmap_cons. simpl.
  destruct (skipped args x); [done|]. by rewrite length_fmap.
Qed.

(** X14: what a batch that is scored to the end leaves for each sample,
    in the batch file and in the rank summary.  A sample that already has
    scores (and is not to be recalculated) stays as it is and is entered
    in the summary; a sample without responses stays as it is and is not
    entered in the summary; any other sample is entered as it is written
    back, which changes none of the fields that the generation pass
    wrote.  The number of scoring tasks is the number of responses of the
    samples that are not passed through. *)
Theorem scored_batch_entries args pool name batch results batch' results' n :
  NoDup batch.*1 →
  (pool = true → ∀ l, order l ≡ₚ l) →
  score_batch scorer order args pool name batch results = Done (batch', results', n) →
  n = sum_list ((λ it : string * Sample,
                   if skipped args it.2 then 0%nat else length (responses it.2)) <$> batch)
  ∧ ∀ s x, (s, x) ∈ batch →
      ∃ x', (s, x') ∈ batch'
        ∧ (skipped args x = true →
           x' = x ∧ results' !! rank_key name s = Some x)
        ∧ (skipped args x = false → responses x = [] →
           x' = x ∧ results' !! rank_key name s = results !! rank_key name s)
        ∧ (skipped args x = false → responses x ≠ [] →
           results' !! rank_key name s = Some x'
           ∧ has_scores x' = true
           ∧ messages x' = messages x ∧ question x' = question x
           ∧ ground_truth x' = ground_truth x ∧ source x' = source x
           ∧ responses x' = responses x ∧ extra_info x' = extra_info x).
Proof.
  intros Hnd Horder Hdone.
  destruct (score_batch_entries _ _ _ _ _ _ _ _ Hnd Horder Hdone) as (-> & _ & Hall).
  split; [apply length_plan|].
  intros s x Hin. destruct (Hall s x Hin) as (x' & Hin' & Hcase).
  exists x'. split; [done|].
  destruct (skipped args x); [by split_and!|].
  case_bool_decide as Hresp; [by split_and!|].
  destruct Hcase as [(dl & Hne & Hw) Hres].
  split_and!; try done. intros _ _.
  split; [done|]. split; [by eapply write_back_has_scores|].
  by eapply write_back_fields.
Qed.

(** After a pass without the recalculation option no response of the
    batch is left to score. *)
Lemma scored_batch_settled args pool name batch results batch' results' n :
  recalculate_rewards args = false →
  NoDup batch.*1 →
  (pool = true → ∀ l, order l ≡ₚ l) →
  score_batch scorer order args pool name batch results = Done (batch', results', n) →
  plan args batch' = [].
Proof.
  intros Hrecalc Hnd Horder Hdone.
  destruct (score_batch_entries _ _ _ _ _ _ _ _ Hnd Horder Hdone) as (_ & Hkeys & Hall).
  destruct (plan args batch') as [|p pl] eqn:Hp; [done|].
  assert (p ∈ plan args batch') as Hin by (rewrite Hp; left).
  apply elem_of_plan in Hin as [Hin Hskip].
  assert (p.1.1 ∈ batch.*1) as Hk.
  { rewrite <- Hkeys. apply list_elem_of_fmap. by exists (p.1.1, p.1.2). }
  apply list_elem_of_fmap in Hk as ([s x] & Hs & Hx). simpl in Hs. subst s.
  destruct (Hall _ _ Hx) as (x' & Hin' & Hcase).
  assert (NoDup batch'.*1) as Hnd' by (by rewrite Hkeys).
  pose proof (NoDup_fst_unique _ _ _ _ Hnd' Hin Hin') as Hsame.
  assert (∃ raw, (p.1.1, p.1.2, raw) ∈ plan args batch') as [raw Hraw].
  { exists p.2. rewrite Hp. destruct p as [[? ?] ?]. left. }
  assert (responses p.1.2 ≠ []) as Hresp.
  { unfold plan in Hraw. apply list_elem_of_bind in Hraw as ([s0 x0] & Hr & _).
    simpl in Hr. destruct (skipped args x0); [by apply elem_of_nil in Hr|].
    apply list_elem_of_fmap in Hr as (raw' & [= _ -> _] & Hr').
    intros E. rewrite E in Hr'. by apply elem_of_nil in Hr'. }
  rewrite Hsame in Hskip, Hresp.
  destruct (skipped args x) eqn:Hsx.
  - destruct Hcase as [-> _]. congruence.
  - case_bool_decide as Hrx.
    + destruct Hcase as [-> _]. done.
    + destruct Hcase as [(dl & Hne & Hw) _].
      pose proof (write_back_has_scores _ _ _ _ Hne Hw) as Hhas.
      unfold skipped in Hskip. by rewrite Hrecalc, Hhas in Hskip.
Qed.

(** A batch with no response left to score is written back as it is. *)
Lemma settled_score_batch args pool name batch results :
  plan args batch = [] →
  tasks (collect_tasks args name batch results) = []
  ∧ score_batch scorer order args pool name batch results
    = Done (batch, rank_results (collect_tasks args name batch results), 0%nat).
Proof.
  intros Hplan.
  pose proof (collect_tasks_collected args name batch results) as [_ Hc].
  rewrite Hplan in Hc. apply Forall2_nil_inv_l in Hc.
  split; [done|]. unfold score_batch. by rewrite Hc.
Qed.

(** X15: scoring is done once.  After a batch has been scored to the end
    without the recalculation option, scoring what was written back
    computes nothing: no scoring task is built, with or without a pool,
    and the batch is written back as it is. *)
Theorem second_pass_is_noop args pool name batch results batch' results' n :
  recalculate_rewards args = false →
  NoDup batch.*1 →
  (pool = true → ∀ l, order l ≡ₚ l) →
  score_batch scorer order args pool name batch results = Done (batch', results', n) →
  ∀ pool' results0,
    tasks (collect_tasks args name batch' results0) = []
    ∧ ∃ results'',
        score_batch scorer order args pool' name batch' results0
        = Done (batch', results'', 0%nat).
Proof.
  intros Hrecalc Hnd Horder Hdone pool' results0.
  pose proof (scored_batch_settled _ _ _ _ _ _ _ _ Hrecalc Hnd Horder Hdone) as Hplan.
  destruct (settled_score_batch args pool' name batch' results0 Hplan) as [Ht Hs].
  split; [done|]. by eexists.
Qed.

End EntryFacts.

Lemma scored_batch_entries_witness :
  let batch := [("0", Reward.two_answers); ("1", Reward.scored_answers [1; 0]%Q)] in
  ∃ batch' results' n,
    (NoDup batch.*1
     ∧ (false = true → ∀ l : list (Z * detail), l ≡ₚ l)
     ∧ Reward.score_batch Reward.exact_match (λ l, l) (Reward.example_args 1) false
         "batch_00000.json" batch ∅ = Reward.Done (batch', results', n))
    ∧ n = 2%nat.
Proof.
  intros batch.
  assert (NoDup batch.*1) as H1 by (apply (bool_decide_unpack _); by vm_compute).
  assert (false = true → ∀ l : list (Z * detail), l ≡ₚ l) as H2 by done.
  evar (batch' : list (string * Sample)).
  evar (results' : gmap string Sample). evar (n : nat).
  assert (Reward.score_batch Reward.exact_match (λ l, l) (Reward.example_args 1) false
            "batch_00000.json" batch ∅ = Reward.Done (batch', results', n)) as H3
    by (unfold batch', results', n; vm_compute; reflexivity).
  exists batch', results', n. split; [by split_and!|].
  exact (proj1 (scored_batch_entries Reward.exact_match (λ l, l) _ _ _ _ _ _ _ _ H1 H2 H3)).
Defined.

Lemma second_pass_is_noop_witness :
  let batch := [("0", Reward.two_answers); ("1", Reward.two_answers)] in
  let batch' := [("0", Reward.scored_answers [1; 0]%Q);
                 ("1", Reward.scored_answers [1; 0]%Q)] in
  ∃ results' n,
    (Reward.recalculate_rewards (Reward.example_args 1) = false
     ∧ NoDup batch.*1
     ∧ (false = true → ∀ l : list (Z * detail), l ≡ₚ l)
     ∧ Reward.score_batch Reward.exact_match (λ l, l) (Reward.example_args 1) false
         "batch_00000.json" batch ∅ = Reward.Done (batch', results', n))
    ∧ Reward.tasks (Reward.collect_tasks (Reward.example_args 1) "batch_00000.json"
                      batch' ∅) = [].
Proof.
  intros batch batch'.
  assert (NoDup batch.*1) as H1 by (apply (bool_decide_unpack _); by vm_compute).
  assert (false = true → ∀ l : list (Z * detail), l ≡ₚ l) as H2 by done.
  evar (results' : gmap string Sample). evar (n : nat).
  assert (Reward.score_batch Reward.exact_match (λ l, l) (Reward.example_args 1) false
            "batch_00000.json" batch ∅ = Reward.Done (batch', results', n)) as H3
    by (unfold results', n; vm_compute; reflexivity).
  exists results', n. split; [by split_and!|].
  exact (proj1 (second_pass_is_noop Reward.exact_match (λ l, l) (Reward.example_args 1)
                  _ _ _ _ _ _ _ eq_refl H1 H2 H3 false ∅)).
Defined.

(** ** The reward pass: unreadable batch files *)

Section AbortFacts.
Import Reward.

Variable scorer : string → string → json → list (string * json) → behaviour.
Variable order : list (Z * detail) → list (Z * detail).

Lemma dir_lookup_write_file name n data (dir : directory) :
  dir_lookup name (write_file n data dir)
  = if decide (n = name) then Some data else dir_lookup name dir.
Proof.
  induction dir as [|[n' d'] dir IH]; simpl.
  - by destruct (decide (n = name)).
  - destruct (decide (n' = n)) as [->|Hne]; simpl.
    + by destruct (decide (n = name)).
    + rewrite IH. destruct (decide (n' = name)) as [->|]; [|done].
      by rewrite decide_False by done.
Qed.

Lemma score_file_unreadable args pool st name :
  dir_lookup name (files st) = None ∨ dir_lookup name (files st) = Some None →
  score_file scorer order args pool st name
  = Raised (match dir_lookup name (files st) with
            | None => file_not_found
            | Some _ => json_decode_error
            end).
Proof. unfold score_file. by intros [-> | ->]. Qed.

Lemma score_files_unreadable args pool names st name st' :
  name ∈ names →
  dir_lookup name (files st) = None ∨ dir_lookup name (files st) = Some None →
  score_files scorer order args pool names st ≠ Done st'.
Proof.
  revert st. induction names as [|n names IH]; intros st Hin Hbad.
  { by apply elem_of_nil in Hin. }
  simpl. destruct (decide (n = name)) as [->|Hne].
  - by rewrite score_file_unreadable.
  - apply elem_of_cons in Hin as [?|Hin]; [congruence|].
    destruct (score_file scorer order args pool st n) as [st1| |] eqn:E; simpl; try done.
    apply IH; [done|].
    unfold score_file in E.
    destruct (dir_lookup n (files st)) as [[batch|]|]; try done.
    destruct (score_batch _ _ _ _ _ _ _) as [r| |]; simpl in E; try done.
    injection E as <-. simpl.
    by rewrite dir_lookup_write_file, decide_False.
Qed.

Lemma score_ranks_not_done args pool elapsed_of rank_dirs total rd dir t :
  (rd, dir) ∈ rank_dirs →
  (∀ elapsed out, score_rank_dir scorer order args pool dir elapsed ≠ Done out) →
  (score_ranks scorer order args pool elapsed_of rank_dirs total).2 ≠ Done t.
Proof.
  intros Hin Hbad. revert total.
  induction rank_dirs as [|[rd' dir'] rest IH]; intros total.
  { by apply elem_of_nil in Hin. }
  simpl. destruct (score_rank_dir _ _ _ _ dir' _) as [out| |] eqn:E; simpl; try done.
  apply elem_of_cons in Hin as [[= <- <-]|Hin]; [by apply Hbad in E|].
  specialize (IH Hin (total + elapsed_returned out)%Q).
  by destruct (score_ranks _ _ _ _ _ _ _) as [[written msgs] res].
Qed.

(** X16: the reward pass does not step over a batch file it cannot read.
    When a batch file that the pass is to score is missing (in debug mode
    the first batch is taken for granted) or does not parse, the scoring
    of that rank directory does not complete, so no summary is written
    for it; the exception is the one of the file when it is the first to
    be scored; and the whole pass ends without a total. *)
Theorem unreadable_batch_file_aborts args cpu_count rank_dirs elapsed_of alive rd
    (dir : directory) name :
  (rd, dir) ∈ rank_dirs →
  name ∈ batch_files args dir →
  dir_lookup name dir = None ∨ dir_lookup name dir = Some None →
  (∀ pool elapsed out, score_rank_dir scorer order args pool dir elapsed ≠ Done out)
  ∧ (∀ pool elapsed rest,
       batch_files args dir = name :: rest →
       score_rank_dir scorer order args pool dir elapsed
       = Raised (match dir_lookup name dir with
                 | None => file_not_found
                 | Some _ => json_decode_error
                 end))
  ∧ ∀ total,
      ended (main scorer order args cpu_count rank_dirs elapsed_of alive) ≠ Done total.
Proof.
  intros Hrd Hname Hbad.
  assert (∀ pool elapsed out,
            score_rank_dir scorer order args pool dir elapsed ≠ Done out) as Hrank.
  { intros pool elapsed out. unfold score_rank_dir.
    destruct (batch_files args dir) as [|n names] eqn:Hfiles.
    { by apply elem_of_nil in Hname. }
    destruct (score_files _ _ _ _ _ _) as [st| |] eqn:E; simpl; try done.
    by apply score_files_unreadable with (name := name) in E. }
  split_and!; [done| |].
  - intros pool elapsed rest Hfiles. unfold score_rank_dir. rewrite Hfiles.
    simpl. by rewrite score_file_unreadable.
  - intros total.
    rewrite (proj2 (main_summaries scorer order args cpu_count rank_dirs elapsed_of alive)).
    by eapply score_ranks_not_done.
Qed.

End AbortFacts.

Lemma unreadable_batch_file_aborts_witness :
  let args := {| Reward.debug := true; Reward.recalculate_rewards := false;
                 Reward.correct_reward_threshold := 1; Reward.reward_workers := 1;
                 Reward.task_timeout := 35; Reward.join_timeout := 30 |} in
  let dir := [("batch_00001.json", Some [("0", Reward.two_answers)])] in
  Reward.score_rank_dir Reward.exact_match (λ l, l) args false dir 1
  = Reward.Raised Reward.file_not_found.
Proof.
  intros args dir.
  apply (proj1 (proj2 (unreadable_batch_file_aborts Reward.exact_match (λ l, l)
                         args 1 [("dp0", dir)] (λ _, 1%Q) false "dp0" dir
                         "batch_00000.json" ltac:(left) ltac:(left) (or_introl eq_refl)))
           false 1%Q [] eq_refl).
Defined.

(** ** The generation pass: regeneration and the artifacts' keys *)

Section RegenerationFacts.
Import Py Checkpoint Runner Batches.

Variable chat : list (list Message) → py_exn + list (list string).

(** The loop run on a directory that holds other files beside those of
    a second directory writes over them and leaves the rest. *)
Lemma batch_loop_overlay (dir : directory) idx it st st' :
  outcome st = outcome st' → results st = results st' →
  (∀ name, Reward.dir_lookup name (store st)
           = match Reward.dir_lookup name (store st') with
             | Some d => Some d
             | None => Reward.dir_lookup name dir
             end) →
  outcome (batch_loop chat idx it st) = outcome (batch_loop chat idx it st')
  ∧ results (batch_loop chat idx it st) = results (batch_loop chat idx it st')
  ∧ ∀ name, Reward.dir_lookup name (store (batch_loop chat idx it st))
            = match Reward.dir_lookup name (store (batch_loop chat idx it st')) with
              | Some d => Some d
              | None => Reward.dir_lookup name dir
              end.
Proof.
  revert idx st st'. induction it as [|bd it IH]; intros idx st st' Ho Hr Hs; [done|].
  destruct (batch_artifact chat bd) as [e|a] eqn:E.
  - destruct (batch_loop_cons_fail chat idx bd it st e E) as (? & -> & _).
    destruct (batch_loop_cons_fail chat idx bd it st' e E) as (? & -> & _). done.
  - rewrite !(batch_loop_cons_ok chat _ _ _ _ _ E). apply IH; simpl; [done|congruence|].
    intros name. rewrite !dir_lookup_write_file.
    by destruct (decide (batch_file_name idx = name)).
Qed.

(** X17: a run with the regeneration option is a run in an empty
    directory, written over what the directory holds.  It ends as the
    run in an empty directory does and with the same results in memory;
    a file of the directory is replaced when that run writes a file of
    the same name and is left as it is otherwise, so artifacts of batch
    numbers beyond the dataset stay; and when the run ends without an
    exception it has generated every batch from 0 on. *)
Theorem forced_run_regenerates (dir : directory) dataloader :
  let forced := run_inference chat true dir dataloader in
  let fresh := run_inference chat false [] dataloader in
  outcome forced = outcome fresh
  ∧ results forced = results fresh
  ∧ (∀ name, Reward.dir_lookup name (store forced)
             = match Reward.dir_lookup name (store fresh) with
               | Some d => Some d
               | None => Reward.dir_lookup name dir
               end)
  ∧ (outcome forced = None →
     filter is_batch_work (trace forced) = batch_events 0 dataloader).
Proof.
  intros forced fresh. subst forced fresh.
  set (st := {| outcome := None; store := dir; results := ∅;
                trace := (Print <$> [ForceRegeneration]) ++ [] |}).
  set (st' := {| outcome := None; store := []; results := ∅;
                 trace := (Print <$> (load_checkpoint false []).2) ++ [] |}).
  assert (looped chat true dir dataloader = batch_loop chat 0 dataloader st) as Hforced
    by done.
  assert (looped chat false [] dataloader = batch_loop chat 0 dataloader st') as Hfresh
    by (by apply looped_fresh).
  destruct (batch_loop_overlay dir 0 dataloader st st') as (H1 & H2 & H3); try done.
  destruct (run_inference_data chat true dir dataloader) as (Ho & Hs & Hr).
  destruct (run_inference_data chat false [] dataloader) as (Ho' & Hs' & Hr').
  split_and!.
  - by rewrite Ho, Ho', Hforced, Hfresh.
  - by rewrite Hr, Hr', Hforced, Hfresh.
  - intros name. rewrite Hs, Hs', Hforced, Hfresh. apply H3.
  - intros Hok.
    destruct (outcome_run_inference chat true dir dataloader Hok) as [Hloop ->].
    rewrite Hforced in Hloop |- *.
    destruct (batch_loop_finished chat _ _ _ Hloop) as [contents Hart].
    rewrite (batch_loop_done chat 0 dataloader st contents Hart).
    unfold log. cbn [trace]. unfold st. cbn [trace].
    rewrite app_nil_r, !filter_app, filter_batch_events.
    rewrite !filter_cons_False by (simpl; tauto).
    change (filter _ (@nil event)) with (@nil event). by rewrite app_nil_r.
Qed.

Lemma artifact_fst batch_results :
  (artifact batch_results).*1
  = (λ i, str_of_int (Z.of_nat i)) <$> seq 0 (length batch_results).
Proof.
  unfold artifact. apply list_eq. intros i.
  rewrite !list_lookup_fmap, list_lookup_imap.
  destruct (batch_results !! i) as [r|] eqn:E; simpl.
  - rewrite lookup_seq_lt by (by eapply lookup_lt_Some). done.
  - rewrite lookup_seq_ge by (by apply lookup_ge_None). done.
Qed.

Lemma artifact_NoDup batch_results : NoDup (artifact batch_results).*1.
Proof.
  rewrite artifact_fst. apply NoDup_fmap_2; [|apply NoDup_seq].
  intros i j E. apply (inj str_of_int) in E. lia.
Qed.

(** X18: the keys of an artifact.  The samples of a batch are written
    under the decimal numbers 0, 1, ... in batch order, so no two samples
    of an artifact share a key; this holds for every artifact that a run
    writes. *)
Theorem artifact_keys :
  (∀ batch_results,
     (artifact batch_results).*1
     = (λ i, str_of_int (Z.of_nat i)) <$> seq 0 (length batch_results)
     ∧ (artifact batch_results).*2 = batch_results
     ∧ NoDup (artifact batch_results).*1)
  ∧ ∀ dataloader contents,
      artifacts chat dataloader = Some contents →
      Forall (λ items : list (string * Sample), NoDup items.*1) contents.
Proof.
  split.
  - intros batch_results. split_and!; [apply artifact_fst| |apply artifact_NoDup].
    unfold artifact. apply list_eq. intros i.
    rewrite list_lookup_fmap, list_lookup_imap. by destruct (batch_results !! i).
  - intros dataloader contents Hart. unfold artifacts in Hart. apply mapM_Some in Hart.
    induction Hart as [|bd a it contents Ha _ IH]; constructor; [|done].
    unfold batch_artifact in Ha.
    destruct (negb _); [done|].
    destruct (chat (prompt bd)) as [e|outputs]; [done|].
    destruct (process_batch_outputs outputs bd) as [batch_results|]; [|done].
    injection Ha as <-. apply artifact_NoDup.
Qed.

End RegenerationFacts.

(** ** The checkpoint: the results that are loaded *)

Section LoadedFacts.
Import Py Checkpoint.

Lemma merge_batch_lookup_miss b items (m : gmap string Sample) k :
  (∀ i, i ∈ items.*1 → k ≠ result_key b i) →
  merge_batch b items m !! k = m !! k.
Proof.
  revert m. induction items as [|[i r] items IH]; intros m Hmiss; [done|].
  rewrite merge_batch_cons, IH.
  - apply lookup_insert_ne. intros E. apply (Hmiss i); [|done]. rewrite fmap_cons. left.
  - intros i' Hi'. apply Hmiss. rewrite fmap_cons. by right.
Qed.

Lemma merge_batch_lookup_hit b items (m : gmap string Sample) i x :
  NoDup items.*1 → (i, x) ∈ items →
  merge_batch b items m !! result_key b i = Some x.
Proof.
  revert m. induction items as [|[i' r] items IH]; intros m Hnd Hin.
  { by apply elem_of_nil in Hin. }
  rewrite fmap_cons in Hnd. apply NoDup_cons in Hnd as [Hfresh Hnd].
  rewrite merge_batch_cons.
  apply elem_of_cons in Hin as [[= <- <-]|Hin]; [|by apply IH].
  rewrite merge_batch_lookup_miss; [apply lookup_insert_eq|].
  intros i' Hi' E. apply result_key_inj in E as [_ <-]. done.
Qed.

Lemma load_results_cons f l (m : gmap string Sample) :
  load_results (f :: l) m
  = load_results l (match f.2.2 with
                    | Some items => merge_batch f.1 items m
                    | None => m
                    end).
Proof. done. Qed.

Lemma load_batches_miss s contents (m : gmap string Sample) b i :
  (∀ items, s <= b → contents !! Z.to_nat (b - s) = Some items → i ∉ items.*1) →
  load_results (indexed (batches_from s contents)) m !! result_key b i
  = m !! result_key b i.
Proof.
  revert s m. induction contents as [|items0 contents IH]; intros s m Hmiss; [done|].
  rewrite indexed_batches_from_cons, load_results_cons. cbn [fst snd].
  rewrite IH.
  - apply merge_batch_lookup_miss. intros i' Hi' E.
    apply result_key_inj in E as [-> <-].
    apply (Hmiss items0); [lia| |done]. by rewrite Z.sub_diag.
  - intros items Hle Hitems. apply Hmiss; [lia|].
    replace (Z.to_nat (b - s)) with (S (Z.to_nat (b - (s + 1)))) by lia. done.
Qed.

Lemma load_batches_hit s contents (m : gmap string Sample) b i x items :
  Forall (λ items : list (string * Sample), NoDup items.*1) contents →
  s <= b → contents !! Z.to_nat (b - s) = Some items → (i, x) ∈ items →
  load_results (indexed (batches_from s contents)) m !! result_key b i = Some x.
Proof.
  revert s m. induction contents as [|items0 contents IH]; intros s m Hnd Hle Hitems Hin;
    [done|].
  apply Forall_cons in Hnd as [Hnd0 Hnd].
  rewrite indexed_batches_from_cons, load_results_cons. cbn [fst snd].
  destruct (decide (b = s)) as [->|Hne].
  - rewrite Z.sub_diag in Hitems. injection Hitems as ->.
    rewrite load_batches_miss by (intros; lia).
    by apply merge_batch_lookup_hit.
  - apply IH; [done|lia| |done].
    replace (Z.to_nat (b - s)) with (S (Z.to_nat (b - (s + 1)))) in Hitems by lia. done.
Qed.

Lemma load_results_keys l (m : gmap string Sample) k :
  is_Some (load_results l m !! k) → is_Some (m !! k) ∨ ∃ b i, k = result_key b i.
Proof.
  revert m. induction l as [|f l IH]; intros m; [by left|].
  rewrite load_results_cons. intros [H|H]%IH; [|by right].
  destruct f.2.2 as [items|]; [|by left].
  apply merge_batch_keys in H as [?|[i ->]]; [by left|right; eauto].
Qed.

(** X19: the results that a resumed run starts with.  For a directory
    whose batch files are the artifacts of batches 0, 1, ..., each with
    distinct keys, the entry under the key of batch [b] and sample key [i]
    is the sample that the artifact of batch [b] holds under [i]; there is
    no other entry. *)
Theorem loaded_results_lookup contents (dir : directory) :
  Forall (λ items : list (string * Sample), NoDup items.*1) contents →
  filter (λ f, glob_batch f.1 = true) dir ≡ₚ completed_batches contents →
  let loaded := global_results (load_checkpoint false dir).1 in
  (∀ b i x,
     loaded !! result_key b i = Some x
     ↔ 0 <= b ∧ ∃ items, contents !! Z.to_nat b = Some items ∧ (i, x) ∈ items)
  ∧ ∀ k, is_Some (loaded !! k) → ∃ b i, k = result_key b i.
Proof.
  intros Hnd Hdir loaded.
  assert (loaded = load_results (indexed (batches_from 0 contents)) ∅) as ->.
  { unfold loaded. rewrite load_checkpoint_state. cbn [global_results].
    rewrite (resolved_of_completed contents dir Hdir), resolved_completed.
    unfold completed_batches.
    by rewrite sort_by_idx_sorted_id by apply indexed_batches_from_sorted. }
  split.
  - intros b i x. split.
    + intros Hx.
      destruct (decide (0 <= b)) as [Hb|Hb].
      2:{ rewrite load_batches_miss in Hx by (intros; lia). by rewrite lookup_empty in Hx. }
      split; [done|].
      destruct (contents !! Z.to_nat b) as [items|] eqn:Hitems.
      2:{ rewrite load_batches_miss in Hx.
          - by rewrite lookup_empty in Hx.
          - intros items _. rewrite Z.sub_0_r. congruence. }
      exists items. split; [done|].
      destruct (decide (i ∈ items.*1)) as [Hi|Hi].
      * apply list_elem_of_fmap in Hi as ([i' x'] & -> & Hin). simpl in *.
        rewrite (load_batches_hit 0 contents ∅ b i' x' items) in Hx; try done.
        -- by injection Hx as <-.
        -- by rewrite Z.sub_0_r.
      * rewrite load_batches_miss in Hx.
        -- by rewrite lookup_empty in Hx.
        -- intros items' _. rewrite Z.sub_0_r. congruence.
    + intros (Hb & items & Hitems & Hin).
      apply (load_batches_hit 0 contents ∅ b i x items); try done.
      by rewrite Z.sub_0_r.
  - intros k [H|H]%load_results_keys; [|done].
    rewrite lookup_empty in H. by destruct H.
Qed.

End LoadedFacts.

Lemma forced_run_regenerates_witness :
  Runner.results
    (Runner.run_inference Runner.echo_chat true Checkpoint.dir_complete Runner.three_batches)
  = Runner.results (Runner.run_inference Runner.echo_chat false [] Runner.three_batches).
Proof.
  exact (proj1 (proj2 (forced_run_regenerates Runner.echo_chat Checkpoint.dir_complete
                         Runner.three_batches))).
Defined.

Lemma artifact_keys_witness :
  ∃ contents,
    Batches.artifacts Runner.echo_chat Runner.three_batches = Some contents
    ∧ Forall (λ items : list (string * Sample), NoDup items.*1) contents.
Proof.
  evar (contents : list (list (string * Sample))).
  assert (Batches.artifacts Runner.echo_chat Runner.three_batches = Some contents) as H
    by (unfold contents; vm_compute; reflexivity).
  exists contents. split; [exact H|].
  exact (proj2 (artifact_keys Runner.echo_chat) Runner.three_batches contents H).
Defined.

Lemma loaded_results_lookup_witness :
  (Forall (λ items : list (string * Sample), NoDup items.*1) Checkpoint.two_batches
   ∧ filter (λ f, Checkpoint.glob_batch f.1 = true) Checkpoint.dir_complete
     ≡ₚ Checkpoint.completed_batches Checkpoint.two_batches)
  ∧ Checkpoint.global_results (Checkpoint.load_checkpoint false Checkpoint.dir_complete).1
      !! Checkpoint.result_key 1 "0"
    = Some (Checkpoint.sample_of ["e"; "f"]).
Proof.
  assert (Forall (λ items : list (string * Sample), NoDup items.*1) Checkpoint.two_batches)
    as Hnd.
  { apply (bool_decide_unpack _). by vm_compute. }
  assert (filter (λ f, Checkpoint.glob_batch f.1 = true) Checkpoint.dir_complete
          ≡ₚ Checkpoint.completed_batches Checkpoint.two_batches) as Hperm.
  { apply perm_swap. }
  split; [by split|].
  apply (proj1 (loaded_results_lookup Checkpoint.two_batches Checkpoint.dir_complete
                  Hnd Hperm) 1 "0" (Checkpoint.sample_of ["e"; "f"])).
  split; [lia|]. eexists. split; [reflexivity|]. left.
Defined.

(** ** Questions, pass rates and names *)

Section SmallFacts.
Import Py Runner Reward Paths.

(** X20: the question of a sample is the content of the first message
    of its prompt whose role is [user]; a prompt without such a message
    gets the fixed text of line 207. *)
Theorem question_is_first_user_message msgs :
  (Forall (λ m, role m ≠ "user") msgs → first_user_content msgs = "No question found")
  ∧ ∀ pre m post,
      msgs = pre ++ m :: post →
      Forall (λ m, role m ≠ "user") pre →
      role m = "user" →
      first_user_content msgs = content m.
Proof.
  unfold first_user_content. split.
  - intros Hnone. rewrite filter_is_nil; [done|].
    intros m Hm. by apply (proj1 (Forall_forall _ _) Hnone).
  - intros pre m post -> Hpre Hm. rewrite filter_app, filter_cons_True by done.
    rewrite (filter_is_nil _ pre); [done|].
    intros m' Hm'. by apply (proj1 (Forall_forall _ _) Hpre).
Qed.

Lemma rate_bounds p t : (p ≤ t)%nat → (0 <= rate p t)%Q ∧ (rate p t <= 1)%Q.
Proof.
  intros Hle. unfold rate. destruct t as [|t]; [done|].
  rewrite !Qred_correct. unfold Qle. simpl.
  rewrite Pos.of_nat_succ || idtac.
  split; lia.
Qed.

(** X21: the pass rate that is written back lies between 0 and 1. *)
Theorem pass_rate_bounds threshold x dl x' :
  write_back threshold x dl = Done x' →
  ∃ q, pass_rate x' = Some q ∧ (0 <= q)%Q ∧ (q <= 1)%Q.
Proof.
  intros Hw. destruct (write_back_done _ _ _ _ Hw) as (score_list & _ & _ & _ & Hp & _).
  eexists. split; [exact Hp|]. apply rate_bounds.
  unfold pass_count. apply length_filter.
Qed.

Lemma split_nonempty sep s : split sep s ≠ [].
Proof.
  destruct s as [|c s]; simpl; [done|].
  destruct (decide (c = sep)); [done|]. by destruct (split sep s).
Qed.

Lemma split_app_any sep a b :
  ∃ p ps, split sep (a +:+ String sep b) = (p :: ps) ++ split sep b.
Proof.
  induction a as [|c a (p & ps & IH)].
  - exists EmptyString, []. simpl. by rewrite decide_True.
  - change (String c a +:+ String sep b) with (String c (a +:+ String sep b)).
    simpl. rewrite IH. destruct (decide (c = sep)).
    + by exists EmptyString, (p :: ps).
    + by exists (String c p), ps.
Qed.

Lemma last_piece_app a b : last_piece (a +:+ String "/" b) = last_piece b.
Proof.
  unfold last_piece. destruct (split_app_any "/" a b) as (p & ps & ->).
  rewrite last_app. pose proof (split_nonempty "/" b) as Hne.
  destruct (split "/" b) as [|x l] eqn:E; [done|].
  destruct (last (x :: l)) eqn:El; [done|]. by apply last_None in El.
Qed.

Lemma last_piece_plain b :
  all_chars (λ c, bool_decide (c ≠ "/"%char)) b = true → last_piece b = b.
Proof. intros Hb. unfold last_piece. by rewrite split_no_sep. Qed.

Lemma string_length_app (a b : string) :
  String.length (a +:+ b) = (String.length a + String.length b)%nat.
Proof.
  induction a as [|c a IH]; [done|].
  change (String c a +:+ b) with (String c (a +:+ b)). simpl. by rewrite IH.
Qed.

Lemma string_app_empty_r (a : string) : a +:+ EmptyString = a.
Proof.
  induction a as [|c a IH]; [done|].
  change (String c a +:+ EmptyString) with (String c (a +:+ EmptyString)). by rewrite IH.
Qed.

Lemma before_last_short marker s :
  (String.length s < String.length marker)%nat → before_last marker s = None.
Proof.
  induction s as [|c s IH]; intros Hlen; [done|]. simpl in Hlen.
  cbn [before_last]. rewrite IH by lia.
  destruct (strip_prefix marker (String c s)) as [r|] eqn:E; [|done].
  apply strip_prefix_spec in E. apply (f_equal String.length) in E.
  rewrite string_length_app in E. simpl in E. lia.
Qed.

Lemma before_last_app marker s :
  marker ≠ EmptyString → before_last marker (s +:+ marker) = Some s.
Proof.
  intros Hne. induction s as [|c s IH].
  - change (EmptyString +:+ marker) with marker.
    destruct marker as [|c r]; [done|].
    cbn [before_last]. rewrite before_last_short by (simpl; lia).
    by rewrite (proj2 (strip_prefix_spec (String c r) (String c r) EmptyString))
      by (by rewrite string_app_empty_r).
  - change (String c s +:+ marker) with (String c (s +:+ marker)).
    cbn [before_last]. by rewrite IH.
Qed.

(** X22: the directory names taken from the paths.  The dataset name is
    the file name of the dataset without its [.parquet] ending, whatever
    directory the path goes through, and the model name is the last
    component of the model path; a model path that ends with the
    separator gives the empty model name. *)
Theorem names_from_paths :
  (∀ dir stem,
     all_chars (λ c, bool_decide (c ≠ "/"%char)) stem = true →
     dataset_name (dir +:+ "/" +:+ stem +:+ ".parquet") = stem
     ∧ dataset_name (stem +:+ ".parquet") = stem)
  ∧ (∀ dir name,
       all_chars (λ c, bool_decide (c ≠ "/"%char)) name = true →
       model_name (dir +:+ "/" +:+ name) = name ∧ model_name name = name)
  ∧ ∀ path, model_name (path +:+ "/") = EmptyString.
Proof.
  split_and!.
  - intros dir stem Hstem.
    assert (dataset_name (stem +:+ ".parquet") = stem) as Hbase.
    { unfold dataset_name. rewrite last_piece_plain.
      - by rewrite before_last_app.
      - rewrite all_chars_app, Hstem. done. }
    split; [|done]. unfold dataset_name in *.
    change (dir +:+ "/" +:+ stem +:+ ".parquet")
      with (dir +:+ String "/" (stem +:+ ".parquet")).
    by rewrite last_piece_app.
  - intros dir name Hname. unfold model_name. split.
    + change (dir +:+ "/" +:+ name) with (dir +:+ String "/" name).
      by rewrite last_piece_app, last_piece_plain.
    + by apply last_piece_plain.
  - intros path. unfold model_name.
    change (path +:+ "/") with (path +:+ String "/" EmptyString).
    by rewrite last_piece_app.
Qed.

End SmallFacts.

Lemma question_is_first_user_message_witness :
  Runner.first_user_content
    [ {| role := "system"; content := "be brief" |};
      {| role := "user"; content := "q0" |};
      {| role := "user"; content := "q1" |} ] = "q0".
Proof.
  apply (proj2 (question_is_first_user_message _)
           [ {| role := "system"; content := "be brief" |} ]
           {| role := "user"; content := "q0" |}
           [ {| role := "user"; content := "q1" |} ]);
    [reflexivity | by repeat constructor | reflexivity].
Defined.

Lemma pass_rate_bounds_witness :
  ∃ x' q,
    Reward.write_back 1 Reward.two_answers [[("score", JNum 1)]; [("score", JNum 0)]]
    = Reward.Done x'
    ∧ pass_rate x' = Some q ∧ (0 <= q)%Q ∧ (q <= 1)%Q.
Proof.
  evar (x' : Sample).
  assert (Reward.write_back 1 Reward.two_answers [[("score", JNum 1)]; [("score", JNum 0)]]
          = Reward.Done x') as H by (unfold x'; vm_compute; reflexivity).
  destruct (pass_rate_bounds _ _ _ _ H) as (q & Hq & Hlo & Hhi).
  exists x', q. by split_and!.
Defined.

Lemma names_from_paths_witness :
  Paths.dataset_name "/data/train/math.v2.parquet" = "math.v2"
  ∧ Paths.model_name "org/Qwen-7B" = "Qwen-7B".
Proof.
  split.
  - apply (proj1 (proj1 names_from_paths "/data/train" "math.v2" eq_refl)).
  - apply (proj1 (proj1 (proj2 names_from_paths) "org" "Qwen-7B" eq_refl)).
Defined.

(** ** The reward pass: scoring a rank directory again *)

Section RescoreFacts.
Import Reward.

Variable scorer : string → string → json → list (string * json) → behaviour.
Variable order : list (Z * detail) → list (Z * detail).

Lemma write_file_same n d (dir : directory) :
  dir_lookup n dir = Some d → write_file n d dir = dir.
Proof.
  induction dir as [|[n' d'] dir IH]; simpl; [done|].
  destruct (decide (n' = n)) as [->|Hne]; [by intros [= ->]|].
  intros H. by rewrite IH.
Qed.

Lemma write_file_names n d d' (dir : directory) :
  dir_lookup n dir = Some d' → (write_file n d dir).*1 = dir.*1.
Proof.
  induction dir as [|[n0 d0] dir IH]; simpl; [done|].
  destruct (decide (n0 = n)) as [->|Hne]; [done|].
  intros H. by rewrite fmap_cons, IH.
Qed.

Lemma score_file_done args pool st n st1 :
  score_file scorer order args pool st n = Done st1 →
  ∃ batch batch' results' k,
    dir_lookup n (files st) = Some (Some batch)
    ∧ score_batch scorer order args pool n batch (rank_total st)
      = Done (batch', results', k)
    ∧ files st1 = write_file n (Some batch') (files st).
Proof.
  unfold score_file.
  destruct (dir_lookup n (files st)) as [[batch|]|]; try done.
  destruct (score_batch _ _ _ _ _ _ _) as [[[batch' results'] k]| |] eqn:E;
    simpl; try done.
  intros [= <-]. by exists batch, batch', results', k.
Qed.

(** What a first pass over the listed files leaves in the directory. *)
Lemma score_files_settles args pool names st st' :
  recalculate_rewards args = false →
  (pool = true → ∀ l, order l ≡ₚ l) →
  (∀ n b, dir_lookup n (files st) = Some (Some b) → NoDup b.*1) →
  score_files scorer order args pool names st = Done st' →
  (files st').*1 = (files st).*1
  ∧ (∀ n b, dir_lookup n (files st') = Some (Some b) → NoDup b.*1)
  ∧ (∀ n, n ∈ names →
          ∃ b, dir_lookup n (files st') = Some (Some b) ∧ plan args b = [])
  ∧ (∀ n b, dir_lookup n (files st) = Some (Some b) → plan args b = [] →
            ∃ b', dir_lookup n (files st') = Some (Some b') ∧ plan args b' = []).
Proof.
  intros Hrecalc Horder. revert st.
  induction names as [|n names IH]; intros st Hnd Hdone.
  { injection Hdone as <-. split_and!; try done.
    - by intros n ?%elem_of_nil.
    - eauto. }
  simpl in Hdone.
  destruct (score_file scorer order args pool st n) as [st1| |] eqn:E; simpl in Hdone;
    try done.
  destruct (score_file_done _ _ _ _ _ E) as (batch & batch' & r & k & Hl & Hb & Hf).
  pose proof (Hnd n batch Hl) as Hndb.
  pose proof (scored_batch_settled _ _ _ _ _ _ _ _ _ _ Hrecalc Hndb Horder Hb) as Hset.
  destruct (score_batch_entries _ _ _ _ _ _ _ _ _ _ Hndb Horder Hb) as (_ & Hkeys & _).
  assert (∀ n0 b, dir_lookup n0 (files st1) = Some (Some b) → NoDup b.*1) as Hnd1.
  { intros n0 b. rewrite Hf, dir_lookup_write_file.
    destruct (decide (n = n0)); [|by apply Hnd].
    intros [= <-]. by rewrite Hkeys. }
  destruct (IH st1 Hnd1 Hdone) as (Hnames & Hnd' & Hlisted & Hkept).
  assert (dir_lookup n (files st1) = Some (Some batch')) as Hl1.
  { by rewrite Hf, dir_lookup_write_file, decide_True. }
  split_and!.
  - rewrite Hnames, Hf. by eapply write_file_names.
  - done.
  - intros n0 [->|Hin]%elem_of_cons; [by eapply Hkept | by apply Hlisted].
  - intros n0 b Hb0 Hplan. destruct (decide (n = n0)) as [<-|Hne].
    + by eapply Hkept.
    + apply (Hkept n0 b); [|done]. by rewrite Hf, dir_lookup_write_file, decide_False.
Qed.

(** A pass over files that have nothing left to score. *)
Lemma score_files_settled args pool names st :
  (∀ n, n ∈ names →
        ∃ b, dir_lookup n (files st) = Some (Some b) ∧ plan args b = []) →
  ∃ total,
    score_files scorer order args pool names st
    = Done {| files := files st; rank_total := total;
              total_responses := total_responses st;
              printed := printed st ++ (AlreadyScored <$> names) |}.
Proof.
  revert st. induction names as [|n names IH]; intros st Hall.
  { exists (rank_total st). simpl. rewrite app_nil_r. by destruct st. }
  destruct (Hall n ltac:(left)) as (b & Hl & Hplan).
  destruct (settled_score_batch scorer order args pool n b (rank_total st) Hplan)
    as [_ Hs].
  simpl. unfold score_file. rewrite Hl, Hs. simpl.
  rewrite (write_file_same n (Some b) (files st) Hl), Nat.add_0_r.
  edestruct (IH {| files := files st;
                   rank_total := rank_results (collect_tasks args n b (rank_total st));
                   total_responses := total_responses st;
                   printed := printed st ++ [AlreadyScored n] |}) as [total Htotal].
  { intros n0 Hn0. apply Hall. by right. }
  exists total. rewrite Htotal. simpl. by rewrite <- app_assoc.
Qed.

Lemma batch_files_names args (dir dir' : directory) :
  dir'.*1 = dir.*1 → batch_files args dir' = batch_files args dir.
Proof. intros E. unfold batch_files. by rewrite E. Qed.

(** X23: scoring a rank directory again computes nothing.  After a pass
    without the recalculation option has scored a rank directory to the
    end, a second pass over the directory it left, with or without a
    pool, builds no scoring task: it reports every batch file as already
    scored, leaves all files as they are, and writes a summary that
    counts no response. *)
Theorem rescoring_rank_is_noop args pool (dir : directory) elapsed out :
  recalculate_rewards args = false →
  (pool = true → ∀ l, order l ≡ₚ l) →
  (∀ n b, dir_lookup n dir = Some (Some b) → NoDup b.*1) →
  score_rank_dir scorer order args pool dir elapsed = Done out →
  ∀ pool' elapsed',
    ∃ out',
      score_rank_dir scorer order args pool' (files_after out) elapsed' = Done out'
      ∧ files_after out' = files_after out
      ∧ (batch_files args dir ≠ [] →
         rank_printed out' = (AlreadyScored <$> batch_files args dir) ++ [SavedSummary])
      ∧ ∀ fs, final_results out' = Some fs → num_responses (metrics fs) = 0%nat.
Proof.
  intros Hrecalc Horder Hnd Hdone pool' elapsed'.
  unfold score_rank_dir in Hdone |- *.
  destruct (batch_files args dir) as [|n names] eqn:Hfiles.
  { injection Hdone as <-. simpl. rewrite Hfiles. eexists. by split_and!. }
  destruct (score_files scorer order args pool (n :: names) _) as [st| |] eqn:E;
    simpl in Hdone; try done.
  injection Hdone as <-. cbn [files_after].
  destruct (score_files_settles args pool (n :: names)
              {| files := dir; rank_total := ∅; total_responses := 0; printed := [] |}
              st Hrecalc Horder Hnd E)
    as (Hnames & _ & Hlisted & _).
  simpl in Hnames. rewrite (batch_files_names args dir (files st) Hnames), Hfiles.
  edestruct (score_files_settled args pool' (n :: names)
               {| files := files st; rank_total := ∅; total_responses := 0;
                  printed := [] |}) as [total Htotal].
  { exact Hlisted. }
  rewrite Htotal. simpl. eexists. split; [done|]. simpl.
  split_and!; try done. by intros fs [= <-].
Qed.

End RescoreFacts.

Lemma rescoring_rank_is_noop_witness :
  ∃ out out',
    Reward.score_rank_dir Reward.exact_match (λ l, l) (Reward.example_args 1) false
      Reward.shard 2 = Reward.Done out
    ∧ Reward.score_rank_dir Reward.exact_match (λ l, l) (Reward.example_args 1) true
        (Reward.files_after out) 1 = Reward.Done out'
    ∧ Reward.files_after out' = Reward.files_after out.
Proof.
  evar (out : Reward.rank_output).
  assert (Reward.score_rank_dir Reward.exact_match (λ l, l) (Reward.example_args 1) false
            Reward.shard 2 = Reward.Done out) as H
    by (unfold out; vm_compute; reflexivity).
  assert (∀ n b, Reward.dir_lookup n Reward.shard = Some (Some b) → NoDup b.*1) as Hnd.
  { intros n b. unfold Reward.shard. simpl.
    repeat (case_decide; [intros [= <-]; apply (bool_decide_unpack _); by vm_compute|]).
    done. }
  destruct (rescoring_rank_is_noop Reward.exact_match (λ l, l) (Reward.example_args 1)
              false Reward.shard 2 out eq_refl ltac:(done) Hnd H true 1%Q)
    as (out' & H' & Hfiles & _).
  exists out, out'. by split_and!.
Defined.

(** ** From the generation pass to the reward pass *)

Section PipelineFacts.
Import Reward.

Variable scorer : string → string → json → list (string * json) → behaviour.
Variable order : list (Z * detail) → list (Z * detail).

Lemma process_batch_outputs_rows outputs bd batch_results :
  Runner.process_batch_outputs outputs bd = Some batch_results →
  Forall2 (λ texts r, responses r = texts ∧ scores r = None) outputs batch_results.
Proof.
  unfold Runner.process_batch_outputs. intros H. apply mapM_Some in H.
  assert (Forall2 (λ texts r, responses r = texts ∧ scores r = None)
            (zip (seq 0 (length outputs)) outputs).*2 batch_results) as Hrows.
  { apply Forall2_fmap_l. eapply Forall2_impl; [exact H|].
    intros [i texts] r Hr. simpl in *.
    by apply process_output_Some in Hr as (? & _ & _ & _ & _ & _ & ? & _). }
  rewrite snd_zip in Hrows; [done|]. by rewrite length_seq.
Qed.

Lemma unscored_rows_tasks args outputs (batch_results : list Sample) :
  Forall2 (λ texts r, responses r = texts ∧ scores r = None) outputs batch_results →
  sum_list ((λ x, if skipped args x then 0%nat else length (responses x)) <$> batch_results)
  = sum_list (length <$> outputs).
Proof.
  induction 1 as [|texts r outputs batch_results [Hr Hs] _ IH]; [done|].
  rewrite !fmap_cons. simpl. rewrite IH.
  unfold skipped, has_scores. rewrite Hs, Hr. by rewrite andb_false_r.
Qed.

(** X24: the first reward pass over an artifact of the generation pass
    scores every completion.  The samples of an artifact carry no score,
    so none is passed through: the number of scoring tasks is the number
    of completions that the generation collaborator returned for the
    batch, and every sample with at least one completion ends with
    scores. *)
Theorem first_pass_scores_every_response args pool name outputs bd batch_results
    results batch' results' n :
  Runner.process_batch_outputs outputs bd = Some batch_results →
  (pool = true → ∀ l, order l ≡ₚ l) →
  score_batch scorer order args pool name (Runner.artifact batch_results) results
  = Done (batch', results', n) →
  n = sum_list (length <$> outputs)
  ∧ batch'.*1 = (Runner.artifact batch_results).*1
  ∧ ∀ s x', (s, x') ∈ batch' → responses x' ≠ [] → has_scores x' = true.
Proof.
  intros Hrows Horder Hdone.
  apply process_batch_outputs_rows in Hrows.
  pose proof (artifact_NoDup batch_results) as Hnd.
  destruct (score_batch_entries _ _ _ _ _ _ _ _ _ _ Hnd Horder Hdone)
    as (-> & Hkeys & Hall).
  split_and!; [|done|].
  - rewrite length_plan.
    rewrite <- (unscored_rows_tasks args outputs batch_results Hrows).
    f_equal. unfold Runner.artifact. apply list_eq. intros i.
    rewrite !list_lookup_fmap, list_lookup_imap. by destruct (batch_results !! i).
  - intros s x' Hin' Hresp.
    assert (s ∈ (Runner.artifact batch_results).*1) as Hs.
    { rewrite <- Hkeys. apply list_elem_of_fmap. by exists (s, x'). }
    apply list_elem_of_fmap in Hs as ([s0 x] & Hs0 & Hx). simpl in Hs0. subst s0.
    destruct (Hall s x Hx) as (x'' & Hin'' & Hcase).
    assert (NoDup batch'.*1) as Hnd' by (by rewrite Hkeys).
    rewrite (NoDup_fst_unique _ _ _ _ Hnd' Hin' Hin'') in *.
    destruct (skipped args x) eqn:Hskip.
    { destruct Hcase as [-> _]. unfold skipped in Hskip.
      apply andb_true_iff in Hskip as [_ ?]. done. }
    case_bool_decide as Hrx.
    { destruct Hcase as [-> _]. done. }
    destruct Hcase as [(dl & Hne & Hw) _]. by eapply write_back_has_scores.
Qed.

End PipelineFacts.

Lemma first_pass_scores_every_response_witness :
  ∃ batch_results batch' results' n,
    (Runner.process_batch_outputs [["right"; "wrong"]; ["right"]]
       (Runner.batch_of None ["q0"; "q1"]) = Some batch_results
     ∧ (false = true → ∀ l : list (Z * detail), l ≡ₚ l)
     ∧ Reward.score_batch Reward.exact_match (λ l, l) (Reward.example_args 1) false
         "batch_00000.json" (Runner.artifact batch_results) ∅
       = Reward.Done (batch', results', n))
    ∧ n = 3%nat.
Proof.
  evar (batch_results : list Sample). evar (batch' : list (string * Sample)).
  evar (results' : gmap string Sample). evar (n : nat).
  assert (Runner.process_batch_outputs [["right"; "wrong"]; ["right"]]
            (Runner.batch_of None ["q0"; "q1"]) = Some batch_results) as H1
    by (unfold batch_results; vm_compute; reflexivity).
  assert (false = true → ∀ l : list (Z * detail), l ≡ₚ l) as H2 by done.
  assert (Reward.score_batch Reward.exact_match (λ l, l) (Reward.example_args 1) false
            "batch_00000.json" (Runner.artifact batch_results) ∅
          = Reward.Done (batch', results', n)) as H3
    by (unfold batch', results', n; vm_compute; reflexivity).
  exists batch_results, batch', results', n. split; [by split_and!|].
  exact (proj1 (first_pass_scores_every_response Reward.exact_match (λ l, l) _ _ _ _ _ _ _
                  _ _ _ H1 H2 H3)).
Defined.
